(** * QR steganography: a shallow embedding of the codec and its properties

    The development follows the TypeScript sources of the library:

    - [utils/bit-utils.ts]   : CRC-16 and the bit frame
                               [[16-bit length | payload | 16-bit checksum]];
    - [utils/prime-utils.ts] : the prime-step distribution of bit positions;
    - [utils/qr-analyzer.ts] : function-pattern masks, the list of flippable
                               modules and the capacity model;
    - [core/QRStegoEncoder.ts], [core/QRStego.ts] : encoder and matrix-mode
                               decoder.

    JavaScript numbers that hold array indices and lengths are modelled by
    [nat] and [Z] (exact below 2^53); the 32-bit integer operators ([<<], [>>],
    [&], [|], [^]) are written out with their wrap-around; the capacity model,
    which multiplies and divides by non-integer constants, is computed on
    IEEE-754 binary64 numbers ([PrimFloat]), as the source does. *)

From Stdlib Require Import ZArith List Lia Bool Arith.
From Stdlib Require Import PrimFloat FloatOps SpecFloat Uint63.
From mathcomp Require boot.
Import ListNotations.

Set Implicit Arguments.

(** ** Results of fallible operations *)

(** The sources throw [Error] objects that differ by their message; one
    constructor stands for each [throw] site (the names are those of the
    specification's error taxonomy). *)
Inductive error : Type :=
| PayloadTooLarge (bytes : nat) (maxMessageBytes : float)
    (* 'Secondary message too large: ...' *)
| ShortFrame
    (* 'Insufficient bits for valid message' *)
| BadLength (length : Z)
    (* 'Invalid message length: ...' *)
| ChecksumMismatch (expected got : Z)
    (* 'Checksum mismatch: expected ..., got ...' *)
| CapacityExceeded (bitsNeeded totalModules : nat)
    (* 'Cannot fit ... bits into ... modules' *)
| MatrixTooSmall
    (* 'No flippable modules found - QR code too small' *)
| InsufficientCapacity
    (* 'Insufficient capacity for hidden message' *)
| SizeMismatch
    (* 'Matrix size mismatch' *)
| EngineError
    (* whatever QrCode.encodeText throws *)
| TypeError.
    (* a property read on [undefined] (an array index out of range) *)

Inductive result (A : Type) : Type :=
| Ok (a : A)
| Err (e : error).
Arguments Ok {A} a.
Arguments Err {A} e.

Definition bind {A B : Type} (r : result A) (k : A -> result B) : result B :=
  match r with
  | Ok a => k a
  | Err e => Err e
  end.

Notation "x <- r ;; k" := (bind r (fun x => k))
  (at level 61, r at next level, right associativity).

Definition is_PayloadTooLarge {A : Type} (r : result A) : bool :=
  match r with Err (PayloadTooLarge _ _) => true | _ => false end.
Definition is_BadLength {A : Type} (r : result A) : bool :=
  match r with Err (BadLength _) => true | _ => false end.
Definition is_ShortFrame {A : Type} (r : result A) : bool :=
  match r with Err ShortFrame => true | _ => false end.
Definition is_ChecksumMismatch {A : Type} (r : result A) : bool :=
  match r with Err (ChecksumMismatch _ _) => true | _ => false end.
Definition is_InsufficientCapacity {A : Type} (r : result A) : bool :=
  match r with Err InsufficientCapacity => true | _ => false end.
Definition is_Ok {A : Type} (r : result A) : bool :=
  match r with Ok _ => true | _ => false end.

(** ** JavaScript's 32-bit integer operators *)

Module JS.
Local Open Scope Z_scope.

(** [ToInt32]: reduction modulo 2^32 into [-2^31, 2^31)
    (2^31 = 2147483648, 2^32 = 4294967296). *)
Definition ToInt32 (z : Z) : Z := (z + 2147483648) mod 4294967296 - 2147483648.

(** [a << n], [a >> n]: the shift count is taken modulo 32. *)
Definition shl (a n : Z) : Z := ToInt32 (Z.shiftl (ToInt32 a) (n mod 32)).
Definition shr (a n : Z) : Z := Z.shiftr (ToInt32 a) (n mod 32).
(** [a & b], [a | b], [a ^ b] on two's-complement 32-bit integers. *)
Definition and (a b : Z) : Z := Z.land (ToInt32 a) (ToInt32 b).
Definition or (a b : Z) : Z := Z.lor (ToInt32 a) (ToInt32 b).
Definition xor (a b : Z) : Z := Z.lxor (ToInt32 a) (ToInt32 b).

End JS.

(** ** Strings and the platform's UTF-8 codec

    A JavaScript string is a sequence of UTF-16 code units.  [TextEncoder]
    and [TextDecoder] belong to the platform (WHATWG Encoding Standard), not
    to the repository; they are written out here the way the standard defines
    them, because the frame stores the bytes of the one and returns the string
    of the other. *)

Definition jsstring : Type := list Z.

Module Utf8.
Local Open Scope Z_scope.

Definition is_high_surrogate (c : Z) : bool := (0xD800 <=? c) && (c <=? 0xDBFF).
Definition is_low_surrogate (c : Z) : bool := (0xDC00 <=? c) && (c <=? 0xDFFF).

(** The UTF-8 bytes of one scalar value. *)
Definition bytes_of_code_point (cp : Z) : list Z :=
  if cp <=? 0x7F then [cp]
  else if cp <=? 0x7FF then
    [Z.lor 0xC0 (Z.shiftr cp 6); Z.lor 0x80 (Z.land cp 0x3F)]
  else if cp <=? 0xFFFF then
    [Z.lor 0xE0 (Z.shiftr cp 12);
     Z.lor 0x80 (Z.land (Z.shiftr cp 6) 0x3F);
     Z.lor 0x80 (Z.land cp 0x3F)]
  else
    [Z.lor 0xF0 (Z.shiftr cp 18);
     Z.lor 0x80 (Z.land (Z.shiftr cp 12) 0x3F);
     Z.lor 0x80 (Z.land (Z.shiftr cp 6) 0x3F);
     Z.lor 0x80 (Z.land cp 0x3F)].

(** [new TextEncoder().encode(s)]: the string is first converted to scalar
    values (a surrogate pair gives one supplementary code point, a lone
    surrogate gives U+FFFD), then each scalar value is written in UTF-8. *)
Fixpoint encode (s : jsstring) : list Z :=
  match s with
  | [] => []
  | c :: rest =>
      if is_high_surrogate c then
        match rest with
        | d :: rest' =>
            if is_low_surrogate d then
              bytes_of_code_point
                (0x10000 + (c - 0xD800) * 0x400 + (d - 0xDC00)) ++ encode rest'
            else bytes_of_code_point 0xFFFD ++ encode rest
        | [] => bytes_of_code_point 0xFFFD
        end
      else if is_low_surrogate c then bytes_of_code_point 0xFFFD ++ encode rest
      else bytes_of_code_point c ++ encode rest
  end.

(** State of the standard's UTF-8 decoder. *)
Record decoder_state : Type := {
  code_point : Z;
  bytes_seen : Z;
  bytes_needed : Z;
  lower_boundary : Z;
  upper_boundary : Z
}.

Definition start_state : decoder_state :=
  {| code_point := 0; bytes_seen := 0; bytes_needed := 0;
     lower_boundary := 0x80; upper_boundary := 0xBF |}.

(** One byte read while no sequence is open: the next state and what is
    emitted (a code point, U+FFFD for an error, or nothing). *)
Definition lead_byte (b : Z) : decoder_state * list Z :=
  if b <=? 0x7F then (start_state, [b])
  else if (0xC2 <=? b) && (b <=? 0xDF) then
    ({| code_point := Z.land b 0x1F; bytes_seen := 0; bytes_needed := 1;
        lower_boundary := 0x80; upper_boundary := 0xBF |}, [])
  else if (0xE0 <=? b) && (b <=? 0xEF) then
    ({| code_point := Z.land b 0xF; bytes_seen := 0; bytes_needed := 2;
        lower_boundary := if b =? 0xE0 then 0xA0 else 0x80;
        upper_boundary := if b =? 0xED then 0x9F else 0xBF |}, [])
  else if (0xF0 <=? b) && (b <=? 0xF4) then
    ({| code_point := Z.land b 0x7; bytes_seen := 0; bytes_needed := 3;
        lower_boundary := if b =? 0xF0 then 0x90 else 0x80;
        upper_boundary := if b =? 0xF4 then 0x8F else 0xBF |}, [])
  else (start_state, [0xFFFD]).

(** The decoder run over a byte sequence (error mode "replacement"). A byte
    that cannot continue the open sequence ends it with U+FFFD and is read
    again as a lead byte. *)
Fixpoint decode_from (st : decoder_state) (bytes : list Z) : list Z :=
  match bytes with
  | [] => if bytes_needed st =? 0 then [] else [0xFFFD]
  | b :: rest =>
      if bytes_needed st =? 0 then
        let (st', out) := lead_byte b in out ++ decode_from st' rest
      else if (b <? lower_boundary st) || (upper_boundary st <? b) then
        let (st', out) := lead_byte b in 0xFFFD :: out ++ decode_from st' rest
      else
        let cp := Z.lor (Z.shiftl (code_point st) 6) (Z.land b 0x3F) in
        if bytes_seen st + 1 =? bytes_needed st then
          cp :: decode_from start_state rest
        else
          decode_from
            {| code_point := cp; bytes_seen := bytes_seen st + 1;
               bytes_needed := bytes_needed st;
               lower_boundary := 0x80; upper_boundary := 0xBF |} rest
  end.

(** The UTF-16 code units of one code point. *)
Definition code_units (cp : Z) : list Z :=
  if cp <=? 0xFFFF then [cp]
  else [0xD800 + Z.shiftr (cp - 0x10000) 10; 0xDC00 + Z.land (cp - 0x10000) 0x3FF].

(** [new TextDecoder().decode(bytes)]: UTF-8, replacement mode, and with the
    default [ignoreBOM = false] a leading U+FEFF is not part of the output. *)
Definition decode (bytes : list Z) : jsstring :=
  let cps := decode_from start_state bytes in
  let cps := match cps with
             | cp :: rest => if cp =? 0xFEFF then rest else cps
             | [] => cps
             end in
  flat_map code_units cps.

End Utf8.

(** ** JavaScript numbers that are not integers

    Capacities are IEEE-754 binary64 values.  [Prim2SF] exposes sign, mantissa
    and exponent of a float, which gives [Math.floor] and the comparison of an
    integer with a float exactly (no rounding is involved in either). *)

Module Num.

Definition of_Z (z : Z) : float := PrimFloat.of_uint63 (Uint63.of_Z z).
Definition of_nat (n : nat) : float := of_Z (Z.of_nat n).

Definition is_nan (x : float) : bool := negb (PrimFloat.eqb x x).

(** [Math.floor(x)]. A finite [x] is [m * 2^e] with [m < 2^53]; when [e < 0]
    the integer part is below 2^53 and converts back exactly. *)
Definition Math_floor (x : float) : float :=
  match Prim2SF x with
  | S754_finite s m e =>
      if (0 <=? e)%Z then x
      else
        let q := (Zpos m / 2 ^ (- e))%Z in
        let r := (Zpos m mod 2 ^ (- e))%Z in
        if s then PrimFloat.opp (of_Z (if (r =? 0)%Z then q else q + 1)%Z)
        else of_Z q
  | _ => x
  end.

(** [Math.max(a, b)]: NaN if either is NaN, and [+0] is larger than [-0]. *)
Definition Math_max (a b : float) : float :=
  if is_nan a || is_nan b then PrimFloat.nan
  else if PrimFloat.ltb a b then b
  else if PrimFloat.ltb b a then a
  else if PrimFloat.get_sign a then b else a.

(** An integer [z] compared with the float [x] (nothing for NaN). *)
Definition compareZ (z : Z) (x : float) : option comparison :=
  match Prim2SF x with
  | S754_nan => None
  | S754_infinity s => Some (if s then Gt else Lt)
  | S754_zero _ => Some (z ?= 0)%Z
  | S754_finite s m e =>
      let v := if s then Zneg m else Zpos m in
      Some (if (0 <=? e)%Z then (z ?= v * 2 ^ e)%Z
            else (z * 2 ^ (- e) ?= v)%Z)
  end.

(** [z > x] and [z <= x] for an integer-valued number [z]. *)
Definition gtb (z : Z) (x : float) : bool :=
  match compareZ z x with Some Gt => true | _ => false end.
Definition leb (z : Z) (x : float) : bool :=
  match compareZ z x with Some Lt | Some Eq => true | _ => false end.

(** The value of a float that holds an integer. *)
Definition int_value (x : float) : option Z :=
  match Prim2SF x with
  | S754_zero _ => Some 0%Z
  | S754_finite s m e =>
      let v := if s then Zneg m else Zpos m in
      if (0 <=? e)%Z then Some (v * 2 ^ e)%Z
      else if (Zpos m mod 2 ^ (- e) =? 0)%Z then Some (v / 2 ^ (- e))%Z
      else None
  | _ => None
  end.

End Num.

(** ** utils/bit-utils.ts *)

Section BitUtils.
Local Open Scope Z_scope.

(** One turn of the inner loop of [calculateChecksum]. *)
Definition crc_step (checksum : Z) : Z :=
  if JS.and checksum 0x8000 =? 0 then JS.shl checksum 1
  else JS.xor (JS.shl checksum 1) 0x1021.

(** The body of [for (const byte of data)]. *)
Definition crc_byte (checksum byte : Z) : Z :=
  Nat.iter 8 crc_step (JS.xor checksum (JS.shl byte 8)).

Definition calculateChecksum (data : list Z) : Z :=
  JS.and (fold_left crc_byte data 0xFFFF) 0xFFFF.

(** [for (let i = width - 1; i >= 0; i--) bits.push(((v >> i) & 1) === 1)] *)
Definition push_bits (width : nat) (v : Z) : list bool :=
  map (fun i => JS.and (JS.shr v (Z.of_nat i)) 1 =? 1) (rev (seq 0 width)).

(** [for (let i = 0; i < width; i++)
       if (bits[start + i]) acc |= (1 << (width - 1 - i))];
    an index past the end reads [undefined], which is falsy. *)
Definition read_bits (width start : nat) (bits : list bool) : Z :=
  fold_left
    (fun acc i =>
       if nth (start + i) bits false
       then JS.or acc (JS.shl 1 (Z.of_nat (width - 1 - i)))
       else acc)
    (seq 0 width) 0.

(** [encodeSecondaryMessage(message, maxBits)] *)
Definition encodeSecondaryMessage (message : jsstring) (maxBits : float)
  : result (list bool) :=
  let messageBytes := Utf8.encode message in
  let OVERHEAD_BITS := 32 in
  let totalBitsNeeded := OVERHEAD_BITS + Z.of_nat (length messageBytes) * 8 in
  if Num.gtb totalBitsNeeded maxBits then
    let maxMessageBytes :=
      Num.Math_floor
        (PrimFloat.div (PrimFloat.sub maxBits (Num.of_Z OVERHEAD_BITS))
                       (Num.of_Z 8)) in
    Err (PayloadTooLarge (length messageBytes) maxMessageBytes)
  else
    let length := Z.of_nat (length messageBytes) in
    Ok (push_bits 16 length
        ++ flat_map (push_bits 8) messageBytes
        ++ push_bits 16 (calculateChecksum messageBytes)).

(** [decodeSecondaryMessage(bits)].  The test
    [length > (bits.length - 32) / 8] divides exactly (by a power of two), so
    it is the integer test [8 * length > bits.length - 32]. *)
Definition decodeSecondaryMessage (bits : list bool) : result jsstring :=
  if (length bits <? 32)%nat then Err ShortFrame
  else
    let length := read_bits 16 0 bits in
    if 8 * length >? Z.of_nat (List.length bits) - 32 then Err (BadLength length)
    else if length =? 0 then Ok []
    else
      let messageBytes :=
        map (fun byteIdx => read_bits 8 (16 + byteIdx * 8) bits)
            (seq 0 (Z.to_nat length)) in
      let checksumStart := (16 + Z.to_nat length * 8)%nat in
      let checksum := read_bits 16 checksumStart bits in
      let expectedChecksum := calculateChecksum messageBytes in
      if checksum =? expectedChecksum then Ok (Utf8.decode messageBytes)
      else Err (ChecksumMismatch expectedChecksum checksum).

(** [textToBits(text)] *)
Definition textToBits (text : jsstring) : list bool :=
  flat_map (push_bits 8) (Utf8.encode text).

(** [bitsToText(bits)]; nothing stands for the one error it throws,
    'Bit array length must be multiple of 8'. *)
Definition bitsToText (bits : list bool) : option jsstring :=
  if negb (length bits mod 8 =? 0)%nat then None
  else
    let bytes :=
      map (fun i => read_bits 8 (i * 8) bits) (seq 0 (length bits / 8)) in
    Some (Utf8.decode bytes).

End BitUtils.

(** ** utils/prime-utils.ts *)

(** The loop [for (let i = 3; i <= Math.sqrt(n); i += 2)] of [isPrime]; on
    integers [i <= Math.sqrt(n)] is [i * i <= n].  The loop runs at most [n]
    times, which bounds the recursion. *)
Fixpoint isPrime_loop (fuel i n : nat) : bool :=
  match fuel with
  | O => true
  | S fuel' =>
      if i * i <=? n then
        if n mod i =? 0 then false else isPrime_loop fuel' (i + 2) n
      else true
  end.

Definition isPrime (n : nat) : bool :=
  if n <? 2 then false
  else if n =? 2 then true
  else if n mod 2 =? 0 then false
  else isPrime_loop n 3 n.

(** [for (let candidate = ...; candidate > 2; candidate--)] *)
Fixpoint findLargePrime_loop (candidate : nat) : nat :=
  match candidate with
  | O => 2
  | S candidate' =>
      if 2 <? candidate then
        if isPrime candidate then candidate else findLargePrime_loop candidate'
      else 2
  end.

Definition findLargePrime (max : nat) : nat := findLargePrime_loop (max - 1).

(** The loop of [generateDistributionPattern]: [n] turns are left and
    [current] is the running position. *)
Fixpoint distribution_loop (n step totalModules current : nat) : list nat :=
  match n with
  | O => []
  | S n' =>
      current mod totalModules
      :: distribution_loop n' step totalModules ((current + step) mod totalModules)
  end.

Definition generateDistributionPattern (bitsNeeded totalModules : nat)
  : result (list nat) :=
  if totalModules <? bitsNeeded then
    Err (CapacityExceeded bitsNeeded totalModules)
  else
    let step := findLargePrime totalModules in
    Ok (distribution_loop bitsNeeded step totalModules 0).

(** [validateDistribution]: [new Set(pattern).size === pattern.length]. *)
Definition validateDistribution (pattern : list nat) : bool :=
  length (nodup Nat.eq_dec pattern) =? length pattern.

(** ** core/types.ts *)

(** [enum ECLevel { L = 0, M = 1, Q = 2, H = 3 }] *)
Module EC.
Inductive Level : Type := L | M | Q | H.
End EC.
Definition ECLevel : Type := EC.Level.

Inductive ModuleType : Type :=
| FINDER_PATTERN | SEPARATOR | TIMING_PATTERN | ALIGNMENT_PATTERN
| FORMAT_INFO | VERSION_INFO | DATA_CODEWORD | EC_CODEWORD | REMAINDER.

Definition ModuleType_eqb (a b : ModuleType) : bool :=
  match a, b with
  | FINDER_PATTERN, FINDER_PATTERN | SEPARATOR, SEPARATOR
  | TIMING_PATTERN, TIMING_PATTERN | ALIGNMENT_PATTERN, ALIGNMENT_PATTERN
  | FORMAT_INFO, FORMAT_INFO | VERSION_INFO, VERSION_INFO
  | DATA_CODEWORD, DATA_CODEWORD | EC_CODEWORD, EC_CODEWORD
  | REMAINDER, REMAINDER => true
  | _, _ => false
  end.

Record QRModule : Type := {
  mx : nat;
  my : nat;
  value : bool;
  type : ModuleType;
  isFlippable : bool
}.

Record QRMatrix : Type := {
  size : nat;
  modules : list (list QRModule);
  version : nat;
  errorCorrectionLevel : ECLevel;
  maskPattern : nat;
  flippedModuleCount : option nat
}.

Record ModulePosition : Type := {
  px : nat;
  py : nat;
  index : nat
}.

(** [Map<number, boolean>]: entries in insertion order; [set] on a key that is
    present replaces its value in place. *)
Definition NumberMap : Type := list (nat * bool).

Fixpoint Map_set (m : NumberMap) (k : nat) (v : bool) : NumberMap :=
  match m with
  | [] => [(k, v)]
  | (k', v') :: m' => if k' =? k then (k, v) :: m' else (k', v') :: Map_set m' k v
  end.

Record FlipMap : Type := {
  positions : list ModulePosition;
  encoding : NumberMap
}.

Record StegoMetadata : Type := {
  meta_version : list Z;  (* the string "1.0" *)
  meta_flippedModuleCount : nat;
  meta_ecLevelUsed : ECLevel;
  meta_capacityUsed : float
}.

Record StegoPayload : Type := {
  primaryMessage : jsstring;
  secondaryMessage : jsstring;
  metadata : StegoMetadata
}.

Record EncodeOptions : Type := {
  ecLevel : option ECLevel;
  safetyMargin : option float;
  includeMetadata : option bool
}.

Definition no_options : EncodeOptions :=
  {| ecLevel := None; safetyMargin := None; includeMetadata := None |}.

(** ** The QR engine (nayuki-qr-code-generator), seen from the codec

    [QrCode.encodeText(text, ecc)] is an external collaborator.  The codec
    reads the fields below of the object it returns; [isFunction] stands for
    the truth value of [qr.isFunction && qr.isFunction[y] && qr.isFunction[y][x]]. *)

Module QrCode.

Inductive Ecc : Type := LOW | MEDIUM | QUARTILE | HIGH.

Record t : Type := {
  size : nat;
  version : nat;
  mask : nat;
  errorCorrectionLevel : Ecc;
  getModule : nat -> nat -> bool;   (* getModule(x, y) *)
  isFunction : nat -> nat -> bool   (* isFunction[y][x], as a truth value *)
}.

(** What the QR standard fixes about every symbol. *)
Definition well_formed (qr : t) : Prop :=
  1 <= version qr <= 40 /\ size qr = 17 + 4 * version qr.

End QrCode.

(** ** utils/qr-analyzer.ts *)

Definition ALIGNMENT_PATTERN_POSITIONS (version : nat) : option (list nat) :=
  match version with
  | 2 => Some [6; 18]
  | 3 => Some [6; 22]
  | 4 => Some [6; 26]
  | 5 => Some [6; 30]
  | 6 => Some [6; 34]
  | 7 => Some [6; 22; 38]
  | _ => None
  end.

Section Analyzer.
Local Open Scope Z_scope.
Local Coercion Z.of_nat : nat >-> Z.

Definition isInFinderPattern (x y size : nat) : bool :=
  let inTopLeft := (x <? 9) && (y <? 9) in
  let inTopRight := (x >=? size - 8) && (y <? 9) in
  let inBottomLeft := (x <? 9) && (y >=? size - 8) in
  inTopLeft || inTopRight || inBottomLeft.

Definition isInTimingPattern (x y : nat) : bool :=
  (x =? 6) || (y =? 6).

Definition isInAlignmentPattern (x y version : nat) : bool :=
  if version <? 2 then false
  else
    match ALIGNMENT_PATTERN_POSITIONS version with
    | None => false
    | Some positions =>
        existsb (fun centerX : nat =>
          existsb (fun centerY : nat =>
            if (centerX <? 9) && (centerY <? 9) then false
            else
              let dx := Z.abs (x - centerX) in
              let dy := Z.abs (y - centerY) in
              (dx <=? 2) && (dy <=? 2))
            positions)
          positions
    end.

Definition isInFormatInfo (x y size : nat) : bool :=
  if (y =? 8) && (x <=? 8) then true
  else if (x =? 8) && (y <=? 8) then true
  else if (y =? 8) && (x >=? size - 8) then true
  else if (x =? 8) && (y >=? size - 7) then true
  else false.

Definition isInVersionInfo (x y size version : nat) : bool :=
  if version <? 7 then false
  else if (x <=? 5) && (y >=? size - 11) && (y <=? size - 9) then true
  else if (y <=? 5) && (x >=? size - 11) && (x <=? size - 9) then true
  else false.

End Analyzer.

Definition isFunctionPattern (x y : nat) (qr : QRMatrix) : bool :=
  let size := size qr in
  let version := version qr in
  if isInFinderPattern x y size then true
  else if isInTimingPattern x y then true
  else if isInAlignmentPattern x y version then true
  else if isInFormatInfo x y size then true
  else if isInVersionInfo x y size version then true
  else false.

(** The body of the two nested loops of [identifyFlippableModules], for one
    cell.  [qr.modules[y][x]] throws a [TypeError] when row [y] is missing and
    reads [undefined] when only the module is; [module.type] is read after
    the function patterns are skipped, and throws on [undefined]. *)
Definition identify_cell (qr : QRMatrix) (y x : nat)
    (flippable : list ModulePosition) : result (list ModulePosition) :=
  match nth_error (modules qr) y with
  | None => Err TypeError
  | Some row =>
      let module := nth_error row x in
      if isFunctionPattern x y qr then Ok flippable
      else
        match module with
        | None => Err TypeError
        | Some module =>
            if ModuleType_eqb (type module) DATA_CODEWORD then
              Ok (flippable ++
                  [{| px := mx module; py := my module;
                      index := length flippable |}])
            else Ok flippable
        end
  end.

(** A [for] loop over [range] whose body may throw. *)
Fixpoint for_each {A S : Type} (range : list A) (body : A -> S -> result S)
    (s : S) : result S :=
  match range with
  | [] => Ok s
  | a :: range' => s' <- body a s ;; for_each range' body s'
  end.

Definition identifyFlippableModules (qr : QRMatrix)
  : result (list ModulePosition) :=
  for_each (seq 0 (size qr))
    (fun y flippable =>
       for_each (seq 0 (size qr)) (fun x => identify_cell qr y x) flippable)
    [].

(** 0.42 and 0.07 as JavaScript reads them: the nearest binary64 values. *)
Definition BIT_DENSITY : float := 0x1.ae147ae147ae1p-2%float.
Definition DEFAULT_SAFETY_MARGIN : float := 0x1.1eb851eb851ecp-4%float.

Definition calculateMaxCapacity (flippableModules : list ModulePosition)
    (ecLevel : ECLevel) (safetyMargin : float) : float :=
  let totalFlippableModules := Num.of_nat (length flippableModules) in
  let targetFlips :=
    Num.Math_floor (PrimFloat.mul totalFlippableModules safetyMargin) in
  let totalBitsCapacity :=
    Num.Math_floor (PrimFloat.div targetFlips BIT_DENSITY) in
  Num.Math_max PrimFloat.zero totalBitsCapacity.

Definition getECCapacity (ecLevel : ECLevel) : float :=
  match ecLevel with
  | EC.L => 0x1.1eb851eb851ecp-4%float   (* 0.07 *)
  | EC.M => 0x1.3333333333333p-3%float   (* 0.15 *)
  | EC.Q => 0x1p-2%float                 (* 0.25 *)
  | EC.H => 0x1.3333333333333p-2%float   (* 0.30 *)
  end.

(** ** core/QRStegoEncoder.ts and the decoder of core/QRStego.ts *)

(** [l[n] = f(l[n])] on an array element that exists. *)
Fixpoint update_nth {A : Type} (n : nat) (f : A -> A) (l : list A) : list A :=
  match l, n with
  | [], _ => []
  | a :: l', O => f a :: l'
  | a :: l', S n' => a :: update_nth n' f l'
  end.

Definition string_1_0 : jsstring := [49; 46; 48]%Z.   (* '1.0' *)

(** [Set<number>]: the elements in insertion order, each once. *)
Definition NumberSet : Type := list nat.
Definition Set_has (s : NumberSet) (k : nat) : bool := existsb (Nat.eqb k) s.
Definition Set_add (s : NumberSet) (k : nat) : NumberSet :=
  if Set_has s k then s else s ++ [k].

Section Codec.

(** The engine: the symbol for a text at an error-correction level, or
    nothing when the text does not fit any version. *)
Variable encodeText : jsstring -> QrCode.Ecc -> option QrCode.t.

(** [QrCode.encodeText(text, ecc)], which throws in the second case. *)
Definition QrCode_encodeText (text : jsstring) (ecc : QrCode.Ecc)
  : result QrCode.t :=
  match encodeText text ecc with
  | Some qr => Ok qr
  | None => Err EngineError
  end.

(** [mapping[ecLevel] || QrCode.Ecc.HIGH] *)
Definition mapECLevel (ecLevel : ECLevel) : QrCode.Ecc :=
  match ecLevel with
  | EC.L => QrCode.LOW
  | EC.M => QrCode.MEDIUM
  | EC.Q => QrCode.QUARTILE
  | EC.H => QrCode.HIGH
  end.

Definition unmapECLevel (ecc : QrCode.Ecc) : ECLevel :=
  match ecc with
  | QrCode.LOW => EC.L
  | QrCode.MEDIUM => EC.M
  | QrCode.QUARTILE => EC.Q
  | QrCode.HIGH => EC.H
  end.

(** The object literal [{ size, version: qr.version, modules: [],
    errorCorrectionLevel: 3, maskPattern: qr.mask }]. *)
Definition shape_of (qr : QrCode.t) : QRMatrix :=
  {| size := QrCode.size qr; modules := []; version := QrCode.version qr;
     errorCorrectionLevel := EC.H; maskPattern := QrCode.mask qr;
     flippedModuleCount := None |}.

Definition determineModuleType (x y : nat) (qr : QrCode.t) : ModuleType :=
  if QrCode.isFunction qr x y && isFunctionPattern x y (shape_of qr)
  then FINDER_PATTERN
  else DATA_CODEWORD.

Definition convertToQRMatrix (qr : QrCode.t) : QRMatrix :=
  let size := QrCode.size qr in
  {| size := size;
     modules :=
       map (fun y =>
              map (fun x =>
                     let value := QrCode.getModule qr x y in
                     let type := determineModuleType x y qr in
                     {| mx := x; my := y; value := value; type := type;
                        isFlippable := ModuleType_eqb type DATA_CODEWORD |})
                  (seq 0 size))
           (seq 0 size);
     version := QrCode.version qr;
     errorCorrectionLevel := unmapECLevel (QrCode.errorCorrectionLevel qr);
     maskPattern := QrCode.mask qr;
     flippedModuleCount := None |}.

Definition createFlipMap (secondaryBits : list bool)
    (flippableModules : list ModulePosition) : result FlipMap :=
  indices <- generateDistributionPattern (length secondaryBits)
                                         (length flippableModules) ;;
  Ok {| positions := flippableModules;
        encoding :=
          fold_left (fun encoding entry => Map_set encoding (fst entry) (snd entry))
                    (combine indices secondaryBits) [] |}.

(** The local variables of [applyFlips]. *)
Record FlipState : Type := {
  fs_modules : list (list QRModule);
  fs_flippedCount : nat;
  fs_skippedFunctionPatterns : nat;
  fs_flipPositions : list (nat * nat)
}.

Definition flip_value (module : QRModule) : QRModule :=
  {| mx := mx module; my := my module; value := negb (value module);
     type := type module; isFlippable := isFlippable module |}.

(** The body of [for (const [moduleIndex, shouldFlip] of flipMap.encoding)];
    [flipMap.positions[moduleIndex]], [stegoQR.modules[position.y]] and the
    module itself are read in this order, and a property read on a missing one
    throws. *)
Definition apply_flip (qr : QRMatrix) (flipMap : FlipMap) (entry : nat * bool)
    (st : FlipState) : result FlipState :=
  let (moduleIndex, shouldFlip) := entry in
  if negb shouldFlip then Ok st
  else
    match nth_error (positions flipMap) moduleIndex with
    | None => Err TypeError
    | Some position =>
        match nth_error (fs_modules st) (py position) with
        | None => Err TypeError
        | Some row =>
        if isFunctionPattern (px position) (py position) qr then
          Ok {| fs_modules := fs_modules st;
                fs_flippedCount := fs_flippedCount st;
                fs_skippedFunctionPatterns := fs_skippedFunctionPatterns st + 1;
                fs_flipPositions := fs_flipPositions st |}
        else
          match nth_error row (px position) with
          | None => Err TypeError
          | Some module =>
          Ok {| fs_modules :=
                  update_nth (py position) (update_nth (px position) flip_value)
                             (fs_modules st);
                fs_flippedCount := fs_flippedCount st + 1;
                fs_skippedFunctionPatterns := fs_skippedFunctionPatterns st;
                fs_flipPositions :=
                  fs_flipPositions st ++ [(px position, py position)] |}
          end
        end
    end.

Definition applyFlips (qr : QRMatrix) (flipMap : FlipMap) : result QRMatrix :=
  st <- for_each (encoding flipMap) (apply_flip qr flipMap)
          {| fs_modules := modules qr; fs_flippedCount := 0;
             fs_skippedFunctionPatterns := 0; fs_flipPositions := [] |} ;;
  Ok {| size := size qr; modules := fs_modules st; version := version qr;
        errorCorrectionLevel := errorCorrectionLevel qr;
        maskPattern := maskPattern qr;
        flippedModuleCount := Some (fs_flippedCount st) |}.

Definition encode (primary secondary : jsstring) (options : EncodeOptions)
  : result QRMatrix :=
  let ecLevel := match ecLevel options with Some e => e | None => EC.H end in
  let safetyMargin :=
    match safetyMargin options with
    | Some m => m
    | None => DEFAULT_SAFETY_MARGIN
    end in
  let nayukiEcc := mapECLevel ecLevel in
  baseQR <- QrCode_encodeText primary nayukiEcc ;;
  let qrMatrix := convertToQRMatrix baseQR in
  flippableModules <- identifyFlippableModules qrMatrix ;;
  if length flippableModules =? 0 then Err MatrixTooSmall
  else
    let maxBits := calculateMaxCapacity flippableModules ecLevel safetyMargin in
    if PrimFloat.leb maxBits PrimFloat.zero then Err InsufficientCapacity
    else
      secondaryBits <-
        (if 0 <? length secondary then encodeSecondaryMessage secondary maxBits
         else Ok []) ;;
      flipMap <- createFlipMap secondaryBits flippableModules ;;
      applyFlips qrMatrix flipMap.

Definition getCapacity (primary : jsstring) (safetyMargin : option float)
  : result float :=
  let safetyMargin :=
    match safetyMargin with Some m => m | None => DEFAULT_SAFETY_MARGIN end in
  baseQR <- QrCode_encodeText primary QrCode.HIGH ;;
  let qrMatrix := convertToQRMatrix baseQR in
  flippableModules <- identifyFlippableModules qrMatrix ;;
  let totalBits := calculateMaxCapacity flippableModules EC.H safetyMargin in
  let OVERHEAD_BITS := Num.of_Z 32 in
  let messageBits := PrimFloat.sub totalBits OVERHEAD_BITS in
  Ok (Num.Math_max PrimFloat.zero
        (Num.Math_floor (PrimFloat.div messageBits (Num.of_Z 8)))).

Definition validateCapacity (primary secondary : jsstring)
    (safetyMargin : option float) : result bool :=
  maxBytes <- getCapacity primary safetyMargin ;;
  let secondaryBytes := Utf8.encode secondary in
  Ok (Num.leb (Z.of_nat (length secondaryBytes)) maxBytes).

(** [Renderer.getModules] *)
Definition getModules (matrix : QRMatrix) : list (list bool) :=
  map (fun row => map (fun module => value module) row) (modules matrix).

(** [QRStego.encode]: the matrix and its metadata ([timestamp], the reading of
    the clock, is left out). *)
Definition QRStego_encode (primary secondary : jsstring)
    (options : EncodeOptions) : result (QRMatrix * StegoMetadata) :=
  matrix <- encode primary secondary options ;;
  let flippedCount :=
    match flippedModuleCount matrix with Some n => n | None => 0 end in
  let totalModules := size matrix * size matrix in
  let capacityUsed :=
    PrimFloat.mul (PrimFloat.div (Num.of_nat flippedCount) (Num.of_nat totalModules))
                  (Num.of_Z 100) in
  Ok (matrix,
      {| meta_version := string_1_0;
         meta_flippedModuleCount := flippedCount;
         meta_ecLevelUsed := errorCorrectionLevel matrix;
         meta_capacityUsed := capacityUsed |}).

(** *** Decoder *)

Definition qrToModuleMatrix (qr : QrCode.t) : list (list bool) :=
  map (fun y => map (fun x => QrCode.getModule qr x y) (seq 0 (QrCode.size qr)))
      (seq 0 (QrCode.size qr)).

(** [matrix[y][x]]: a missing row throws, a missing cell reads [undefined]. *)
Definition cell_at (matrix : list (list bool)) (x y : nat)
  : result (option bool) :=
  match nth_error matrix y with
  | None => Err TypeError
  | Some row => Ok (nth_error row x)
  end.

Definition option_bool_eqb (a b : option bool) : bool :=
  match a, b with
  | Some u, Some v => Bool.eqb u v
  | None, None => true
  | _, _ => false
  end.

Definition compareMatrices (scanned reference : list (list bool))
    (flippableModules : list ModulePosition) : result NumberSet :=
  if negb (length scanned =? length reference) then Err SizeMismatch
  else
    for_each (seq 0 (length flippableModules))
      (fun i flippedIndices =>
         match nth_error flippableModules i with
         | None => Err TypeError
         | Some pos =>
             scannedValue <- cell_at scanned (px pos) (py pos) ;;
             referenceValue <- cell_at reference (px pos) (py pos) ;;
             if negb (option_bool_eqb scannedValue referenceValue)
             then Ok (Set_add flippedIndices i)
             else Ok flippedIndices
         end)
      [].

(** The two stepping loops of [extractBitsFromFlips]. *)
Fixpoint extract_loop (n step totalModules current : nat)
    (flipPositions : NumberSet) : list bool :=
  match n with
  | O => []
  | S n' =>
      let moduleIndex := current mod totalModules in
      Set_has flipPositions moduleIndex
      :: extract_loop n' step totalModules ((current + step) mod totalModules)
           flipPositions
  end.

Definition extractBitsFromFlips (flipPositions : NumberSet)
    (flippableModules : list ModulePosition) : list bool :=
  let totalModules := length flippableModules in
  let step := findLargePrime totalModules in
  let lengthBits := extract_loop 16 step totalModules 0 flipPositions in
  let messageLength := read_bits 16 0 lengthBits in
  let totalBits := 16 + Z.to_nat messageLength * 8 + 16 in
  extract_loop totalBits step totalModules 0 flipPositions.

Definition convertToFullQRMatrix (qr : QrCode.t) : QRMatrix :=
  let size := QrCode.size qr in
  {| size := size;
     modules :=
       map (fun y =>
              map (fun x =>
                     let value := QrCode.getModule qr x y in
                     let isFunctionMod := isFunctionPattern x y (shape_of qr) in
                     {| mx := x; my := y; value := value;
                        type := if isFunctionMod then FINDER_PATTERN
                                else DATA_CODEWORD;
                        isFlippable := negb isFunctionMod |})
                  (seq 0 size))
           (seq 0 size);
     version := QrCode.version qr;
     errorCorrectionLevel := EC.H;
     maskPattern := QrCode.mask qr;
     flippedModuleCount := None |}.

Definition decodeFromMatrix (scannedMatrix : list (list bool))
    (primaryMessage : jsstring) : result StegoPayload :=
  referenceQR <- QrCode_encodeText primaryMessage QrCode.HIGH ;;
  let referenceMatrix := qrToModuleMatrix referenceQR in
  let qrMatrixStruct := convertToFullQRMatrix referenceQR in
  flippableModules <- identifyFlippableModules qrMatrixStruct ;;
  flipPositions <- compareMatrices scannedMatrix referenceMatrix flippableModules ;;
  if length flipPositions =? 0 then
    Ok {| primaryMessage := primaryMessage;
          secondaryMessage := [];
          metadata :=
            {| meta_version := string_1_0; meta_flippedModuleCount := 0;
               meta_ecLevelUsed := EC.H; meta_capacityUsed := PrimFloat.zero |} |}
  else
    let secondaryBits := extractBitsFromFlips flipPositions flippableModules in
    secondaryMessage <- decodeSecondaryMessage secondaryBits ;;
    Ok {| primaryMessage := primaryMessage;
          secondaryMessage := secondaryMessage;
          metadata :=
            {| meta_version := string_1_0;
               meta_flippedModuleCount := length flipPositions;
               meta_ecLevelUsed := EC.H;
               meta_capacityUsed :=
                 PrimFloat.mul
                   (PrimFloat.div (Num.of_nat (length flipPositions))
                                  (Num.of_nat (length flippableModules)))
                   (Num.of_Z 100) |} |}.

End Codec.
(** * Properties *)

Unset Implicit Arguments.

(** ** Generic facts *)

(** A bounded search: [P] holds on the [fuel] integers from [z] on. *)
Fixpoint all_upto (fuel : nat) (z : Z) (P : Z -> bool) : bool :=
  match fuel with
  | O => true
  | S fuel' => P z && all_upto fuel' (z + 1) P
  end.

Lemma all_upto_spec (P : Z -> bool) (fuel : nat) (z : Z) :
  all_upto fuel z P = true ->
  forall k, (z <= k < z + Z.of_nat fuel)%Z -> P k = true.
Proof.
  revert z; induction fuel as [|fuel IH]; intros z Hall k Hk; [lia|].
  cbn [all_upto] in Hall. apply andb_prop in Hall as [Hz Hrest].
  destruct (Z.eq_dec k z) as [->|Hne]; [exact Hz|].
  apply (IH (z + 1)%Z Hrest). lia.
Qed.

Lemma for_each_app {A S : Type} (r1 r2 : list A) (body : A -> S -> result S) s :
  for_each (r1 ++ r2) body s = (s' <- for_each r1 body s ;; for_each r2 body s').
Proof.
  revert s; induction r1 as [|a r1 IH]; intros s; cbn; [reflexivity|].
  destruct (body a s); cbn; auto.
Qed.

(** A loop whose body never throws is a fold. *)
Lemma for_each_Ok {A S : Type} (range : list A) (body : A -> S -> result S)
    (step : A -> S -> S) (s : S) :
  (forall a s, In a range -> body a s = Ok (step a s)) ->
  for_each range body s = Ok (fold_left (fun s a => step a s) range s).
Proof.
  revert s; induction range as [|a range IH]; intros s Hbody; cbn; [reflexivity|].
  rewrite Hbody by (left; reflexivity). cbn. apply IH.
  intros; apply Hbody; right; assumption.
Qed.

(** ** Numbers *)

Lemma Num_leb_gtb z x : Num.leb z x = true -> Num.gtb z x = false.
Proof.
  unfold Num.leb, Num.gtb. destruct (Num.compareZ z x) as [[]|]; congruence.
Qed.

(** Comparisons with a float that holds the integer [v]. *)
Lemma Num_compareZ_int z x v :
  Num.int_value x = Some v -> Num.compareZ z x = Some (z ?= v)%Z.
Proof.
  unfold Num.int_value, Num.compareZ.
  destruct (Prim2SF x) as [s| | |s m e]; try discriminate.
  - intros [= <-]; reflexivity.
  - destruct (0 <=? e)%Z eqn:He.
    + intros [= <-]; reflexivity.
    + destruct (Z.pos m mod 2 ^ (- e) =? 0)%Z eqn:Hr; [|discriminate].
      intros [= <-]. f_equal.
      apply Z.leb_gt in He. apply Z.eqb_eq in Hr.
      assert (Hp : (0 < 2 ^ (- e))%Z) by (apply Z.pow_pos_nonneg; lia).
      set (d := (2 ^ (- e))%Z) in *.
      assert (Hv : ((if s then Z.neg m else Z.pos m)
                    = d * ((if s then Z.neg m else Z.pos m) / d))%Z).
      { assert (Hm : Z.pos m = (d * (Z.pos m / d))%Z)
          by (apply Z.div_exact; [lia | exact Hr]).
        destruct s; [|exact Hm].
        change (Z.neg m) with (- Z.pos m)%Z.
        rewrite Z.div_opp_l_z by (try exact Hr; lia). lia. }
      rewrite Hv at 1. rewrite (Z.mul_comm d).
      symmetry. apply Zmult_compare_compat_r. lia.
Qed.

Lemma Num_gtb_int z x v :
  Num.int_value x = Some v -> Num.gtb z x = (z >? v)%Z.
Proof.
  intros H. unfold Num.gtb. rewrite (Num_compareZ_int z x v H).
  unfold Z.gtb. destruct (z ?= v)%Z; reflexivity.
Qed.

Lemma Num_leb_int z x v :
  Num.int_value x = Some v -> Num.leb z x = (z <=? v)%Z.
Proof.
  intros H. unfold Num.leb. rewrite (Num_compareZ_int z x v H).
  unfold Z.leb. destruct (z ?= v)%Z; reflexivity.
Qed.

Lemma fold_left_cons {A B : Type} (f : A -> B -> A) (b : B) (l : list B) (a : A) :
  fold_left f (b :: l) a = fold_left f l (f a b).
Proof. reflexivity. Qed.

(** A relation between two accumulators that every step keeps is kept by the
    whole fold. *)
Lemma fold_left_related {A B : Type} (f : A -> B -> A) (R : A -> A -> Prop) :
  (forall a a' b, R a a' -> R (f a b) (f a' b)) ->
  forall l a a', R a a' -> R (fold_left f l a) (fold_left f l a').
Proof.
  intros Hstep l. induction l as [|b l IH]; intros a a' HR; cbn [fold_left].
  - exact HR.
  - apply IH, Hstep, HR.
Qed.

(** ** 32-bit operators on small non-negative numbers *)

Section Int32Facts.
Local Open Scope Z_scope.

Lemma ToInt32_eq z : JS.ToInt32 z = (z + 2 ^ 31) mod 2 ^ 32 - 2 ^ 31.
Proof. reflexivity. Qed.

Lemma ToInt32_small z : - 2 ^ 31 <= z < 2 ^ 31 -> JS.ToInt32 z = z.
Proof.
  intros Hz. rewrite ToInt32_eq. rewrite Z.mod_small; lia.
Qed.

Lemma ToInt32_range z : - 2 ^ 31 <= JS.ToInt32 z < 2 ^ 31.
Proof.
  rewrite ToInt32_eq.
  pose proof (Z.mod_pos_bound (z + 2 ^ 31) (2 ^ 32) ltac:(lia)). lia.
Qed.

(** [ToInt32] keeps the residue modulo every power of two up to 2^32. *)
Lemma ToInt32_mod z n : 0 <= n <= 32 -> JS.ToInt32 z mod 2 ^ n = z mod 2 ^ n.
Proof.
  intros Hn. rewrite ToInt32_eq.
  assert (H32 : 2 ^ 32 = 2 ^ (32 - n) * 2 ^ n)
    by (rewrite <- Z.pow_add_r by lia; f_equal; lia).
  assert (Hpos : 0 < 2 ^ n) by (apply Z.pow_pos_nonneg; lia).
  pose proof (Z.div_mod (z + 2 ^ 31) (2 ^ 32) ltac:(lia)) as Hdm.
  set (q := (z + 2 ^ 31) / 2 ^ 32) in *. set (r := (z + 2 ^ 31) mod 2 ^ 32) in *.
  replace (r - 2 ^ 31) with (z + (- q * 2 ^ (32 - n)) * 2 ^ n).
  - apply Z.mod_add. lia.
  - rewrite H32 in Hdm at 1. set (P := 2 ^ n) in *. set (R := 2 ^ (32 - n)) in *.
    nia.
Qed.

Lemma testbit_ToInt32 z k : 0 <= k < 32 -> Z.testbit (JS.ToInt32 z) k = Z.testbit z k.
Proof.
  intros Hk.
  rewrite <- (Z.mod_pow2_bits_low (JS.ToInt32 z) 32 k) by lia.
  rewrite <- (Z.mod_pow2_bits_low z 32 k) by lia.
  rewrite ToInt32_mod by lia. reflexivity.
Qed.

Lemma lor_bound a b n : 0 <= n -> 0 <= a < 2 ^ n -> 0 <= b < 2 ^ n -> 0 <= Z.lor a b < 2 ^ n.
Proof.
  intros Hn Ha Hb. split; [apply Z.lor_nonneg; lia|].
  destruct (Z.eq_dec (Z.lor a b) 0) as [->|Hne]; [lia|].
  assert (0 < n).
  { destruct (Z.eq_dec n 0) as [->|]; [|lia].
    change (2 ^ 0) with 1 in *. assert (a = 0) as -> by lia.
    assert (b = 0) as -> by lia. contradiction Hne. reflexivity. }
  apply Z.log2_lt_pow2; [pose proof (proj2 (Z.lor_nonneg a b)); lia|].
  rewrite Z.log2_lor by lia.
  apply Z.max_lub_lt.
  - destruct (Z.eq_dec a 0) as [->|]; [cbn; lia|apply Z.log2_lt_pow2; lia].
  - destruct (Z.eq_dec b 0) as [->|]; [cbn; lia|apply Z.log2_lt_pow2; lia].
Qed.

Lemma land_1 t : Z.land t 1 = if Z.testbit t 0 then 1 else 0.
Proof.
  change 1 with (Z.ones 1) at 1. rewrite Z.land_ones by lia.
  change (2 ^ 1) with 2. rewrite <- Z.bit0_mod.
  destruct (Z.testbit t 0); reflexivity.
Qed.

(** A non-negative number whose bits from [n] on are all zero is below 2^n. *)
Lemma bits_below z n :
  0 <= n -> 0 <= z -> (forall k, n <= k -> Z.testbit z k = false) -> z < 2 ^ n.
Proof.
  intros Hn Hz Hbits.
  assert (z = z mod 2 ^ n) as ->.
  { apply Z.bits_inj'. intros k Hk.
    destruct (Z_lt_le_dec k n).
    - rewrite Z.mod_pow2_bits_low by lia. reflexivity.
    - rewrite Z.mod_pow2_bits_high by lia. apply Hbits; lia. }
  apply Z.mod_pos_bound. apply Z.pow_pos_nonneg; lia.
Qed.

End Int32Facts.

(** ** Writing and reading big-endian bit fields *)

Section BitFields.
Local Open Scope Z_scope.

Lemma push_bits_length w v : length (push_bits w v) = w.
Proof.
  unfold push_bits. rewrite length_map, length_rev, length_seq. reflexivity.
Qed.

(** Bit [k] of the field is binary digit [w - 1 - k] of the value. *)
Lemma push_bits_nth w v k :
  (w <= 32)%nat -> (k < w)%nat -> - 2 ^ 31 <= v < 2 ^ 31 ->
  nth k (push_bits w v) false = Z.testbit v (Z.of_nat (w - 1 - k)).
Proof.
  intros Hw Hk Hv. unfold push_bits.
  set (f := fun i => JS.and (JS.shr v (Z.of_nat i)) 1 =? 1).
  rewrite nth_indep with (d' := f O)
    by (rewrite length_map, length_rev, length_seq; exact Hk).
  rewrite map_nth. unfold f.
  rewrite rev_nth by (rewrite length_seq; exact Hk).
  rewrite length_seq, seq_nth by lia.
  replace (0 + (w - S k))%nat with (w - 1 - k)%nat by lia.
  set (i := Z.of_nat (w - 1 - k)).
  assert (Hi : 0 <= i < 32) by (unfold i; lia).
  unfold JS.and, JS.shr.
  rewrite (ToInt32_small v) by exact Hv.
  rewrite Z.mod_small by lia.
  rewrite (ToInt32_small 1) by lia.
  rewrite ToInt32_small.
  - rewrite land_1, Z.shiftr_spec, Z.add_0_l by lia.
    destruct (Z.testbit v i); reflexivity.
  - rewrite Z.shiftr_div_pow2 by lia.
    assert (0 < 2 ^ i) by (apply Z.pow_pos_nonneg; lia).
    split.
    + apply Z.div_le_lower_bound; nia.
    + apply Z.div_lt_upper_bound; nia.
Qed.

(** The loop of [read_bits], started anywhere. *)
Lemma read_fold_spec (w start : nat) (bits : list bool) :
  (w <= 31)%nat ->
  forall (n a : nat) (acc : Z),
    (a + n <= w)%nat -> 0 <= acc < 2 ^ 31 ->
    let r :=
      fold_left
        (fun acc i =>
           if nth (start + i) bits false
           then JS.or acc (JS.shl 1 (Z.of_nat (w - 1 - i)))
           else acc)
        (seq a n) acc in
    0 <= r < 2 ^ 31 /\
    forall k : nat,
      Z.testbit r (Z.of_nat k) =
      Z.testbit acc (Z.of_nat k)
      || ((w - a - n <=? k)%nat && (k <? w - a)%nat
          && nth (start + (w - 1 - k)) bits false).
Proof.
  intros Hw n. induction n as [|n IH]; intros a acc Han Hacc; cbn [seq fold_left].
  - split; [exact Hacc|]. intros k.
    replace ((w - a - 0 <=? k)%nat && (k <? w - a)%nat) with false;
      [rewrite orb_false_r; reflexivity|].
    symmetry. apply andb_false_iff.
    destruct (Nat.ltb_spec k (w - a)); [left; apply Nat.leb_gt; lia|right; reflexivity].
  - set (j := Z.of_nat (w - 1 - a)).
    assert (Hj : 0 <= j < 31) by (unfold j; lia).
    assert (Hshl : JS.shl 1 j = 2 ^ j).
    { unfold JS.shl. rewrite (ToInt32_small 1), Z.mod_small by lia.
      rewrite Z.shiftl_1_l. apply ToInt32_small.
      assert (2 ^ j < 2 ^ 31) by (apply Z.pow_lt_mono_r; lia).
      assert (0 < 2 ^ j) by (apply Z.pow_pos_nonneg; lia). lia. }
    assert (Hp : 0 <= 2 ^ j < 2 ^ 31).
    { split; [apply Z.pow_nonneg; lia|apply Z.pow_lt_mono_r; lia]. }
    set (acc' := if nth (start + a) bits false then JS.or acc (JS.shl 1 j) else acc).
    assert (Hacc' : 0 <= acc' < 2 ^ 31 /\
                    forall k : nat, Z.testbit acc' (Z.of_nat k) =
                      Z.testbit acc (Z.of_nat k)
                      || ((k =? w - 1 - a)%nat && nth (start + a) bits false)).
    { unfold acc'. destruct (nth (start + a) bits false).
      - rewrite Hshl. unfold JS.or. rewrite !ToInt32_small by lia.
        split; [apply lor_bound; lia|].
        intros k. rewrite Z.lor_spec, Z.pow2_bits_eqb by lia.
        rewrite andb_true_r. f_equal. unfold j.
        destruct (Nat.eqb_spec k (w - 1 - a)) as [->|Hne].
        + apply Z.eqb_refl.
        + apply Z.eqb_neq. lia.
      - split; [exact Hacc|]. intros k. rewrite andb_false_r, orb_false_r. reflexivity. }
    destruct Hacc' as [Hr' Hb'].
    destruct (IH (S a) acc' ltac:(lia) Hr') as [Hr Hb].
    split; [exact Hr|].
    intros k. rewrite Hb, Hb', <- orb_assoc. f_equal.
    destruct (Nat.eqb_spec k (w - 1 - a)) as [->|Hne].
    + replace (w - 1 - (w - 1 - a))%nat with a by lia.
      replace ((w - a - S n <=? w - 1 - a)%nat) with true
        by (symmetry; apply Nat.leb_le; lia).
      replace ((w - 1 - a <? w - a)%nat) with true
        by (symmetry; apply Nat.ltb_lt; lia).
      replace ((w - 1 - a <? w - S a)%nat) with false
        by (symmetry; apply Nat.ltb_ge; lia).
      cbn. rewrite andb_false_r, orb_false_r. reflexivity.
    + cbn [andb orb].
      destruct (Nat.leb_spec (w - S a - n) k), (Nat.leb_spec (w - a - S n) k);
        try lia; cbn [andb]; try reflexivity.
      destruct (Nat.ltb_spec k (w - S a)), (Nat.ltb_spec k (w - a));
        try lia; reflexivity.
Qed.

Lemma read_bits_range w start bits :
  (w <= 31)%nat -> 0 <= read_bits w start bits < 2 ^ 31.
Proof.
  intros Hw. unfold read_bits.
  apply (read_fold_spec w start bits Hw w 0%nat 0); lia.
Qed.

Lemma read_bits_testbit w start bits (k : nat) :
  (w <= 31)%nat ->
  Z.testbit (read_bits w start bits) (Z.of_nat k) =
  (k <? w)%nat && nth (start + (w - 1 - k)) bits false.
Proof.
  intros Hw. unfold read_bits.
  destruct (read_fold_spec w start bits Hw w 0%nat 0 ltac:(lia) ltac:(lia)) as [_ Hb].
  rewrite Hb, Z.testbit_0_l, orb_false_l.
  replace (w - 0 - w)%nat with O by lia. rewrite Nat.sub_0_r. reflexivity.
Qed.

Lemma read_bits_bound w start bits :
  (w <= 31)%nat -> 0 <= read_bits w start bits < 2 ^ Z.of_nat w.
Proof.
  intros Hw. pose proof (read_bits_range w start bits Hw) as Hr.
  split; [lia|]. apply bits_below; [lia | lia |].
  intros k Hk. rewrite <- (Z2Nat.id k) by lia.
  rewrite read_bits_testbit by exact Hw.
  replace (Z.to_nat k <? w)%nat with false; [reflexivity|].
  symmetry. apply Nat.ltb_ge. lia.
Qed.

(** Two bit vectors that agree on a field give the same value. *)
Lemma read_bits_ext w start bits bits' :
  (w <= 31)%nat ->
  (forall i, (i < w)%nat -> nth (start + i) bits false = nth (start + i) bits' false) ->
  read_bits w start bits = read_bits w start bits'.
Proof.
  intros Hw Hext. apply Z.bits_inj'. intros k Hk.
  rewrite <- (Z2Nat.id k) by lia. rewrite !read_bits_testbit by exact Hw.
  destruct (Nat.ltb_spec (Z.to_nat k) w); [|reflexivity].
  cbn. apply Hext. lia.
Qed.

(** Reading back a field that was written. *)
Lemma read_push_bits w v pre post :
  (w <= 31)%nat -> 0 <= v < 2 ^ Z.of_nat w ->
  read_bits w (length pre) (pre ++ push_bits w v ++ post) = v.
Proof.
  intros Hw Hv.
  assert (Hv31 : 2 ^ Z.of_nat w <= 2 ^ 31) by (apply Z.pow_le_mono_r; lia).
  apply Z.bits_inj'. intros k Hk.
  rewrite <- (Z2Nat.id k) by lia. set (kn := Z.to_nat k).
  rewrite read_bits_testbit by exact Hw.
  destruct (Nat.ltb_spec kn w) as [Hlt|Hge]; cbn [andb].
  - rewrite app_nth2 by lia.
    replace (length pre + (w - 1 - kn) - length pre)%nat with (w - 1 - kn)%nat by lia.
    rewrite app_nth1 by (rewrite push_bits_length; lia).
    rewrite push_bits_nth by lia.
    f_equal. lia.
  - symmetry. destruct (Z.eq_dec v 0) as [->|Hne]; [apply Z.testbit_0_l|].
    apply Z.bits_above_log2; [lia|].
    apply Z.lt_le_trans with (Z.of_nat w); [apply Z.log2_lt_pow2; lia|lia].
Qed.

End BitFields.

(** ** The checksum depends on the low 16 bits of its register only *)

Section Crc.
Local Open Scope Z_scope.

Definition low16 (z : Z) : Z := z mod 2 ^ 16.

(** The register update on 16-bit values. *)
Definition step16 (s : Z) : Z :=
  if Z.testbit s 15 then Z.lxor ((2 * s) mod 2 ^ 16) 0x1021
  else (2 * s) mod 2 ^ 16.

(** [step16] can be undone: the feedback term is the only source of an odd
    value. *)
Definition unstep16 (t : Z) : Z :=
  if Z.odd t then Z.lxor t 0x1021 / 2 + 2 ^ 15 else t / 2.

Lemma low16_range z : 0 <= low16 z < 2 ^ 16.
Proof. apply Z.mod_pos_bound. reflexivity. Qed.

Lemma low16_ToInt32 z : low16 (JS.ToInt32 z) = low16 z.
Proof. apply ToInt32_mod. lia. Qed.

Lemma low16_lxor a b : low16 (Z.lxor a b) = Z.lxor (low16 a) (low16 b).
Proof.
  unfold low16. rewrite <- !Z.land_ones by lia.
  apply Z.bits_inj'. intros k Hk.
  rewrite !Z.land_spec, !Z.lxor_spec, !Z.land_spec.
  destruct (Z.testbit (Z.ones 16) k); rewrite ?andb_true_r, ?andb_false_r; reflexivity.
Qed.

Lemma low16_xor a b : low16 (JS.xor a b) = Z.lxor (low16 a) (low16 b).
Proof. unfold JS.xor. rewrite low16_lxor, !low16_ToInt32. reflexivity. Qed.

Lemma low16_shl1 a : low16 (JS.shl a 1) = (2 * low16 a) mod 2 ^ 16.
Proof.
  unfold JS.shl. rewrite low16_ToInt32.
  change (1 mod 32) with 1. rewrite Z.shiftl_mul_pow2 by lia.
  change (2 ^ 1) with 2. unfold low16.
  rewrite <- Z.mul_mod_idemp_l by lia.
  rewrite ToInt32_mod by lia. f_equal. ring.
Qed.

Lemma and_8000 c : (JS.and c 0x8000 =? 0) = negb (Z.testbit (low16 c) 15).
Proof.
  unfold JS.and. rewrite (ToInt32_small 0x8000) by lia.
  unfold low16. rewrite Z.mod_pow2_bits_low by lia.
  rewrite <- (testbit_ToInt32 c 15) by lia.
  set (x := JS.ToInt32 c).
  assert (H : Z.land x 0x8000 = if Z.testbit x 15 then 2 ^ 15 else 0).
  { apply Z.bits_inj'. intros k Hk. rewrite Z.land_spec.
    change 0x8000 with (2 ^ 15). rewrite Z.pow2_bits_eqb by lia.
    destruct (Z.eqb_spec 15 k) as [<-|Hne].
    - rewrite andb_true_r. destruct (Z.testbit x 15);
        [rewrite Z.pow2_bits_true by lia; reflexivity|rewrite Z.testbit_0_l; reflexivity].
    - rewrite andb_false_r. destruct (Z.testbit x 15);
        [rewrite Z.pow2_bits_false by lia; reflexivity|rewrite Z.testbit_0_l; reflexivity]. }
  rewrite H. destruct (Z.testbit x 15); reflexivity.
Qed.

Lemma low16_crc_step c : low16 (crc_step c) = step16 (low16 c).
Proof.
  unfold crc_step, step16. rewrite and_8000.
  destruct (Z.testbit (low16 c) 15); cbn [negb].
  - rewrite low16_xor, low16_shl1. reflexivity.
  - apply low16_shl1.
Qed.

Lemma low16_iter_crc_step n c :
  low16 (Nat.iter n crc_step c) = Nat.iter n step16 (low16 c).
Proof.
  induction n as [|n IH]; [reflexivity|].
  rewrite !Nat.iter_succ, low16_crc_step, IH. reflexivity.
Qed.

Lemma step16_table :
  all_upto (Z.to_nat 65536) 0
    (fun s => (unstep16 (step16 s) =? s) && (0 <=? step16 s) && (step16 s <? 2 ^ 16))
  = true.
Proof. vm_compute. reflexivity. Qed.

Lemma step16_range s : 0 <= s < 2 ^ 16 -> 0 <= step16 s < 2 ^ 16.
Proof.
  intros Hs. pose proof (all_upto_spec _ _ _ step16_table s
                ltac:(rewrite Z2Nat.id by lia; lia)) as H.
  cbv beta in H. apply andb_prop in H as [H H3]. apply andb_prop in H as [_ H2].
  apply Z.leb_le in H2. apply Z.ltb_lt in H3. lia.
Qed.

Lemma unstep16_step16 s : 0 <= s < 2 ^ 16 -> unstep16 (step16 s) = s.
Proof.
  intros Hs. pose proof (all_upto_spec _ _ _ step16_table s
                ltac:(rewrite Z2Nat.id by lia; lia)) as H.
  cbv beta in H. apply andb_prop in H as [H _]. apply andb_prop in H as [H _].
  apply Z.eqb_eq in H. exact H.
Qed.

Lemma iter_step16_range n s :
  0 <= s < 2 ^ 16 -> 0 <= Nat.iter n step16 s < 2 ^ 16.
Proof.
  intros Hs. induction n as [|n IH]; [exact Hs|].
  rewrite Nat.iter_succ. apply step16_range. exact IH.
Qed.

Lemma iter_step16_inj n s s' :
  0 <= s < 2 ^ 16 -> 0 <= s' < 2 ^ 16 ->
  Nat.iter n step16 s = Nat.iter n step16 s' -> s = s'.
Proof.
  intros Hs Hs'. induction n as [|n IH]; [auto|].
  rewrite !Nat.iter_succ. intros H. apply IH.
  rewrite <- (unstep16_step16 (Nat.iter n step16 s)) by (apply iter_step16_range; exact Hs).
  rewrite <- (unstep16_step16 (Nat.iter n step16 s')) by (apply iter_step16_range; exact Hs').
  rewrite H. reflexivity.
Qed.

Lemma lxor_cancel_r a b c : Z.lxor a c = Z.lxor b c -> a = b.
Proof.
  intros H. rewrite <- (Z.lxor_0_r a), <- (Z.lxor_0_r b), <- (Z.lxor_nilpotent c).
  rewrite <- !Z.lxor_assoc, H. reflexivity.
Qed.

Lemma lxor_cancel_l a b c : Z.lxor c a = Z.lxor c b -> a = b.
Proof. rewrite !(Z.lxor_comm c). apply lxor_cancel_r. Qed.

Lemma low16_crc_byte c byte :
  low16 (crc_byte c byte)
  = Nat.iter 8 step16 (Z.lxor (low16 c) (low16 (JS.shl byte 8))).
Proof. unfold crc_byte. rewrite low16_iter_crc_step, low16_xor. reflexivity. Qed.

(** Registers that differ stay different, whatever byte comes next. *)
Lemma crc_byte_inj_state c c' byte :
  low16 c <> low16 c' -> low16 (crc_byte c byte) <> low16 (crc_byte c' byte).
Proof.
  intros Hne Heq. apply Hne. rewrite !low16_crc_byte in Heq.
  apply iter_step16_inj in Heq;
    [| rewrite <- low16_lxor; apply low16_range ..].
  apply lxor_cancel_r in Heq. exact Heq.
Qed.

Lemma low16_shl8 byte : 0 <= byte < 256 -> low16 (JS.shl byte 8) = byte * 256.
Proof.
  intros Hb. unfold JS.shl. rewrite low16_ToInt32, ToInt32_small by lia.
  change (8 mod 32) with 8. rewrite Z.shiftl_mul_pow2 by lia.
  unfold low16. apply Z.mod_small. lia.
Qed.

(** Equal registers part when they read different bytes. *)
Lemma crc_byte_inj_byte c b b' :
  0 <= b < 256 -> 0 <= b' < 256 -> b <> b' ->
  low16 (crc_byte c b) <> low16 (crc_byte c b').
Proof.
  intros Hb Hb' Hne Heq. rewrite !low16_crc_byte in Heq.
  apply iter_step16_inj in Heq;
    [| rewrite <- low16_lxor; apply low16_range ..].
  apply lxor_cancel_l in Heq. rewrite !low16_shl8 in Heq by assumption. lia.
Qed.

Lemma fold_crc_byte_inj data c c' :
  low16 c <> low16 c' ->
  low16 (fold_left crc_byte data c) <> low16 (fold_left crc_byte data c').
Proof.
  apply (fold_left_related crc_byte (fun c c' => low16 c <> low16 c')).
  intros a a' b. apply crc_byte_inj_state.
Qed.

Lemma calculateChecksum_low16 data :
  calculateChecksum data = low16 (fold_left crc_byte data 0xFFFF).
Proof.
  unfold calculateChecksum, JS.and.
  rewrite (ToInt32_small 0xFFFF) by lia.
  change 0xFFFF with (Z.ones 16) at 2. rewrite Z.land_ones by lia.
  apply low16_ToInt32.
Qed.

Lemma calculateChecksum_range data : 0 <= calculateChecksum data < 2 ^ 16.
Proof. rewrite calculateChecksum_low16. apply low16_range. Qed.

(** CRC-16 tells apart two messages that differ in one byte. *)
Lemma calculateChecksum_one_byte before after b b' :
  0 <= b < 256 -> 0 <= b' < 256 -> b <> b' ->
  calculateChecksum (before ++ b :: after)
  <> calculateChecksum (before ++ b' :: after).
Proof.
  intros Hb Hb' Hne. rewrite !calculateChecksum_low16, !fold_left_app.
  rewrite !fold_left_cons. apply fold_crc_byte_inj. apply crc_byte_inj_byte; assumption.
Qed.

End Crc.

(** ** Strings and bytes *)

Section Bytes.
Local Open Scope Z_scope.

(** The code units of a JavaScript string are 16-bit values. *)
Definition is_string (s : jsstring) : bool :=
  forallb (fun c => (0 <=? c) && (c <=? 0xFFFF)) s.

Definition is_byte (b : Z) : Prop := 0 <= b < 256.

Lemma lor_byte c x : 0 <= c < 256 -> 0 <= x < 256 -> is_byte (Z.lor c x).
Proof. intros Hc Hx. apply (lor_bound c x 8); lia. Qed.

Lemma land_3F x : 0 <= Z.land x 0x3F < 256.
Proof.
  change 0x3F with (Z.ones 6). rewrite Z.land_ones by lia.
  pose proof (Z.mod_pos_bound x (2 ^ 6) ltac:(lia)). lia.
Qed.

Lemma shiftr_range cp k hi :
  0 <= k -> 0 <= cp < hi * 2 ^ k -> 0 <= Z.shiftr cp k < hi.
Proof.
  intros Hk Hcp. rewrite Z.shiftr_div_pow2 by lia.
  assert (0 < 2 ^ k) by (apply Z.pow_pos_nonneg; lia).
  split; [apply Z.div_pos; lia | apply Z.div_lt_upper_bound; lia].
Qed.

Lemma bytes_of_code_point_range cp :
  0 <= cp <= 0x10FFFF -> Forall is_byte (Utf8.bytes_of_code_point cp).
Proof.
  intros Hcp. unfold Utf8.bytes_of_code_point.
  pose proof (shiftr_range cp 6 32) as H6.
  pose proof (shiftr_range cp 12 16) as H12.
  pose proof (shiftr_range cp 18 8) as H18.
  pose proof (land_3F cp). pose proof (land_3F (Z.shiftr cp 6)).
  pose proof (land_3F (Z.shiftr cp 12)).
  destruct (Z.leb_spec cp 0x7F); [|destruct (Z.leb_spec cp 0x7FF);
    [|destruct (Z.leb_spec cp 0xFFFF)]];
    repeat first [apply Forall_cons | apply Forall_nil];
    try (unfold is_byte; lia);
    apply lor_byte; lia.
Qed.

Lemma encode_bytes_upto n s :
  (length s <= n)%nat -> is_string s = true -> Forall is_byte (Utf8.encode s).
Proof.
  revert s. induction n as [|n IH]; intros s Hlen Hs.
  - destruct s; [constructor|cbn in Hlen; lia].
  - destruct s as [|c rest]; [constructor|].
    cbn [is_string forallb] in Hs. apply andb_prop in Hs as [Hc Hrest].
    apply andb_prop in Hc as [Hc0 Hc1]. apply Z.leb_le in Hc0, Hc1.
    cbn [length] in Hlen. cbn [Utf8.encode].
    assert (Hfffd : Forall is_byte (Utf8.bytes_of_code_point 0xFFFD))
      by (apply bytes_of_code_point_range; lia).
    destruct (Utf8.is_high_surrogate c) eqn:Hhi.
    + destruct rest as [|d rest']; [exact Hfffd|].
      destruct (Utf8.is_low_surrogate d) eqn:Hlo.
      * apply Forall_app. split.
        -- apply bytes_of_code_point_range.
           unfold Utf8.is_high_surrogate in Hhi. unfold Utf8.is_low_surrogate in Hlo.
           apply andb_prop in Hhi as [H1 H2]. apply andb_prop in Hlo as [H3 H4].
           apply Z.leb_le in H1, H2, H3, H4. lia.
        -- cbn [forallb] in Hrest. apply andb_prop in Hrest as [_ Hrest].
           apply IH; [cbn [length] in Hlen; lia | exact Hrest].
      * apply Forall_app. split; [exact Hfffd|]. apply IH; [lia | exact Hrest].
    + destruct (Utf8.is_low_surrogate c).
      * apply Forall_app. split; [exact Hfffd|]. apply IH; [lia | exact Hrest].
      * apply Forall_app. split; [|apply IH; [lia | exact Hrest]].
        apply bytes_of_code_point_range. lia.
Qed.

(** [TextEncoder] produces bytes. *)
Lemma encode_bytes s : is_string s = true -> Forall is_byte (Utf8.encode s).
Proof. apply (encode_bytes_upto (length s)). lia. Qed.

(** Only the empty string has no bytes. *)
Lemma encode_nil s : Utf8.encode s = [] -> s = [].
Proof.
  assert (Hne : forall cp rest, Utf8.bytes_of_code_point cp ++ rest <> []).
  { intros cp rest. unfold Utf8.bytes_of_code_point.
    destruct (cp <=? 0x7F); [discriminate|].
    destruct (cp <=? 0x7FF); [discriminate|].
    destruct (cp <=? 0xFFFF); discriminate. }
  destruct s as [|c rest]; [reflexivity|]. cbn [Utf8.encode].
  destruct (Utf8.is_high_surrogate c).
  - destruct rest as [|d rest'].
    + intros H. exfalso. apply (Hne 0xFFFD []). rewrite app_nil_r. exact H.
    + destruct (Utf8.is_low_surrogate d); intros H; exfalso; exact (Hne _ _ H).
  - destruct (Utf8.is_low_surrogate c); intros H; exfalso; exact (Hne _ _ H).
Qed.

End Bytes.

(** ** The bit frame *)

Section Frame.
Local Open Scope Z_scope.

(** The bits that [encodeSecondaryMessage] pushes: length, payload, checksum. *)
Definition frame (len : Z) (bytes : list Z) (crc : Z) : list bool :=
  push_bits 16 len ++ flat_map (push_bits 8) bytes ++ push_bits 16 crc.

Lemma flat_map_push8_length bytes :
  length (flat_map (push_bits 8) bytes) = (8 * length bytes)%nat.
Proof.
  induction bytes as [|b bytes IH]; [reflexivity|].
  cbn [flat_map]. rewrite length_app, push_bits_length, IH. cbn [length]. lia.
Qed.

Lemma frame_length len bytes crc :
  length (frame len bytes crc) = (32 + 8 * length bytes)%nat.
Proof.
  unfold frame. rewrite !length_app, !push_bits_length, flat_map_push8_length. lia.
Qed.

(** The payload bytes are read back from where they were written. *)
Lemma read_payload bytes : forall pre post,
  Forall is_byte bytes ->
  map (fun byteIdx =>
         read_bits 8 (length pre + byteIdx * 8)
           (pre ++ flat_map (push_bits 8) bytes ++ post))
      (seq 0 (length bytes))
  = bytes.
Proof.
  induction bytes as [|b bytes IH]; intros pre post Hbytes; [reflexivity|].
  inversion Hbytes as [|? ? Hb Hrest]; subst.
  cbn [length seq map flat_map]. f_equal.
  - rewrite Nat.mul_0_l, Nat.add_0_r, <- app_assoc.
    apply read_push_bits; [lia | unfold is_byte in Hb; cbn; lia].
  - rewrite <- seq_shift, map_map.
    rewrite <- (IH (pre ++ push_bits 8 b) post Hrest) at 2.
    apply map_ext. intros j.
    rewrite length_app, push_bits_length, <- !app_assoc.
    f_equal. lia.
Qed.

(** What the decoder makes of a frame whose fields are well formed, whatever
    its checksum field holds. *)
Lemma decode_frame bytes crc :
  Forall is_byte bytes -> Z.of_nat (length bytes) <= 65535 -> 0 <= crc < 2 ^ 16 ->
  decodeSecondaryMessage (frame (Z.of_nat (length bytes)) bytes crc)
  = if (length bytes =? 0)%nat then Ok []
    else if crc =? calculateChecksum bytes then Ok (Utf8.decode bytes)
    else Err (ChecksumMismatch (calculateChecksum bytes) crc).
Proof.
  intros Hbytes Hlen Hcrc. unfold decodeSecondaryMessage.
  rewrite frame_length.
  replace (32 + 8 * length bytes <? 32)%nat with false
    by (symmetry; apply Nat.ltb_ge; lia).
  assert (Hread : read_bits 16 0 (frame (Z.of_nat (length bytes)) bytes crc)
                  = Z.of_nat (length bytes)).
  { unfold frame. apply (read_push_bits 16 _ [] _); [lia|].
    change (2 ^ Z.of_nat 16) with 65536. lia. }
  rewrite Hread.
  replace (8 * Z.of_nat (length bytes)
           >? Z.of_nat (32 + 8 * length bytes) - 32) with false
    by (symmetry; rewrite Z.gtb_ltb; apply Z.ltb_ge; lia).
  destruct (Nat.eqb_spec (length bytes) 0) as [H0|H0].
  - rewrite H0. reflexivity.
  - replace (Z.of_nat (length bytes) =? 0) with false
      by (symmetry; apply Z.eqb_neq; lia).
    rewrite Nat2Z.id.
    assert (Hpay : map (fun byteIdx =>
                          read_bits 8 (16 + byteIdx * 8)
                            (frame (Z.of_nat (length bytes)) bytes crc))
                       (seq 0 (length bytes)) = bytes).
    { unfold frame.
      etransitivity;
        [|apply (read_payload bytes (push_bits 16 (Z.of_nat (length bytes)))
                   (push_bits 16 crc) Hbytes)].
      apply map_ext. intros j. rewrite push_bits_length. reflexivity. }
    rewrite Hpay.
    assert (Hsum : read_bits 16 (16 + length bytes * 8)
                     (frame (Z.of_nat (length bytes)) bytes crc) = crc).
    { unfold frame. rewrite app_assoc.
      rewrite <- (app_nil_r (push_bits 16 crc)).
      replace (16 + length bytes * 8)%nat
        with (length (push_bits 16 (Z.of_nat (length bytes))
                      ++ flat_map (push_bits 8) bytes))
        by (rewrite length_app, push_bits_length, flat_map_push8_length; lia).
      apply read_push_bits; [lia | exact Hcrc]. }
    rewrite Hsum. reflexivity.
Qed.

(** [encodeSecondaryMessage] either refuses or builds the frame. *)
Lemma encodeSecondaryMessage_frame message maxBits :
  Num.gtb (32 + Z.of_nat (length (Utf8.encode message)) * 8) maxBits = false ->
  encodeSecondaryMessage message maxBits
  = Ok (frame (Z.of_nat (length (Utf8.encode message))) (Utf8.encode message)
              (calculateChecksum (Utf8.encode message))).
Proof.
  intros H. unfold encodeSecondaryMessage. cbv zeta. rewrite H. reflexivity.
Qed.

End Frame.

(** ** Tampering with one payload bit *)

Section Tamper.
Local Open Scope Z_scope.

(** [bits[offset] = !bits[offset]] *)
Definition flip_bit (offset : nat) (bits : list bool) : list bool :=
  update_nth offset negb bits.

Lemma update_nth_app_r {A : Type} (f : A -> A) (l1 l2 : list A) (n : nat) :
  update_nth (length l1 + n) f (l1 ++ l2) = l1 ++ update_nth n f l2.
Proof.
  induction l1 as [|a l1 IH]; [reflexivity|].
  cbn [length app Nat.add update_nth]. rewrite IH. reflexivity.
Qed.

Lemma update_nth_app_l {A : Type} (f : A -> A) (l1 l2 : list A) (n : nat) :
  (n < length l1)%nat -> update_nth n f (l1 ++ l2) = update_nth n f l1 ++ l2.
Proof.
  revert n. induction l1 as [|a l1 IH]; intros n Hn; [cbn in Hn; lia|].
  destruct n as [|n]; [reflexivity|].
  cbn [app update_nth]. rewrite IH by (cbn in Hn; lia). reflexivity.
Qed.

Lemma update_nth_length {A : Type} (f : A -> A) (l : list A) (n : nat) :
  length (update_nth n f l) = length l.
Proof.
  revert n. induction l as [|a l IH]; intros [|n]; cbn [update_nth length];
    try reflexivity. rewrite IH. reflexivity.
Qed.

Fixpoint bits_eqb (a b : list bool) : bool :=
  match a, b with
  | [], [] => true
  | x :: a', y :: b' => Bool.eqb x y && bits_eqb a' b'
  | _, _ => false
  end.

Lemma bits_eqb_eq a b : bits_eqb a b = true -> a = b.
Proof.
  revert b. induction a as [|x a IH]; intros [|y b] H; try discriminate; [reflexivity|].
  cbn [bits_eqb] in H. apply andb_prop in H as [Hxy Hab].
  apply eqb_prop in Hxy. rewrite Hxy, (IH b Hab). reflexivity.
Qed.

(** Negating bit [i] of a written byte writes the byte with binary digit
    [7 - i] changed: another byte. *)
Definition flipped_byte (b : Z) (i : nat) : Z := Z.lxor b (2 ^ Z.of_nat (7 - i)).

Lemma flipped_byte_table :
  all_upto (Z.to_nat 256) 0
    (fun b =>
       forallb
         (fun i =>
            bits_eqb (update_nth i negb (push_bits 8 b))
                     (push_bits 8 (flipped_byte b i))
            && (0 <=? flipped_byte b i) && (flipped_byte b i <? 256)
            && negb (flipped_byte b i =? b))
         (seq 0 8))
  = true.
Proof. vm_compute. reflexivity. Qed.

Lemma flipped_byte_spec b i :
  is_byte b -> (i < 8)%nat ->
  update_nth i negb (push_bits 8 b) = push_bits 8 (flipped_byte b i)
  /\ is_byte (flipped_byte b i) /\ flipped_byte b i <> b.
Proof.
  intros Hb Hi.
  assert (Hr : 0 <= b < 0 + Z.of_nat (Z.to_nat 256))
    by (rewrite Z2Nat.id by lia; unfold is_byte in Hb; lia).
  pose proof (all_upto_spec _ _ _ flipped_byte_table b Hr) as H. clear Hr.
  cbv beta in H. rewrite forallb_forall in H.
  specialize (H i ltac:(apply in_seq; lia)).
  apply andb_prop in H as [H H4]. apply andb_prop in H as [H H3].
  apply andb_prop in H as [H1 H2].
  apply bits_eqb_eq in H1. apply Z.leb_le in H2. apply Z.ltb_lt in H3.
  apply negb_true_iff, Z.eqb_neq in H4.
  unfold is_byte. auto.
Qed.

(** Flipping a payload bit of a frame gives the frame of another payload,
    with the old checksum. *)
Lemma flip_payload_bit len crc before b after i :
  is_byte b -> (i < 8)%nat ->
  flip_bit (16 + 8 * length before + i) (frame len (before ++ b :: after) crc)
  = frame len (before ++ flipped_byte b i :: after) crc.
Proof.
  intros Hb Hi. unfold flip_bit, frame.
  rewrite <- Nat.add_assoc.
  rewrite <- (push_bits_length 16 len) at 1.
  rewrite update_nth_app_r. f_equal.
  rewrite !flat_map_app. cbn [flat_map].
  rewrite <- (flat_map_push8_length before), <- !app_assoc.
  rewrite update_nth_app_r. f_equal.
  rewrite update_nth_app_l by (rewrite push_bits_length; exact Hi).
  destruct (flipped_byte_spec b i Hb Hi) as [-> _]. reflexivity.
Qed.

End Tamper.

(** ** Claims about the frame *)

Section FrameClaims.
Local Open Scope Z_scope.

(** C9. The frame of the empty message is the 16-bit length 0x0000 followed by
    the 16-bit checksum 0xFFFF, 32 bits in all, whenever the bound [maxBits]
    admits 32 bits; the checksum of no bytes is the initial register 0xFFFF. *)
Theorem empty_message_frame (maxBits : float) :
  Num.leb 32 maxBits = true ->
  calculateChecksum [] = 0xFFFF
  /\ encodeSecondaryMessage [] maxBits
     = Ok (push_bits 16 0x0000 ++ push_bits 16 0xFFFF)
  /\ push_bits 16 0x0000 ++ push_bits 16 0xFFFF
     = repeat false 16 ++ repeat true 16
  /\ length (repeat false 16 ++ repeat true 16) = 32%nat.
Proof.
  intros Hmax. split; [reflexivity|]. split; [|split; reflexivity].
  rewrite encodeSecondaryMessage_frame by (apply Num_leb_gtb; exact Hmax).
  reflexivity.
Qed.

Lemma empty_message_frame_witness :
  Num.leb 32 (Num.of_Z 32) = true
  /\ encodeSecondaryMessage [] (Num.of_Z 32)
     = Ok (push_bits 16 0x0000 ++ push_bits 16 0xFFFF).
Proof.
  split; [reflexivity|].
  apply (empty_message_frame (Num.of_Z 32)). reflexivity.
Defined.

(** Bits that start with sixteen zeros decode to the empty string, whatever
    follows. *)
Lemma decode_zero_length bits :
  (32 <= length bits)%nat -> firstn 16 bits = repeat false 16 ->
  decodeSecondaryMessage bits = Ok [].
Proof.
  intros Hlen Hzero. unfold decodeSecondaryMessage.
  replace (length bits <? 32)%nat with false by (symmetry; apply Nat.ltb_ge; lia).
  assert (Hread : read_bits 16 0 bits = 0).
  { apply Z.bits_inj'. intros k Hk. rewrite <- (Z2Nat.id k) by lia.
    rewrite read_bits_testbit, Z.testbit_0_l by lia.
    destruct (Nat.ltb_spec (Z.to_nat k) 16) as [Hlt|]; [|reflexivity].
    cbn [andb Nat.add].
    rewrite <- (firstn_skipn 16 bits), Hzero.
    rewrite app_nth1 by (rewrite repeat_length; lia).
    apply nth_repeat. }
  rewrite Hread.
  replace (8 * 0 >? Z.of_nat (length bits) - 32) with false
    by (symmetry; rewrite Z.gtb_ltb; apply Z.ltb_ge; lia).
  reflexivity.
Qed.

(** A message of 65536 bytes, and a message that starts with U+FEFF. *)
Definition long_message : jsstring := repeat 97 (Z.to_nat 65536).
Definition bom_message : jsstring := [0xFEFF; 104; 105].

(** C6, as stated, fails: the length field keeps 16 bits, so a message of
    65536 bytes is framed with length 0 and decoded as the empty string; and
    [TextDecoder] drops a leading U+FEFF. *)
Lemma frame_round_trip_counterexample :
  (Num.leb (32 + 8 * Z.of_nat (length (Utf8.encode long_message)))
           (Num.of_Z 1000000) = true
   /\ (bits <- encodeSecondaryMessage long_message (Num.of_Z 1000000) ;;
       decodeSecondaryMessage bits) = Ok []
   /\ long_message <> [])
  /\
  (Num.leb (32 + 8 * Z.of_nat (length (Utf8.encode bom_message)))
           (Num.of_Z 1000) = true
   /\ (bits <- encodeSecondaryMessage bom_message (Num.of_Z 1000) ;;
       decodeSecondaryMessage bits) = Ok [104; 105]
   /\ bom_message <> [104; 105]).
Proof.
  split; (split; [vm_compute; reflexivity|split]).
  - rewrite encodeSecondaryMessage_frame by (vm_compute; reflexivity).
    cbn [bind]. apply decode_zero_length.
    + rewrite frame_length. lia.
    + unfold frame.
      rewrite firstn_app, push_bits_length, Nat.sub_diag, firstn_O, app_nil_r.
      vm_compute. reflexivity.
  - intros H. apply (f_equal (@length Z)) in H. revert H.
    unfold long_message. rewrite repeat_length. cbn [length].
    intros H. apply (f_equal Z.of_nat) in H. rewrite Z2Nat.id in H; lia.
  - vm_compute. reflexivity.
  - discriminate.
Qed.

(** C6, amended. For every string [m] of at most 65535 UTF-8 bytes that the
    platform's UTF-8 codec gives back unchanged, and every bound of at least
    [32 + 8 * bytes], decoding the encoded frame returns [m]. *)
Theorem frame_round_trip (m : jsstring) (maxBits : float) :
  is_string m = true ->
  Z.of_nat (length (Utf8.encode m)) <= 65535 ->
  Utf8.decode (Utf8.encode m) = m ->
  Num.leb (32 + 8 * Z.of_nat (length (Utf8.encode m))) maxBits = true ->
  (bits <- encodeSecondaryMessage m maxBits ;; decodeSecondaryMessage bits)
  = Ok m.
Proof.
  intros Hstr Hlen Hcodec Hmax.
  rewrite encodeSecondaryMessage_frame
    by (apply Num_leb_gtb; rewrite Z.mul_comm; exact Hmax).
  cbn [bind].
  rewrite decode_frame;
    [| apply encode_bytes; exact Hstr | exact Hlen | apply calculateChecksum_range].
  destruct (Nat.eqb_spec (length (Utf8.encode m)) 0) as [H0|H0].
  - apply length_zero_iff_nil, encode_nil in H0. rewrite H0. reflexivity.
  - rewrite Z.eqb_refl, Hcodec. reflexivity.
Qed.

Definition SECRET : jsstring := [83; 69; 67; 82; 69; 84].

Lemma frame_round_trip_witness :
  (bits <- encodeSecondaryMessage SECRET (Num.of_Z 1000) ;;
   decodeSecondaryMessage bits) = Ok SECRET.
Proof.
  apply (frame_round_trip SECRET (Num.of_Z 1000)).
  - reflexivity.
  - vm_compute. discriminate.
  - reflexivity.
  - reflexivity.
Defined.

(** C7, as stated, fails for the 65536-byte message: its frame carries length
    0, and with a payload bit flipped it still decodes to the empty string. *)
Lemma tamper_counterexample :
  exists bits,
    encodeSecondaryMessage long_message (Num.of_Z 1000000) = Ok bits
    /\ (16 <= 16 < 16 + 8 * length (Utf8.encode long_message))%nat
    /\ decodeSecondaryMessage (flip_bit 16 bits) = Ok [].
Proof.
  eexists. split; [apply encodeSecondaryMessage_frame; vm_compute; reflexivity|].
  split.
  - split; [lia|]. apply Nat.ltb_lt. vm_compute. reflexivity.
  - apply decode_zero_length.
    + unfold flip_bit. rewrite update_nth_length, frame_length. lia.
    + unfold flip_bit, frame.
      set (len := Z.of_nat (length (Utf8.encode long_message))).
      pose proof (update_nth_app_r negb (push_bits 16 len)
                    (flat_map (push_bits 8) (Utf8.encode long_message)
                     ++ push_bits 16 (calculateChecksum (Utf8.encode long_message)))
                    0) as E.
      rewrite push_bits_length, Nat.add_0_r in E. rewrite E.
      rewrite firstn_app, push_bits_length, Nat.sub_diag, firstn_O, app_nil_r.
      vm_compute. reflexivity.
Qed.

(** C7, amended. For every string [m] of at most 65535 UTF-8 bytes and every
    bound that admits its frame, flipping one bit at an offset in
    [[16, 16 + 8 * bytes)] makes [decodeSecondaryMessage] fail with a checksum
    mismatch. *)
Theorem tamper_detection (m : jsstring) (maxBits : float) (offset : nat) :
  is_string m = true ->
  Z.of_nat (length (Utf8.encode m)) <= 65535 ->
  Num.leb (32 + 8 * Z.of_nat (length (Utf8.encode m))) maxBits = true ->
  (16 <= offset < 16 + 8 * length (Utf8.encode m))%nat ->
  exists bits,
    encodeSecondaryMessage m maxBits = Ok bits
    /\ is_ChecksumMismatch (decodeSecondaryMessage (flip_bit offset bits)) = true.
Proof.
  intros Hstr Hlen Hmax Hoff.
  eexists. split.
  { apply encodeSecondaryMessage_frame, Num_leb_gtb.
    rewrite Z.mul_comm. exact Hmax. }
  pose proof (encode_bytes m Hstr) as Hbytes.
  remember (Utf8.encode m) as bytes eqn:Ebytes. clear Ebytes.
  remember ((offset - 16) / 8)%nat as j eqn:Ej.
  remember ((offset - 16) mod 8)%nat as i eqn:Ei.
  assert (Hj : (j < length bytes)%nat)
    by (subst j; apply Nat.Div0.div_lt_upper_bound; lia).
  assert (Hi : (i < 8)%nat) by (subst i; apply Nat.mod_upper_bound; lia).
  assert (Hoffset : offset = (16 + 8 * j + i)%nat).
  { pose proof (Nat.div_mod_eq (offset - 16) 8). subst j i. lia. }
  clear Ej Ei.
  destruct (nth_split bytes 0 Hj) as (before & after & Hsplit & Hbefore).
  remember (nth j bytes 0) as b eqn:Eb.
  assert (Hb : is_byte b).
  { rewrite Forall_forall in Hbytes. subst b. apply Hbytes, nth_In, Hj. }
  clear Eb.
  destruct (flipped_byte_spec b i Hb Hi) as (_ & Hb' & Hne).
  assert (Hlen' : length (before ++ flipped_byte b i :: after) = length bytes).
  { rewrite Hsplit, !length_app. reflexivity. }
  rewrite Hoffset, <- Hbefore. rewrite Hsplit at 2 3.
  rewrite flip_payload_bit by assumption.
  rewrite Hsplit at 1. replace (length (before ++ b :: after))
    with (length (before ++ flipped_byte b i :: after))
    by (rewrite !length_app; reflexivity).
  rewrite decode_frame.
  - rewrite Hlen'.
    destruct (Nat.eqb_spec (length bytes) 0) as [H0|_]; [lia|].
    replace (calculateChecksum (before ++ b :: after)
             =? calculateChecksum (before ++ flipped_byte b i :: after))
      with false; [reflexivity|].
    symmetry. apply Z.eqb_neq.
    apply calculateChecksum_one_byte; [exact Hb | exact Hb' | congruence].
  - rewrite Hsplit in Hbytes. apply Forall_app in Hbytes as [H1 H2].
    apply Forall_app. split; [exact H1|].
    inversion H2; subst. constructor; assumption.
  - rewrite Hlen'. exact Hlen.
  - apply calculateChecksum_range.
Qed.

Lemma tamper_detection_witness :
  exists bits,
    encodeSecondaryMessage SECRET (Num.of_Z 1000) = Ok bits
    /\ is_ChecksumMismatch (decodeSecondaryMessage (flip_bit 20 bits)) = true.
Proof.
  apply (tamper_detection SECRET (Num.of_Z 1000) 20).
  - reflexivity.
  - vm_compute. discriminate.
  - reflexivity.
  - cbn. lia.
Defined.

End FrameClaims.

(** ** utils/prime-utils.ts: primality by trial division *)

Section Primes.

Definition prime_nat (p : nat) : Prop :=
  2 <= p /\ forall d, Nat.divide d p -> d = 1 \/ d = p.

Lemma mod_divide_iff n d : d <> 0 -> (n mod d =? 0) = true <-> Nat.divide d n.
Proof.
  intros Hd. rewrite Nat.eqb_eq. apply Nat.Lcm0.mod_divide.
Qed.

(** The trial-division loop: when no number in [[2, i)] divides the odd
    number [n], the loop answers whether none does at all. *)
Lemma isPrime_loop_spec fuel : forall i n,
  n < i * i + 2 * fuel -> Nat.odd i = true -> Nat.odd n = true -> 3 <= i ->
  (forall d, 2 <= d < i -> ~ Nat.divide d n) ->
  isPrime_loop fuel i n = true <-> (forall d, 2 <= d < n -> ~ Nat.divide d n).
Proof.
  induction fuel as [|fuel IH]; intros i n Hfuel Hi Hn Hi3 Hsmall.
  - cbn [isPrime_loop]. split; [|reflexivity]. intros _ d Hd Hdiv.
    destruct Hdiv as [e He].
    destruct (Nat.lt_ge_cases d i) as [Hlt|Hge]; [exact (Hsmall d ltac:(lia) (ex_intro _ e He))|].
    destruct (Nat.lt_ge_cases e i) as [Hlt'|Hge'].
    + assert (e <> 0) by (intros ->; lia). assert (e <> 1) by (intros ->; lia).
      apply (Hsmall e ltac:(lia)). exists d. lia.
    + nia.
  - cbn [isPrime_loop]. destruct (Nat.leb_spec (i * i) n) as [Hle|Hgt].
    + destruct (n mod i =? 0) eqn:Hmod.
      * split; [discriminate|]. intros Hnone. exfalso.
        apply mod_divide_iff in Hmod; [|lia].
        apply (Hnone i); [|exact Hmod]. split; [lia|]. nia.
      * apply IH; [nia | | exact Hn | lia |].
        -- rewrite Nat.odd_add, Hi. reflexivity.
        -- intros d Hd Hdiv.
           destruct (Nat.lt_ge_cases d i) as [Hlt|Hge]; [exact (Hsmall d ltac:(lia) Hdiv)|].
           destruct (Nat.eq_dec d i) as [->|Hne].
           ++ apply mod_divide_iff in Hdiv; [congruence|lia].
           ++ assert (d = i + 1) by lia. subst d.
              destruct Hdiv as [e He].
              assert (Nat.odd (e * (i + 1)) = true) by (rewrite <- He; exact Hn).
              rewrite Nat.odd_mul, Nat.odd_add, Hi, andb_false_r in H.
              discriminate.
    + split; [|reflexivity]. intros _ d Hd Hdiv.
      destruct Hdiv as [e He].
      destruct (Nat.lt_ge_cases d i) as [Hlt|Hge]; [exact (Hsmall d ltac:(lia) (ex_intro _ e He))|].
      destruct (Nat.lt_ge_cases e i) as [Hlt'|Hge'].
      * assert (e <> 0) by (intros ->; lia). assert (e <> 1) by (intros ->; lia).
        apply (Hsmall e ltac:(lia)). exists d. lia.
      * nia.
Qed.

Lemma prime_nat_no_divisor p :
  prime_nat p <-> 2 <= p /\ forall d, 2 <= d < p -> ~ Nat.divide d p.
Proof.
  unfold prime_nat. split; intros [H2 H]; split; try exact H2.
  - intros d Hd Hdiv. destruct (H d Hdiv); lia.
  - intros d Hdiv.
    assert (d <> 0) by (intros ->; destruct Hdiv as [e He]; lia).
    assert (d <= p) by (apply Nat.divide_pos_le; [lia | exact Hdiv]).
    destruct (Nat.eq_dec d 1); [left; assumption|].
    destruct (Nat.eq_dec d p); [right; assumption|].
    exfalso. apply (H d); [lia | exact Hdiv].
Qed.

(** [isPrime] decides primality. *)
Lemma isPrime_spec n : isPrime n = true <-> prime_nat n.
Proof.
  rewrite prime_nat_no_divisor. unfold isPrime.
  destruct (Nat.ltb_spec n 2) as [Hlt|Hge]; [split; [discriminate|lia]|].
  destruct (Nat.eqb_spec n 2) as [->|Hne].
  { split; [|reflexivity]. intros _. split; [lia|]. intros d Hd. lia. }
  destruct (n mod 2 =? 0) eqn:Heven.
  - split; [discriminate|]. intros [_ Hnone]. exfalso.
    apply mod_divide_iff in Heven; [|lia]. apply (Hnone 2); [lia | exact Heven].
  - assert (Hodd : Nat.odd n = true).
    { apply Nat.eqb_neq in Heven. rewrite <- Nat.negb_even.
      destruct (Nat.even n) eqn:He; [|reflexivity].
      apply Nat.even_spec in He. destruct He as [k ->].
      rewrite Nat.mul_comm, Nat.Div0.mod_mul in Heven. congruence. }
    rewrite (isPrime_loop_spec n 3 n); try lia; try reflexivity.
    + split; [intros H; split; [lia | exact H] | intros [_ H]; exact H].
    + exact Hodd.
    + intros d Hd Hdiv. assert (d = 2) by lia. subst d.
      apply mod_divide_iff in Hdiv; [congruence|lia].
Qed.

(** [findLargePrime max] is the largest prime below [max] that is above 2,
    and 2 when there is none. *)
Lemma findLargePrime_loop_spec candidate :
  let p := findLargePrime_loop candidate in
  (2 < p <= candidate /\ prime_nat p
   /\ forall q, p < q <= candidate -> ~ prime_nat q)
  \/ (p = 2 /\ forall q, 2 < q <= candidate -> ~ prime_nat q).
Proof.
  induction candidate as [|c IH]; cbn [findLargePrime_loop].
  - right. split; [reflexivity|]. intros q Hq. lia.
  - destruct (Nat.ltb_spec 2 (S c)) as [Hgt|Hle].
    + destruct (isPrime (S c)) eqn:Hp.
      * left. apply isPrime_spec in Hp. split; [lia|]. split; [exact Hp|].
        intros q Hq. lia.
      * assert (Hnp : ~ prime_nat (S c)).
        { intros H. apply isPrime_spec in H. congruence. }
        cbv zeta in IH. destruct IH as [(Hr & Hprime & Hmax)|(H2 & Hnone)].
        -- left. split; [lia|]. split; [exact Hprime|].
           intros q Hq. destruct (Nat.eq_dec q (S c)) as [->|]; [exact Hnp|].
           apply Hmax. lia.
        -- right. split; [exact H2|]. intros q Hq.
           destruct (Nat.eq_dec q (S c)) as [->|]; [exact Hnp|]. apply Hnone. lia.
    + right. split; [reflexivity|]. intros q Hq. lia.
Qed.

Lemma prime_nat_2 : prime_nat 2.
Proof. apply isPrime_spec. reflexivity. Qed.

Lemma prime_nat_3 : prime_nat 3.
Proof. apply isPrime_spec. reflexivity. Qed.

Lemma findLargePrime_prime max : prime_nat (findLargePrime max).
Proof.
  unfold findLargePrime.
  destruct (findLargePrime_loop_spec (max - 1)) as [(_ & H & _)|(-> & _)];
    [exact H | exact prime_nat_2].
Qed.

(** For [max >= 3] the result is the largest prime below [max]. *)
Lemma findLargePrime_largest max :
  3 <= max ->
  findLargePrime max < max /\ prime_nat (findLargePrime max)
  /\ forall q, findLargePrime max < q < max -> ~ prime_nat q.
Proof.
  intros Hmax. split; [|split; [apply findLargePrime_prime|]]; unfold findLargePrime;
    destruct (findLargePrime_loop_spec (max - 1)) as [(Hr & _ & Hq)|(-> & Hq)].
  - lia.
  - lia.
  - intros q Hlt. apply Hq. lia.
  - intros q Hlt. apply Hq. lia.
Qed.

(** Below 3 there is nothing to find, and the fallback 2 is returned. *)
Lemma findLargePrime_fallback max : max <= 3 -> findLargePrime max = 2.
Proof.
  intros Hmax. unfold findLargePrime.
  destruct max as [|[|[|[|max]]]]; try reflexivity. lia.
Qed.

End Primes.

(** ** The distribution sequence *)

Section Distribution.

Lemma distribution_loop_length n step total current :
  length (distribution_loop n step total current) = n.
Proof.
  revert current. induction n as [|n IH]; intros current; cbn [distribution_loop length];
    [reflexivity|]. rewrite IH. reflexivity.
Qed.

(** Entry [i] of the loop started at [current]. *)
Lemma distribution_loop_nth n step total : forall current i,
  i < n -> total <> 0 ->
  nth i (distribution_loop n step total current) 0
  = (current + i * step) mod total.
Proof.
  induction n as [|n IH]; intros current i Hi Htotal; [lia|].
  cbn [distribution_loop]. destruct i as [|i].
  - cbn [nth]. rewrite Nat.mul_0_l, Nat.add_0_r. reflexivity.
  - cbn [nth]. rewrite IH by lia.
    rewrite Nat.Div0.add_mod_idemp_l. f_equal. lia.
Qed.

(** C8. For [need <= total] the pattern has exactly [need] entries, entry [i]
    is [(i * p) mod total] with [p = findLargePrime total], and every entry
    lies in [[0, total)]; [p] is the largest prime below [total] when
    [total >= 3], and the fallback 2 when [total <= 3]. *)
Theorem distribution_pattern_shape (need total : nat) :
  need <= total ->
  exists idx,
    generateDistributionPattern need total = Ok idx
    /\ length idx = need
    /\ (forall i, i < need ->
          nth i idx 0 = (i * findLargePrime total) mod total)
    /\ (forall e, In e idx -> 0 <= e < total)
    /\ (3 <= total ->
          findLargePrime total < total /\ prime_nat (findLargePrime total)
          /\ forall q, findLargePrime total < q < total -> ~ prime_nat q)
    /\ (total <= 3 -> findLargePrime total = 2).
Proof.
  intros Hle. unfold generateDistributionPattern.
  replace (total <? need) with false by (symmetry; apply Nat.ltb_ge; exact Hle).
  eexists. split; [reflexivity|].
  split; [apply distribution_loop_length|].
  assert (Hnth : forall i, i < need ->
            nth i (distribution_loop need (findLargePrime total) total 0) 0
            = (i * findLargePrime total) mod total).
  { intros i Hi. rewrite distribution_loop_nth by lia. reflexivity. }
  split; [exact Hnth|]. split; [|split].
  - intros e He. apply (In_nth _ _ 0) in He. destruct He as (i & Hi & <-).
    rewrite distribution_loop_length in Hi. rewrite Hnth by exact Hi.
    split; [lia|]. apply Nat.mod_upper_bound. lia.
  - apply findLargePrime_largest.
  - apply findLargePrime_fallback.
Qed.

Lemma distribution_pattern_shape_witness :
  exists idx,
    generateDistributionPattern 5 10 = Ok idx /\ idx = [0; 7; 4; 1; 8].
Proof.
  destruct (distribution_pattern_shape 5 10 ltac:(lia)) as (idx & Hgen & _).
  exists idx. split; [exact Hgen|].
  vm_compute in Hgen. injection Hgen as <-. reflexivity.
Defined.

(** C2, as stated, fails at [total = 2]: the step falls back to 2, and both
    entries of the pattern for two bits are 0. *)
Lemma distribution_total_2_counterexample :
  2 <= 2 /\ generateDistributionPattern 2 2 = Ok [0; 0] /\ ~ NoDup [0; 0].
Proof.
  split; [lia|]. split; [reflexivity|].
  intros H. inversion H as [|? ? Hin _]. apply Hin. left. reflexivity.
Qed.

End Distribution.

(** ** Number theory: the largest prime below [n] does not divide [n]

    The step of the distribution sequence is the largest prime below the
    number of modules.  That it is coprime to that number rests on Bertrand's
    postulate, proved here after Erdos with MathComp's primes, binomial
    coefficients and big operators. *)

Module NumberTheory.
Import mathcomp.boot.ssreflect mathcomp.boot.ssrfun mathcomp.boot.ssrbool.
Import mathcomp.boot.eqtype mathcomp.boot.ssrnat mathcomp.boot.seq.
Import mathcomp.boot.div mathcomp.boot.prime mathcomp.boot.bigop.
Import mathcomp.boot.binomial.

Local Set Implicit Arguments.
Local Unset Strict Implicit.

(** Arithmetic goals of [ssrnat] handed to [lia]. *)
Ltac to_coq_nat :=
  repeat match goal with
         | H : is_true (leq _ _) |- _ => move/leP in H
         | H : is_true (_ == _) |- _ => move/eqP in H
         | H : is_true (~~ (leq _ _)) |- _ => rewrite -ltnNge in H
         end;
  try match goal with
      | |- is_true (leq _ _) => apply/leP
      | |- is_true (_ == _) => apply/eqP
      | |- is_true (~~ (leq _ _)) => rewrite -ltnNge; apply/leP
      end;
  rewrite -?plusE -?multE -?minusE.
Ltac to_coq_hyps :=
  repeat match goal with
         | H : context [addn] |- _ => rewrite -plusE in H
         | H : context [muln] |- _ => rewrite -multE in H
         | H : context [subn] |- _ => rewrite -minusE in H
         end.
Ltac ssr_lia := to_coq_nat; to_coq_hyps; lia.
Ltac ssr_nia := to_coq_nat; to_coq_hyps; nia.

(** *** The central binomial coefficient *)

Lemma central_bin_rec m :
  m.+1 * 'C(2 * m.+1, m.+1) = 2 * (2 * m + 1) * 'C(2 * m, m).
Proof.
  have H1 := mul_bin_diag (2 * m.+1) m.
  have H2 := mul_bin_down (2 * m + 1) m.
  have E1 : (2 * m.+1).-1 = 2 * m + 1 by rewrite mulnS add2n /= addn1.
  have E2 : (2 * m + 1).-1 = 2 * m by rewrite addn1.
  have E3 : 2 * m + 1 - m = m.+1 by ssr_lia.
  rewrite E1 in H1. rewrite E2 E3 in H2.
  move: H1 H2.
  move: ('C(2 * m + 1, m)) ('C(2 * m.+1, m.+1)) ('C(2 * m, m)) => c1 c2 c0 H1 H2.
  ssr_nia.
Qed.

Lemma central_bin_lower m : 0 < m -> 4 ^ m <= 2 * m * 'C(2 * m, m).
Proof.
  case: m => // m _. elim: m => [|m IH] //.
  have H := central_bin_rec m.+1.
  rewrite expnS.
  move: IH H.
  move: ('C(2 * m.+2, m.+2)) ('C(2 * m.+1, m.+1)) (4 ^ m.+1) => c2 c1 e IH H.
  ssr_nia.
Qed.

Lemma central_bin_upper m : 0 < m -> 2 * 'C(2 * m, m) <= 4 ^ m.
Proof.
  case: m => // m _. elim: m => [|m IH] //.
  have H := central_bin_rec m.+1.
  rewrite expnS.
  move: IH H.
  move: ('C(2 * m.+2, m.+2)) ('C(2 * m.+1, m.+1)) (4 ^ m.+1) => c2 c1 e IH H.
  ssr_nia.
Qed.

(** The middle coefficient of an odd row. *)
Lemma odd_bin_upper j : 'C(2 * j + 1, j) <= 4 ^ j.
Proof.
  have H : 'C(2 * j.+1, j.+1) = 2 * 'C(2 * j + 1, j).
  { have -> : 2 * j.+1 = (2 * j + 1).+1 by ssr_lia.
    rewrite binS. 
    have -> : 'C(2 * j + 1, j.+1) = 'C(2 * j + 1, j).
    { rewrite -(@bin_sub (2 * j + 1) j); first by ssr_lia.
      congr ('C(_, _)). ssr_lia. }
    ssr_lia. }
  have := @central_bin_upper j.+1 isT. rewrite H expnS.
  move: ('C(2 * j + 1, j)) (4 ^ j) => c e Hc. ssr_lia.
Qed.

(** *** Primes, factorials and binomial coefficients *)

Lemma prime_dvd_fact p m : prime p -> (p %| m`!) = (p <= m).
Proof.
  move=> Hp. apply/idP/idP; last first.
  - move=> Hle. apply: dvdn_fact. by rewrite (prime_gt0 Hp).
  - elim: m => [|m IH].
    + rewrite fact0 dvdn1 => /eqP Hp1. by move: (prime_gt1 Hp); rewrite Hp1.
    + rewrite factS (Euclid_dvdM _ _ Hp) => /orP [Hd|Hd].
      * by apply: dvdn_leq.
      * exact: leqW (IH Hd).
Qed.

(** A prime in [(j + 1, 2j + 1]] divides the middle coefficient of row
    [2j + 1]. *)
Lemma prime_dvd_odd_bin j p :
  prime p -> j.+1 < p -> p <= 2 * j + 1 -> p %| 'C(2 * j + 1, j).
Proof.
  move=> Hp Hlo Hhi.
  have Hj : j <= 2 * j + 1 by ssr_lia.
  have H := bin_fact Hj.
  have Hd : p %| (2 * j + 1)`! by rewrite prime_dvd_fact.
  rewrite -H (Euclid_dvdM _ _ Hp) (Euclid_dvdM _ _ Hp) !prime_dvd_fact // in Hd.
  case/orP: Hd => // /orP [Hd|Hd].
  - have : j < p by exact: ltnW. by rewrite ltnNge Hd.
  - have E : 2 * j + 1 - j = j.+1 by ssr_lia.
    rewrite E in Hd. by move: Hlo; rewrite ltnNge Hd.
Qed.

(** Legendre's formula, with the sum cut where the powers pass [m]. *)
Lemma sum_div_pow_cut p m a b :
  1 <= a -> a <= b -> (forall k, a <= k -> m %/ p ^ k = 0) ->
  \sum_(1 <= k < b) m %/ p ^ k = \sum_(1 <= k < a) m %/ p ^ k.
Proof.
  move=> Ha Hab Hzero. rewrite (@big_cat_nat _ _ _ a) //=.
  rewrite [X in _ + X]big_nat_cond [X in _ + X]big1 ?addn0 // => k /andP [/andP [Hk _] _].
  exact: Hzero.
Qed.

Lemma logn_fact_cut p m r :
  prime p -> m < p ^ r.+1 ->
  logn p m`! = \sum_(1 <= k < r.+1) m %/ p ^ k.
Proof.
  move=> Hp Hm. rewrite (logn_fact _ Hp).
  have Hp1 := prime_gt1 Hp.
  have Hz1 : forall k, m.+1 <= k -> m %/ p ^ k = 0.
  { move=> k Hk. apply: divn_small. apply: leq_trans Hk _. apply: ltnW.
    exact: ltn_expl. }
  have Hz2 : forall k, r.+1 <= k -> m %/ p ^ k = 0.
  { move=> k Hk. apply: divn_small. apply: leq_trans Hm _.
    by rewrite leq_exp2l. }
  case: (leqP m.+1 r.+1) => Hc.
  - by rewrite -(sum_div_pow_cut _ Hc Hz1).
  - by rewrite (sum_div_pow_cut _ (ltnW Hc) Hz2).
Qed.

Lemma logn_central p n r :
  prime p -> 2 * n < p ^ r.+1 ->
  logn p 'C(2 * n, n) + 2 * (\sum_(1 <= k < r.+1) n %/ p ^ k)
  = \sum_(1 <= k < r.+1) (2 * n) %/ p ^ k.
Proof.
  move=> Hp Hn.
  have Hn' : n < p ^ r.+1 by apply: leq_ltn_trans Hn; ssr_lia.
  have Hle : n <= 2 * n by ssr_lia.
  have H := bin_fact Hle.
  have E : 2 * n - n = n by ssr_lia.
  rewrite E in H.
  rewrite -(logn_fact_cut Hp Hn) -H -(logn_fact_cut Hp Hn').
  rewrite !lognM ?bin_gt0 ?fact_gt0 ?muln_gt0 ?fact_gt0 //.
  ssr_lia.
Qed.

Lemma div2_bound n d : 0 < d -> (2 * n) %/ d <= 2 * (n %/ d) + 1.
Proof.
  move=> Hd. rewrite -ltnS ltn_divLR //.
  have H := divn_eq n d. have Hr := ltn_pmod n Hd.
  move: H Hr. move: (n %/ d) (n %% d) => q r H Hr. ssr_nia.
Qed.

(** A prime power that divides the central coefficient is at most [2n]. *)
Lemma pfactor_central p n :
  prime p -> 0 < n -> p ^ logn p 'C(2 * n, n) <= 2 * n.
Proof.
  move=> Hp Hn. have Hp1 := prime_gt1 Hp.
  have H2n : 0 < 2 * n by ssr_lia.
  have /andP [Hlo Hhi] := trunc_log_bounds Hp1 H2n.
  set r := trunc_log p (2 * n) in Hlo Hhi.
  apply: leq_trans Hlo. rewrite leq_exp2l //.
  have H := logn_central Hp Hhi.
  have Hs : \sum_(1 <= k < r.+1) (2 * n) %/ p ^ k
            <= \sum_(1 <= k < r.+1) (2 * (n %/ p ^ k) + 1).
  { apply: leq_sum => k _. apply: div2_bound. by rewrite expn_gt0 prime_gt0. }
  rewrite big_split /= -big_distrr /= sum_nat_const_nat in Hs.
  move: H Hs.
  move: (logn p 'C(2 * n, n)) (\sum_(1 <= k < r.+1) n %/ p ^ k)
        (\sum_(1 <= k < r.+1) (2 * n) %/ p ^ k) => e sa sb H Hs.
  ssr_lia.
Qed.

(** A prime in [(2n/3, n]] does not divide the central coefficient. *)
Lemma logn_central_mid p n :
  prime p -> 2 < p -> p <= n -> 2 * n < 3 * p -> logn p 'C(2 * n, n) = 0.
Proof.
  move=> Hp Hp2 Hpn Hn3.
  have Hsq : 2 * n < p ^ 2.
  { rewrite expnS expn1. apply: leq_trans Hn3 _. by rewrite leq_mul2r Hp2 orbT. }
  have H := logn_central Hp Hsq.
  rewrite !big_nat1 expn1 in H.
  have Hp0 := prime_gt0 Hp.
  have E1 : n %/ p = 1.
  { apply/eqP. rewrite eqn_leq leq_divRL // mul1n Hpn andbT.
    rewrite -ltnS ltn_divLR //. ssr_lia. }
  have E2 : (2 * n) %/ p = 2.
  { have Hlo : 2 <= (2 * n) %/ p by rewrite leq_divRL //; ssr_lia.
    have Hhi : (2 * n) %/ p < 3 by rewrite ltn_divLR //.
    apply/eqP. by rewrite eqn_leq Hlo -ltnS Hhi. }
  rewrite E1 E2 in H. ssr_lia.
Qed.

(** *** The product of the primes up to [m] *)

Definition prime_factor (p : nat) : nat := if prime p then p else 1.

Definition primorial (m : nat) : nat := \prod_(0 <= p < m.+1) prime_factor p.

Lemma prime_factor_gt0 p : 0 < prime_factor p.
Proof. rewrite /prime_factor. case Hp: (prime p) => //. exact: prime_gt0. Qed.

Lemma prime_factor_prime p : prime p -> prime_factor p = p.
Proof. by rewrite /prime_factor => ->. Qed.

Lemma prime_factor_1 p : prime p = false -> prime_factor p = 1.
Proof. by rewrite /prime_factor => ->. Qed.

Lemma prod_primes_coprime a b q :
  prime q -> b <= q -> coprime (\prod_(a <= p < b) prime_factor p) q.
Proof.
  move=> Hq. elim: b => [|b IH] Hb.
  - by rewrite big_geq // coprime1n.
  - case: (leqP a b) => Hab; last by rewrite big_geq // coprime1n.
    rewrite big_nat_recr //= coprimeMl IH ?(ltnW Hb) //=.
    case Hp: (prime b); last by rewrite (prime_factor_1 Hp) coprime1n.
    rewrite (prime_factor_prime Hp) prime_coprime // dvdn_prime2 //.
    by rewrite neq_ltn Hb.
Qed.

Lemma prod_primes_dvd a b X :
  (forall p, a <= p < b -> prime p -> p %| X) ->
  \prod_(a <= p < b) prime_factor p %| X.
Proof.
  elim: b => [|b IH] H.
  - by rewrite big_geq // dvd1n.
  - case: (leqP a b) => Hab; last by rewrite big_geq // dvd1n.
    rewrite big_nat_recr //=.
    have HQ : \prod_(a <= p < b) prime_factor p %| X.
    { apply: IH => p /andP [H1 H2] Hp. apply: H => //.
      by rewrite H1 ltnS (ltnW H2). }
    case Hp: (prime b); last by rewrite (prime_factor_1 Hp) muln1.
    have Hc : coprime (\prod_(a <= p < b) prime_factor p) b
      by apply: prod_primes_coprime.
    rewrite (prime_factor_prime Hp) (Gauss_dvd _ Hc) HQ /=.
    apply: H => //. by rewrite Hab ltnSn.
Qed.

Lemma primorialS m : primorial m.+1 = primorial m * prime_factor m.+1.
Proof. by rewrite /primorial big_nat_recr. Qed.

Lemma even_not_prime m : 2 < m -> 2 %| m -> prime m = false.
Proof.
  move=> Hm Hd. apply/negP => Hp.
  move: Hd. rewrite dvdn_prime2 // => /eqP E. by rewrite -E in Hm.
Qed.

(** The product of the primes up to [m] is at most [4 ^ m]. *)
Lemma primorial_le m : primorial m <= 4 ^ m.
Proof.
  elim/ltn_ind: m => m IH.
  case: m IH => [|[|[|m]]] IH; try by rewrite /primorial unlock.
  case Hodd: (odd m.+3).
  - (* m + 3 = 2j + 1 with j >= 1 *)
    have HMj : m.+3 = 2 * (m.+3)./2 + 1.
    { by rewrite -{1}(odd_double_half m.+3) Hodd add1n addn1 mul2n. }
    move: HMj. move: (m.+3)./2 => j HMj.
    have Hj : 0 < j by move: HMj; case: j.
    have Hsplit : primorial (2 * j + 1)
      = primorial j.+1 * \prod_(j.+2 <= p < (2 * j + 1).+1) prime_factor p.
    { rewrite /primorial (@big_cat_nat _ _ _ j.+2) //=. ssr_lia. }
    have Hdvd : \prod_(j.+2 <= p < (2 * j + 1).+1) prime_factor p
                %| 'C(2 * j + 1, j).
    { apply: prod_primes_dvd => p /andP [H1 H2] Hp.
      exact: prime_dvd_odd_bin. }
    have Hbin : 0 < 'C(2 * j + 1, j) by rewrite bin_gt0; ssr_lia.
    have H1 := leq_trans (dvdn_leq Hbin Hdvd) (odd_bin_upper j).
    have H2 : primorial j.+1 <= 4 ^ j.+1 by apply: IH; rewrite HMj; ssr_lia.
    rewrite HMj Hsplit.
    have -> : 4 ^ (2 * j + 1) = 4 ^ j.+1 * 4 ^ j
      by rewrite -expnD; congr (_ ^ _); ssr_lia.
    exact: leq_mul.
  - (* m + 3 is even and above 2: not a prime *)
    have Hd : 2 %| m.+3 by rewrite dvdn2 Hodd.
    have HM : 2 < m.+3 by [].
    rewrite primorialS (prime_factor_1 (even_not_prime HM Hd)) muln1.
    apply: leq_trans (IH _ (ltnSn _)) _. by rewrite leq_exp2l.
Qed.

(** *** The central coefficient when no prime lies in [(n, 2n]] *)

Lemma dvdn_central_fact n : 'C(2 * n, n) %| (2 * n)`!.
Proof.
  have Hle : n <= 2 * n by ssr_lia.
  by rewrite -(bin_fact Hle) dvdn_mulr.
Qed.

Lemma central_bin_no_prime n T :
  0 < n -> 2 < T -> 2 * n < T * T ->
  (forall p, prime p -> n < p -> p <= 2 * n -> False) ->
  'C(2 * n, n) <= (2 * n) ^ T * 4 ^ ((2 * n) %/ 3).
Proof.
  move=> Hn HT HTT Hnone.
  set N := 'C(2 * n, n). set m := (2 * n) %/ 3.
  have HN : 0 < N by rewrite bin_gt0; ssr_lia.
  have H2n : 0 < 2 * n by ssr_lia.
  pose g p := if p < T then 2 * n else 1.
  pose h p := if p < m.+1 then prime_factor p else 1.
  have Hg p : 0 < g p by rewrite /g; case: (p < T).
  have Hh p : 0 < h p by rewrite /h; case: (p < m.+1) => //; exact: prime_factor_gt0.
  have Hterm p : p ^ logn p N <= g p * h p.
  { case Hp: (prime p); last first.
    { rewrite lognE Hp /= ?expn0. by rewrite muln_gt0 Hg Hh. }
    have He := pfactor_central Hp Hn. rewrite -/N in He.
    have Hp1 := prime_gt1 Hp.
    case HpT: (p < T).
    { rewrite /g HpT. apply: leq_trans He _. by rewrite leq_pmulr. }
    move/negbT: HpT; rewrite -leqNgt => HpT.
    rewrite /g ltnNge HpT /= mul1n.
    have He2 : logn p N < 2.
    { rewrite -(ltn_exp2l _ _ Hp1). apply: leq_ltn_trans He _.
      apply: leq_trans HTT _. rewrite expnS expn1. exact: leq_mul. }
    case He1: (logn p N) He2 => [|[|e]] // _.
    rewrite expn1.
    have Hmem : p \in primes N by rewrite -logn_gt0 He1.
    rewrite mem_primes in Hmem. case/and3P: Hmem => _ _ HpN.
    have Hp2n : p <= 2 * n.
    { rewrite -(prime_dvd_fact _ Hp). exact: dvdn_trans HpN (dvdn_central_fact n). }
    have Hpn : p <= n.
    { rewrite leqNgt. apply/negP => Hlt. exact: (Hnone p Hp Hlt Hp2n). }
    have H3 : 3 * p <= 2 * n.
    { rewrite leqNgt. apply/negP => Hlt.
      have := logn_central_mid Hp (leq_trans HT HpT) Hpn Hlt.
      by rewrite -/N He1. }
    have Hpm : p < m.+1 by rewrite ltnS /m leq_divRL // mulnC.
    by rewrite /h Hpm (prime_factor_prime Hp). }
  set M := N + T + 2 * n.
  have HNM : N <= M by rewrite /M; ssr_lia.
  have E : N = \prod_(0 <= p < M.+1) p ^ logn p N.
  { rewrite -{1}(partnT HN) (widen_partn _ HNM). exact: eq_bigl. }
  have Eg : \prod_(0 <= p < M.+1) g p = (2 * n) ^ T.
  { rewrite /g -big_mkcond /=.
    have HTM : T <= M.+1 by rewrite /M; ssr_lia.
    have -> : (2 * n) ^ T = \prod_(0 <= p < T) (2 * n)
      by rewrite prod_nat_const_nat subn0.
    rewrite (@big_nat_widen _ _ _ 0 _ _ predT _ HTM).
    exact: eq_bigl. }
  have Eh : \prod_(0 <= p < M.+1) h p = primorial m.
  { rewrite /h -big_mkcond /=.
    have HmM : m.+1 <= M.+1.
    { rewrite ltnS /M /m. apply: leq_trans (leq_div _ _) _. ssr_lia. }
    rewrite /primorial (@big_nat_widen _ _ _ 0 _ _ predT _ HmM).
    exact: eq_bigl. }
  rewrite {1}E.
  apply: leq_trans (_ : \prod_(0 <= p < M.+1) (g p * h p) <= _).
  { apply: leq_prod => p _. exact: Hterm. }
  rewrite big_split /= Eg Eh leq_mul2l primorial_le. by rewrite orbT.
Qed.

(** *** Bertrand's postulate *)

Lemma pow2_linear t : 8 <= t -> 24 * t + 24 <= 2 ^ t.
Proof.
  elim: t => // t IH. rewrite leq_eqVlt => /orP [/eqP <-|Ht] //.
  have := IH Ht. rewrite expnS. move: (2 ^ t) => e He. ssr_lia.
Qed.

Lemma bertrand_large n :
  2 ^ 13 <= n -> exists2 p, prime p & n < p <= 2 * n.
Proof.
  move=> Hbig.
  have Hn : 0 < n by apply: leq_trans Hbig; rewrite expn_gt0.
  case Hhas: (has prime (index_iota n.+1 (2 * n).+1)).
  { case/hasP: Hhas => p. rewrite mem_index_iota ltnS => Hr Hp. by exists p. }
  exfalso.
  have Hnone p : prime p -> n < p -> p <= 2 * n -> False.
  { move=> Hp H1 H2. move/hasPn: Hhas => /(_ p).
    rewrite mem_index_iota ltnS H1 H2 Hp. by move=> /(_ isT). }
  have H2n : 0 < 2 * n by ssr_lia.
  have /andP [Hklo Hkhi] := trunc_log_bounds (isT : 1 < 2) H2n.
  set k := trunc_log 2 (2 * n) in Hklo Hkhi.
  have Hk14 : 14 <= k.
  { apply: trunc_log_max => //. rewrite expnS leq_mul2l /=. exact: Hbig. }
  pose t := (k./2).+1. pose T := 2 ^ t.
  have Hk2 : k = odd k + 2 * k./2 by rewrite -{1}(odd_double_half k) mul2n.
  have Ht1 : k.+1 <= 2 * t.
  { rewrite /t {1}Hk2. case: (odd k) => /=; ssr_lia. }
  have Ht2 : 2 * t <= k.+2.
  { rewrite /t {2}Hk2. case: (odd k) => /=; ssr_lia. }
  have Ht8 : 8 <= t.
  { rewrite /t. move: Hk14. rewrite {1}Hk2.
    case: (odd k) => /=; move: (k./2) => hk H; ssr_lia. }
  have HTT : T * T = 2 ^ (2 * t) by rewrite /T -expnD; congr (_ ^ _); ssr_lia.
  have HTlo : 2 * n < T * T.
  { rewrite HTT. apply: leq_trans Hkhi _. by rewrite leq_exp2l. }
  have HThi : T * T <= 8 * n.
  { rewrite HTT. apply: leq_trans (_ : 2 ^ k.+2 <= _); first by rewrite leq_exp2l.
    rewrite !expnS. move: Hklo. move: (2 ^ k) => e He. ssr_lia. }
  have HTlin : 24 * t + 24 <= T by exact: pow2_linear.
  have HT2 : 2 < T by apply: leq_trans HTlin; ssr_lia.
  have H1 := central_bin_lower Hn.
  have H2 := central_bin_no_prime Hn HT2 HTlo Hnone.
  set m := (2 * n) %/ 3 in H2.
  have Hm : 3 * m <= 2 * n by rewrite mulnC; exact: leq_trunc_div.
  have H3 : 4 ^ n <= (2 * n) ^ T.+1 * 4 ^ m.
  { apply: leq_trans H1 _. rewrite expnS -[X in _ <= X]mulnA leq_mul2l.
    by rewrite H2 orbT. }
  have H4 : 4 ^ n * 4 ^ (2 * n) <= (2 * n) ^ (3 * T.+1) * 4 ^ (2 * n).
  { have -> : 4 ^ n * 4 ^ (2 * n) = (4 ^ n) ^ 3.
    { rewrite -expnD -expnM. congr (_ ^ _). ssr_lia. }
    apply: leq_trans (_ : ((2 * n) ^ T.+1 * 4 ^ m) ^ 3 <= _).
    { by rewrite leq_exp2r. }
    rewrite expnMn -!expnM (mulnC T.+1) leq_mul2l. apply/orP; right.
    rewrite leq_exp2l // mulnC. exact: Hm. }
  rewrite leq_mul2r expn_eq0 /= in H4.
  have H5 : 2 ^ (2 * n) < 2 ^ (2 * t * (3 * T.+1)).
  { have -> : 2 ^ (2 * n) = 4 ^ n by rewrite expnM.
    apply: leq_ltn_trans H4 _. rewrite [X in _ < X]expnM -HTT.
    by rewrite ltn_exp2r. }
  rewrite ltn_exp2l // in H5.
  move: H5 HThi HTlin. rewrite /T. move: (2 ^ t) => T'.
  rewrite /t. move: (k./2).+1 => t' H5 HThi HTlin.
  clear -H5 HThi HTlin. ssr_nia.
Qed.

Lemma bertrand_step a b n :
  prime b -> b <= 2 * a -> a <= n -> n < b ->
  exists2 p, prime p & n < p <= 2 * n.
Proof.
  move=> Hb Hba Han Hnb. exists b => //. rewrite Hnb /=.
  apply: leq_trans Hba _. by rewrite leq_mul2l.
Qed.

Lemma bertrand_small n :
  0 < n -> n < 2 ^ 13 -> exists2 p, prime p & n < p <= 2 * n.
Proof.
  move=> Hn Hsmall.
  have C a b : prime b -> b <= 2 * a -> a <= n ->
               (b <= n -> exists2 p, prime p & n < p <= 2 * n) ->
               exists2 p, prime p & n < p <= 2 * n.
  { move=> Hb Hba Han Hnext. case: (leqP b n) => Hbn; first exact: Hnext.
    exact: bertrand_step Hb Hba Han Hbn. }
  apply: (C 1 2) => // H2. apply: (C 2 3) => // H3. apply: (C 3 5) => // H5.
  apply: (C 5 7) => // H7. apply: (C 7 13) => // H13.
  apply: (C 13 23) => // H23. apply: (C 23 43) => // H43.
  apply: (C 43 83) => // H83. apply: (C 83 163) => // H163.
  apply: (C 163 317) => // H317. apply: (C 317 631) => // H631.
  apply: (C 631 1259) => // H1259. apply: (C 1259 2503) => // H2503.
  apply: (C 2503 4999) => // H4999. apply: (C 4999 (2 ^ 13 + 17)) => //.
  move=> Hlast. exfalso. move: (leq_ltn_trans Hlast Hsmall).
  by rewrite ltnNge leq_addr.
Qed.

(** Bertrand's postulate: there is a prime in [(n, 2n]]. *)
Theorem bertrand n : 0 < n -> exists2 p, prime p & n < p <= 2 * n.
Proof.
  move=> Hn. case: (leqP (2 ^ 13) n) => H.
  - exact: bertrand_large.
  - exact: bertrand_small.
Qed.

(** *** Back to the primality and divisibility of the Standard Library *)

Lemma dvdn_divide d n : (d %| n) <-> Nat.divide d n.
Proof.
  split.
  - move/dvdnP => [k ->]. by exists k.
  - move=> [k ->]. by rewrite dvdn_mull.
Qed.

Lemma prime_natP p : prime_nat p <-> prime p.
Proof.
  split.
  - move=> [H2 Hd]. apply/primeP. split; first exact/leP.
    move=> d /dvdn_divide /Hd [->|->]; by rewrite /= ?eqxx ?orbT.
  - move/primeP => [H1 Hd]. split; first exact/leP.
    move=> d /dvdn_divide /Hd /orP [/eqP ->|/eqP ->]; by [left | right].
Qed.

(** The largest prime below [n] does not divide [n]: otherwise [n] would be at
    least twice that prime, and a prime would lie in between. *)
Lemma largest_prime_not_divisor n p :
  prime_nat p -> (p < n)%coq_nat ->
  (forall q, (p < q)%coq_nat -> (q < n)%coq_nat -> ~ prime_nat q) ->
  ~ Nat.divide p n.
Proof.
  move=> /prime_natP Hp /ltP Hpn Hnone /dvdn_divide Hdiv.
  have Hp0 := prime_gt0 Hp. have Hp1 := prime_gt1 Hp.
  have H2p : 2 * p <= n.
  { case/dvdnP: Hdiv => k Hk. move: Hpn. rewrite Hk.
    case: k {Hk} => [|[|k]]; rewrite ?mul0n ?mul1n ?ltnn //.
    move=> _. by rewrite leq_mul2r orbC. }
  have [q Hq /andP [Hpq Hq2p]] := bertrand Hp0.
  have Hne : q != 2 * p.
  { apply/eqP => E. move: Hq. rewrite E => H2p'.
    have : 2 %| 2 * p by rewrite dvdn_mulr.
    rewrite dvdn_prime2 // => /eqP E2.
    move: Hp1. rewrite -(ltn_pmul2l (isT : 0 < 2)) -E2. by []. }
  have Hqn : q < n.
  { apply: leq_trans H2p. by rewrite ltn_neqAle Hne Hq2p. }
  apply: (Hnone q); [exact/ltP | exact/ltP | exact/prime_natP].
Qed.

End NumberTheory.

(** ** The distribution sequence has no repetition *)

Section DistributionUnique.

Lemma findLargePrime_not_divisor total :
  3 <= total -> ~ Nat.divide (findLargePrime total) total.
Proof.
  intros H3. destruct (findLargePrime_largest total H3) as (Hlt & Hp & Hmax).
  apply NumberTheory.largest_prime_not_divisor; [exact Hp | exact Hlt |].
  intros q H1 H2. apply Hmax. lia.
Qed.

Lemma findLargePrime_coprime total :
  3 <= total -> Nat.gcd total (findLargePrime total) = 1.
Proof.
  intros H3. pose proof (findLargePrime_not_divisor total H3) as Hnd.
  destruct (findLargePrime_prime total) as [_ Hdiv].
  destruct (Hdiv (Nat.gcd total (findLargePrime total)) (Nat.gcd_divide_r _ _))
    as [H|H]; [exact H|].
  exfalso. apply Hnd. rewrite <- H. apply Nat.gcd_divide_l.
Qed.

(** Multiplication by a number coprime to [total] is one-to-one modulo
    [total]. *)
Lemma mul_mod_inj p total i j :
  Nat.gcd total p = 1 -> i < j -> j < total ->
  (i * p) mod total <> (j * p) mod total.
Proof.
  intros Hg Hij Hj Heq.
  assert (Hdiv : Nat.divide total (p * (j - i))).
  { apply Nat.Lcm0.mod_divide.
    replace (p * (j - i)) with (j * p - i * p) by nia.
    pose proof (Nat.div_mod_eq (j * p) total) as Ej.
    pose proof (Nat.div_mod_eq (i * p) total) as Ei.
    rewrite <- Heq in Ej.
    assert (Hle : i * p <= j * p) by nia.
    replace (j * p - i * p)
      with ((j * p / total - i * p / total) * total).
    - apply Nat.Div0.mod_mul.
    - assert (i * p / total <= j * p / total)
        by (apply Nat.Div0.div_le_mono; exact Hle).
      nia. }
  apply Nat.gauss in Hdiv; [|exact Hg].
  apply Nat.divide_pos_le in Hdiv; lia.
Qed.

Lemma distribution_NoDup need total :
  need <= total -> 3 <= total ->
  NoDup (distribution_loop need (findLargePrime total) total 0).
Proof.
  intros Hle H3. apply (NoDup_nth _ 0). intros i j Hi Hj Heq.
  rewrite distribution_loop_length in Hi, Hj.
  rewrite !distribution_loop_nth in Heq by lia. cbn [Nat.add] in Heq.
  pose proof (findLargePrime_coprime total H3) as Hg.
  destruct (Nat.lt_trichotomy i j) as [Hlt|[Heq'|Hgt]]; [|exact Heq'|].
  - exfalso. exact (mul_mod_inj _ _ i j Hg Hlt ltac:(lia) Heq).
  - exfalso. exact (mul_mod_inj _ _ j i Hg Hgt ltac:(lia) (eq_sym Heq)).
Qed.

(** C2, amended. For all [need <= total] with [total] other than 2, the
    entries of [generateDistributionPattern need total] are pairwise
    distinct. *)
Theorem distribution_pattern_unique (need total : nat) :
  need <= total -> total <> 2 ->
  exists idx, generateDistributionPattern need total = Ok idx /\ NoDup idx.
Proof.
  intros Hle H2. unfold generateDistributionPattern.
  replace (total <? need) with false by (symmetry; apply Nat.ltb_ge; exact Hle).
  eexists. split; [reflexivity|].
  destruct (Nat.le_gt_cases 3 total) as [H3|Hsmall].
  - apply distribution_NoDup; assumption.
  - assert (Hneed : need <= 1) by lia.
    destruct need as [|[|need]]; [constructor | | lia].
    cbn [distribution_loop]. constructor; [intros []|constructor].
Qed.

Lemma distribution_pattern_unique_witness :
  exists idx, generateDistributionPattern 5 10 = Ok idx /\ NoDup idx.
Proof.
  apply (distribution_pattern_unique 5 10); lia.
Defined.

End DistributionUnique.

(** ** The flippable modules of a symbol *)

Section Flippable.

(** [isFunctionPattern] reads the size and the version of the matrix only. *)
Definition shape (size version : nat) : QRMatrix :=
  {| size := size; modules := []; version := version;
     errorCorrectionLevel := EC.H; maskPattern := 0;
     flippedModuleCount := None |}.

Lemma isFunctionPattern_shape x y qr :
  isFunctionPattern x y qr = isFunctionPattern x y (shape (size qr) (version qr)).
Proof. reflexivity. Qed.

(** The cells that are not function patterns, as (x, y), row by row. *)
Definition row_cells (size version y : nat) (xs : list nat) : list (nat * nat) :=
  flat_map (fun x => if isFunctionPattern x y (shape size version) then []
                     else [(x, y)]) xs.

Definition flippable_cells (size version : nat) : list (nat * nat) :=
  flat_map (fun y => row_cells size version y (seq 0 size)) (seq 0 size).

(** The cells with their rank in the list: [index: flippable.length]. *)
Fixpoint number_cells (start : nat) (cells : list (nat * nat))
  : list ModulePosition :=
  match cells with
  | [] => []
  | (x, y) :: cells' =>
      {| px := x; py := y; index := start |} :: number_cells (S start) cells'
  end.

Definition flippable_positions (size version : nat) : list ModulePosition :=
  number_cells 0 (flippable_cells size version).

Lemma number_cells_app start l1 l2 :
  number_cells start (l1 ++ l2)
  = number_cells start l1 ++ number_cells (start + length l1) l2.
Proof.
  revert start. induction l1 as [|[x y] l1 IH]; intros start; cbn [number_cells app length].
  - rewrite Nat.add_0_r. reflexivity.
  - rewrite IH. do 3 f_equal. lia.
Qed.

Lemma number_cells_length start l : length (number_cells start l) = length l.
Proof.
  revert start. induction l as [|[x y] l IH]; intros start; cbn [number_cells length];
    [reflexivity|]. rewrite IH. reflexivity.
Qed.

Lemma number_cells_nth_error start l i :
  nth_error (number_cells start l) i
  = match nth_error l i with
    | Some (x, y) => Some {| px := x; py := y; index := start + i |}
    | None => None
    end.
Proof.
  revert start i. induction l as [|[x y] l IH]; intros start [|i]; cbn; try reflexivity.
  - rewrite Nat.add_0_r. reflexivity.
  - rewrite IH. destruct (nth_error l i) as [[x' y']|]; [|reflexivity].
    do 2 f_equal. lia.
Qed.

Lemma nth_error_map_seq {A : Type} (f : nat -> A) n i :
  i < n -> nth_error (map f (seq 0 n)) i = Some (f i).
Proof.
  intros Hi. rewrite nth_error_map, nth_error_nth' with (d := 0)
    by (rewrite length_seq; exact Hi).
  rewrite seq_nth by exact Hi. reflexivity.
Qed.

(** The module at (x, y) of a matrix that has one there. *)
Definition module_at (modules : list (list QRModule)) (x y : nat)
  : result QRModule :=
  match nth_error modules y with
  | None => Err TypeError
  | Some row =>
      match nth_error row x with
      | None => Err TypeError
      | Some module => Ok module
      end
  end.

(** A matrix whose modules carry their own coordinates, and whose modules
    outside the function patterns are data codewords. *)
Definition regular (qr : QRMatrix) : Prop :=
  forall x y, x < size qr -> y < size qr ->
    exists module,
      module_at (modules qr) x y = Ok module
      /\ mx module = x /\ my module = y
      /\ (isFunctionPattern x y qr = false -> type module = DATA_CODEWORD).

Lemma identify_row qr y xs : regular qr -> y < size qr ->
  (forall x, In x xs -> x < size qr) ->
  forall flippable,
    for_each xs (identify_cell qr y) flippable
    = Ok (flippable
          ++ number_cells (length flippable)
               (row_cells (size qr) (version qr) y xs)).
Proof.
  intros Hreg Hy. induction xs as [|x xs IH]; intros Hxs flippable.
  - cbn. rewrite app_nil_r. reflexivity.
  - cbn [for_each row_cells flat_map].
    destruct (Hreg x y (Hxs x (or_introl eq_refl)) Hy) as (module & Hat & Hmx & Hmy & Hty).
    unfold module_at in Hat.
    destruct (nth_error (modules qr) y) as [row|] eqn:Hrow; [|discriminate].
    destruct (nth_error row x) as [module'|] eqn:Hmod; [|discriminate].
    injection Hat as ->.
    unfold identify_cell at 1. rewrite Hrow, Hmod. cbv zeta.
    rewrite <- isFunctionPattern_shape.
    destruct (isFunctionPattern x y qr) eqn:Hfun.
    + cbn [bind app]. apply IH. intros x' Hx'. apply Hxs. right. exact Hx'.
    + rewrite (Hty eq_refl). cbn [ModuleType_eqb bind app number_cells].
      rewrite IH by (intros x' Hx'; apply Hxs; right; exact Hx').
      rewrite <- app_assoc, length_app, Hmx, Hmy. cbn [length app].
      rewrite Nat.add_1_r. reflexivity.
Qed.

Lemma identify_rows qr ys : regular qr ->
  (forall y, In y ys -> y < size qr) ->
  forall flippable,
    for_each ys
      (fun y flippable =>
         for_each (seq 0 (size qr)) (fun x => identify_cell qr y x) flippable)
      flippable
    = Ok (flippable
          ++ number_cells (length flippable)
               (flat_map (fun y => row_cells (size qr) (version qr) y
                                     (seq 0 (size qr))) ys)).
Proof.
  intros Hreg. induction ys as [|y ys IH]; intros Hys flippable.
  - cbn. rewrite app_nil_r. reflexivity.
  - cbn [for_each flat_map].
    rewrite (identify_row qr y (seq 0 (size qr)) Hreg (Hys y (or_introl eq_refl)))
      by (intros x Hx; apply in_seq in Hx; lia).
    cbn [bind]. rewrite IH by (intros y' Hy'; apply Hys; right; exact Hy').
    rewrite <- app_assoc, number_cells_app, length_app, number_cells_length.
    reflexivity.
Qed.

(** [identifyFlippableModules] lists the cells outside the function patterns
    in row-major order, each with its rank. *)
Lemma identifyFlippableModules_regular qr :
  regular qr ->
  identifyFlippableModules qr
  = Ok (flippable_positions (size qr) (version qr)).
Proof.
  intros Hreg. unfold identifyFlippableModules.
  rewrite (identify_rows qr (seq 0 (size qr)) Hreg)
    by (intros y Hy; apply in_seq in Hy; lia).
  reflexivity.
Qed.

End Flippable.

(** ** The list of flippable cells *)

Section FlippableCells.

Lemma in_row_cells size version y xs x y' :
  In (x, y') (row_cells size version y xs)
  <-> In x xs /\ y' = y /\ isFunctionPattern x y (shape size version) = false.
Proof.
  unfold row_cells. rewrite in_flat_map. split.
  - intros (x0 & Hx0 & Hin).
    destruct (isFunctionPattern x0 y (shape size version)) eqn:Hf; [destruct Hin|].
    destruct Hin as [[= <- <-]|[]]. auto.
  - intros (Hx & -> & Hf). exists x. split; [exact Hx|]. rewrite Hf. left. reflexivity.
Qed.

Lemma in_flippable_cells size version x y :
  In (x, y) (flippable_cells size version)
  <-> x < size /\ y < size /\ isFunctionPattern x y (shape size version) = false.
Proof.
  unfold flippable_cells. rewrite in_flat_map. split.
  - intros (y0 & Hy0 & Hin). apply in_row_cells in Hin as (Hx & -> & Hf).
    apply in_seq in Hx, Hy0. repeat split; [lia | lia | exact Hf].
  - intros (Hx & Hy & Hf). exists y. split; [apply in_seq; lia|].
    apply in_row_cells. repeat split; [apply in_seq; lia | exact Hf].
Qed.

Lemma NoDup_flat_map {A B : Type} (f : A -> list B) (l : list A) :
  NoDup l -> (forall a, In a l -> NoDup (f a)) ->
  (forall a a' b, In a l -> In a' l -> In b (f a) -> In b (f a') -> a = a') ->
  NoDup (flat_map f l).
Proof.
  induction l as [|a l IH]; intros Hl Hf Hdisj; cbn [flat_map]; [constructor|].
  inversion Hl as [|? ? Ha Hl']; subst.
  apply NoDup_app.
  - apply Hf. left. reflexivity.
  - apply IH; [exact Hl' | intros; apply Hf; right; assumption |].
    intros a1 a2 b H1 H2. apply Hdisj; right; assumption.
  - intros b Hb Hb'. apply in_flat_map in Hb' as (a' & Ha' & Hb').
    assert (a = a') by (apply (Hdisj a a' b); [left; reflexivity | right; exact Ha' | exact Hb | exact Hb']).
    subst a'. contradiction.
Qed.

Lemma flippable_cells_NoDup size version : NoDup (flippable_cells size version).
Proof.
  unfold flippable_cells. apply NoDup_flat_map.
  - apply seq_NoDup.
  - intros y _. unfold row_cells. apply NoDup_flat_map.
    + apply seq_NoDup.
    + intros x _. destruct (isFunctionPattern x y (shape size version));
        [constructor|]. constructor; [intros []|constructor].
    + intros x x' [x0 y0] _ _ H1 H2.
      destruct (isFunctionPattern x y (shape size version)); [destruct H1|].
      destruct (isFunctionPattern x' y (shape size version)); [destruct H2|].
      destruct H1 as [[= <- <-]|[]]. destruct H2 as [[= <-]|[]]. reflexivity.
  - intros y y' [x0 y0] _ _ H1 H2.
    apply in_row_cells in H1 as (_ & <- & _).
    apply in_row_cells in H2 as (_ & <- & _). reflexivity.
Qed.

Lemma row_cells_length size version y xs :
  length (row_cells size version y xs) <= length xs.
Proof.
  induction xs as [|x xs IH]; [apply Nat.le_refl|].
  cbn [row_cells flat_map length]. rewrite length_app.
  fold (row_cells size version y xs).
  destruct (isFunctionPattern x y (shape size version)); cbn [length]; lia.
Qed.

Lemma flippable_cells_length size version :
  length (flippable_cells size version) <= size * size.
Proof.
  unfold flippable_cells.
  assert (H : forall ys, length (flat_map (fun y => row_cells size version y (seq 0 size)) ys)
                         <= length ys * size).
  { induction ys as [|y ys IH]; [apply Nat.le_refl|].
    cbn [flat_map length]. rewrite length_app.
    pose proof (row_cells_length size version y (seq 0 size)) as Hr.
    rewrite length_seq in Hr. lia. }
  specialize (H (seq 0 size)). rewrite length_seq in H. exact H.
Qed.

End FlippableCells.


(** ** Counting the flippable cells *)

Section Count.

(** Runs of cells along a row, or of rows: how many, and how many flippable
    cells each contributes. *)
Fixpoint runs_length (runs : list (nat * nat)) : nat :=
  match runs with
  | [] => 0
  | (n, _) :: runs' => n + runs_length runs'
  end.

Fixpoint runs_count (runs : list (nat * nat)) : nat :=
  match runs with
  | [] => 0
  | (n, c) :: runs' => n * c + runs_count runs'
  end.

(** From [a] on, every element of a run contributes the run's count. *)
Fixpoint runs_hold {A : Type} (g : nat -> list A) (a : nat)
    (runs : list (nat * nat)) : Prop :=
  match runs with
  | [] => True
  | (n, c) :: runs' =>
      (forall i, a <= i < a + n -> length (g i) = c) /\ runs_hold g (a + n) runs'
  end.

Lemma flat_map_runs {A : Type} (g : nat -> list A) runs : forall a,
  runs_hold g a runs ->
  length (flat_map g (seq a (runs_length runs))) = runs_count runs.
Proof.
  induction runs as [|[n c] runs IH]; intros a Hruns; [reflexivity|].
  cbn [runs_length runs_count runs_hold] in *. destruct Hruns as [Hn Hrest].
  rewrite seq_app, flat_map_app, length_app, (IH _ Hrest). f_equal.
  clear IH Hrest. revert a Hn. induction n as [|n IHn]; intros a Hn; [reflexivity|].
  cbn [seq flat_map]. rewrite length_app, (Hn a) by lia.
  rewrite IHn by (intros i Hi; apply Hn; lia). reflexivity.
Qed.

Lemma ALIGNMENT_PATTERN_POSITIONS_none version :
  8 <= version -> ALIGNMENT_PATTERN_POSITIONS version = None.
Proof.
  intros Hv. do 8 (destruct version as [|version]; [lia|]). reflexivity.
Qed.

End Count.

(** Decides [isFunctionPattern] at a cell from bounds on its coordinates. *)
Ltac function_pattern_cases :=
  repeat match goal with
  | |- context [(?a >=? ?b)%Z] => rewrite (Z.geb_leb a b)
  | |- context [(?a <? ?b)%Z] => destruct (Z.ltb_spec a b); try (exfalso; lia)
  | |- context [(?a <=? ?b)%Z] => destruct (Z.leb_spec a b); try (exfalso; lia)
  | |- context [(?a =? ?b)%Z] => destruct (Z.eqb_spec a b); try (exfalso; lia)
  end;
  try reflexivity.

Ltac function_pattern v Hv :=
  unfold isFunctionPattern, isInFinderPattern, isInTimingPattern,
    isInAlignmentPattern, isInFormatInfo, isInVersionInfo;
  cbn [size version shape];
  rewrite (ALIGNMENT_PATTERN_POSITIONS_none v Hv);
  function_pattern_cases.

Section LargeVersions.

Variable version : nat.
Hypothesis large : 8 <= version.

Let sz : nat := 17 + 4 * version.

(** A cell is one flippable cell or none. *)
Definition cell_cells (y x : nat) : list (nat * nat) :=
  if isFunctionPattern x y (shape (17 + 4 * version) version) then []
  else [(x, y)].

Lemma row_runs y runs :
  runs_length runs = sz -> runs_hold (cell_cells y) 0 runs ->
  length (row_cells sz version y (seq 0 sz)) = runs_count runs.
Proof.
  intros Hlen Hruns. rewrite <- Hlen at 2.
  apply (flat_map_runs (cell_cells y) runs 0 Hruns).
Qed.

Ltac row_class runs :=
  let x := fresh "x" in
  let Hx := fresh "Hx" in
  rewrite (row_runs _ runs);
  [ cbn [runs_count]; lia
  | cbn [runs_length]; unfold sz; lia
  | cbn [runs_hold]; unfold cell_cells;
    repeat split; intros x Hx; unfold sz in *;
    function_pattern version large ].

(** Rows 0 to 5: between the finder patterns, short of the version block. *)
Lemma rows_top y : y < 6 ->
  length (row_cells sz version y (seq 0 sz)) = sz - 20.
Proof. intros Hy. row_class [(9, 0); (sz - 20, 1); (11, 0)]. Qed.

(** Row 6 is the timing pattern. *)
Lemma row_timing : length (row_cells sz version 6 (seq 0 sz)) = 0.
Proof. row_class [(sz, 0)]. Qed.

(** Rows 7 and 8: between the finder patterns. *)
Lemma rows_format y : 7 <= y < 9 ->
  length (row_cells sz version y (seq 0 sz)) = sz - 17.
Proof. intros Hy. row_class [(9, 0); (sz - 17, 1); (8, 0)]. Qed.

(** The rows in between: all but the timing column. *)
Lemma rows_middle y : 9 <= y < sz - 11 ->
  length (row_cells sz version y (seq 0 sz)) = sz - 1.
Proof. intros Hy. row_class [(6, 1); (1, 0); (sz - 7, 1)]. Qed.

(** The three rows of the lower version block. *)
Lemma rows_version y : sz - 11 <= y < sz - 8 ->
  length (row_cells sz version y (seq 0 sz)) = sz - 7.
Proof. intros Hy. row_class [(7, 0); (sz - 7, 1)]. Qed.

(** The rows beside the lower finder pattern. *)
Lemma rows_bottom y : sz - 8 <= y < sz ->
  length (row_cells sz version y (seq 0 sz)) = sz - 9.
Proof. intros Hy. row_class [(9, 0); (sz - 9, 1)]. Qed.

(** The number of flippable cells of a symbol of version 8 or more. *)
Definition large_count (size : nat) : nat :=
  6 * (size - 20) + 1 * 0 + 2 * (size - 17) + (size - 20) * (size - 1)
  + 3 * (size - 7) + 8 * (size - 9).

Lemma flippable_count_large :
  length (flippable_cells sz version) = large_count sz.
Proof.
  unfold flippable_cells.
  transitivity
    (runs_count [(6, sz - 20); (1, 0); (2, sz - 17); (sz - 20, sz - 1);
                 (3, sz - 7); (8, sz - 9)]);
    [|unfold large_count; cbn [runs_count]; lia].
  replace (seq 0 sz)
    with (seq 0 (runs_length [(6, sz - 20); (1, 0); (2, sz - 17);
                              (sz - 20, sz - 1); (3, sz - 7); (8, sz - 9)]))
    at 1 by (f_equal; cbn [runs_length]; unfold sz; lia).
  apply flat_map_runs. cbn [runs_hold].
  repeat split; intros y Hy.
  - apply rows_top. lia.
  - replace y with 6 by lia. apply row_timing.
  - apply rows_format. lia.
  - apply rows_middle. unfold sz in *. lia.
  - apply rows_version. unfold sz in *. lia.
  - apply rows_bottom. unfold sz in *. lia.
Qed.

End LargeVersions.

(** The number of flippable cells of each version. *)
Definition flippable_count (version : nat) : nat :=
  match version with
  | 1 => 208
  | 2 => 351
  | 3 => 559
  | 4 => 799
  | 5 => 1071
  | 6 => 1375
  | 7 => 1564
  | _ => large_count (17 + 4 * version)
  end.

Lemma small_counts :
  forallb (fun v => length (flippable_cells (17 + 4 * v) v) =? flippable_count v)
          (seq 1 7) = true.
Proof. vm_compute. reflexivity. Qed.

Lemma flippable_count_spec version :
  1 <= version ->
  length (flippable_cells (17 + 4 * version) version) = flippable_count version.
Proof.
  intros Hv. destruct (Nat.le_gt_cases 8 version) as [Hlarge|Hsmall].
  - rewrite (flippable_count_large version Hlarge).
    do 8 (destruct version as [|version]; [lia|]). reflexivity.
  - apply Nat.eqb_eq.
    apply (proj1 (forallb_forall _ _) small_counts version).
    apply in_seq. lia.
Qed.

(** ** The capacity model at the default safety margin *)

Section Capacity.

(** [calculateMaxCapacity] reads the number of flippable modules only. *)
Definition capacity_of_count (count : Z) (safetyMargin : float) : float :=
  let targetFlips :=
    Num.Math_floor (PrimFloat.mul (Num.of_Z count) safetyMargin) in
  Num.Math_max PrimFloat.zero
    (Num.Math_floor (PrimFloat.div targetFlips BIT_DENSITY)).

Lemma calculateMaxCapacity_count flippableModules ecLevel safetyMargin :
  calculateMaxCapacity flippableModules ecLevel safetyMargin
  = capacity_of_count (Z.of_nat (length flippableModules)) safetyMargin.
Proof. reflexivity. Qed.

(** The last steps of [getCapacity]. *)
Definition byte_capacity (totalBits : float) : float :=
  Num.Math_max PrimFloat.zero
    (Num.Math_floor
       (PrimFloat.div (PrimFloat.sub totalBits (Num.of_Z 32)) (Num.of_Z 8))).

(** For a version: the bit capacity is an integer [m] between 1 and the
    number of flippable cells, and the byte capacity is
    [max 0 ((m - 32) / 8)]. *)
Definition version_ok (version : nat) : bool :=
  let count := Z.of_nat (flippable_count version) in
  let maxBits := capacity_of_count count DEFAULT_SAFETY_MARGIN in
  match Num.int_value maxBits, Num.int_value (byte_capacity maxBits) with
  | Some m, Some c =>
      (1 <=? m)%Z && (m <=? count)%Z && (c =? Z.max 0 ((m - 32) / 8))%Z
      && negb (PrimFloat.leb maxBits PrimFloat.zero)
      && (16 <=? count)%Z && (count <=? 177 * 177)%Z
  | _, _ => false
  end.

Lemma version_table : forallb version_ok (seq 1 40) = true.
Proof. vm_compute. reflexivity. Qed.

Lemma default_capacity version :
  1 <= version <= 40 ->
  let count := length (flippable_cells (17 + 4 * version) version) in
  let maxBits := capacity_of_count (Z.of_nat count) DEFAULT_SAFETY_MARGIN in
  exists m,
    Num.int_value maxBits = Some m
    /\ Num.int_value (byte_capacity maxBits) = Some (Z.max 0 ((m - 32) / 8))
    /\ (1 <= m <= Z.of_nat count)%Z
    /\ PrimFloat.leb maxBits PrimFloat.zero = false
    /\ 16 <= count <= 177 * 177.
Proof.
  intros Hv. cbv zeta. rewrite (flippable_count_spec version) by lia.
  pose proof (proj1 (forallb_forall _ _) version_table version
                ltac:(apply in_seq; lia)) as H.
  unfold version_ok in H. cbv zeta in H.
  destruct (Num.int_value
              (capacity_of_count (Z.of_nat (flippable_count version))
                                 DEFAULT_SAFETY_MARGIN))
    as [m|]; [|discriminate].
  destruct (Num.int_value
              (byte_capacity
                 (capacity_of_count (Z.of_nat (flippable_count version))
                                    DEFAULT_SAFETY_MARGIN)))
    as [c|]; [|discriminate].
  apply andb_prop in H as [H H6]. apply andb_prop in H as [H H5].
  apply andb_prop in H as [H H4]. apply andb_prop in H as [H H3].
  apply andb_prop in H as [H1 H2].
  apply Z.leb_le in H1, H2, H5, H6. apply Z.eqb_eq in H3.
  apply negb_true_iff in H4.
  exists m. subst c. repeat split; try assumption; lia.
Qed.

Lemma flippable_count_bounds version :
  1 <= version <= 40 ->
  16 <= length (flippable_cells (17 + 4 * version) version) <= 177 * 177.
Proof.
  intros Hv. destruct (default_capacity version Hv) as (m & _ & _ & _ & _ & H).
  exact H.
Qed.

End Capacity.

(** ** Flipping modules *)

Section Flips.

Lemma nth_error_update_nth {A : Type} (f : A -> A) (l : list A) (n i : nat) :
  nth_error (update_nth n f l) i
  = if i =? n then option_map f (nth_error l i) else nth_error l i.
Proof.
  revert n i. induction l as [|a l IH]; intros [|n] [|i]; cbn; try reflexivity.
  - destruct (i =? n); reflexivity.
  - apply IH.
Qed.

(** [map.set] of a key that is not yet there adds the entry at the end. *)
Lemma Map_set_fresh m k v :
  ~ In k (map fst m) -> Map_set m k v = m ++ [(k, v)].
Proof.
  induction m as [|[k' v'] m IH]; intros Hk; cbn [Map_set app]; [reflexivity|].
  cbn [map fst In] in Hk.
  destruct (Nat.eqb_spec k' k) as [->|Hne]; [exfalso; apply Hk; left; reflexivity|].
  rewrite IH by (intros H; apply Hk; right; exact H). reflexivity.
Qed.

Lemma Map_set_entries entries : forall m,
  NoDup (map fst m ++ map fst entries) ->
  fold_left (fun encoding entry => Map_set encoding (fst entry) (snd entry))
            entries m
  = m ++ entries.
Proof.
  induction entries as [|[k v] entries IH]; intros m Hnd; cbn [fold_left].
  - rewrite app_nil_r. reflexivity.
  - cbn [map fst snd] in *.
    assert (Hk : ~ In k (map fst m)).
    { apply NoDup_remove_2 in Hnd. intros H. apply Hnd, in_or_app. left. exact H. }
    rewrite (Map_set_fresh m k v Hk), IH.
    + rewrite <- app_assoc. reflexivity.
    + rewrite map_app, <- app_assoc. exact Hnd.
Qed.

(** The value of the module at (x, y), if there is one. *)
Definition cell_value (m : list (list QRModule)) (x y : nat) : option bool :=
  match nth_error m y with
  | Some row => option_map value (nth_error row x)
  | None => None
  end.

(** [modules[y][x].value = !modules[y][x].value] *)
Definition flip_cell (x y : nat) (m : list (list QRModule)) : list (list QRModule) :=
  update_nth y (update_nth x flip_value) m.

Lemma cell_value_flip_cell x y m x' y' :
  cell_value (flip_cell x y m) x' y'
  = if (x' =? x) && (y' =? y) then option_map negb (cell_value m x' y')
    else cell_value m x' y'.
Proof.
  unfold cell_value, flip_cell. rewrite nth_error_update_nth.
  destruct (y' =? y); [|rewrite andb_false_r; reflexivity].
  rewrite andb_true_r.
  destruct (nth_error m y') as [row|]; cbn [option_map];
    [|destruct (x' =? x); reflexivity].
  rewrite nth_error_update_nth.
  destruct (x' =? x); [|reflexivity].
  destruct (nth_error row x'); reflexivity.
Qed.

(** All rows are there, and each has all its modules. *)
Definition square (size : nat) (m : list (list QRModule)) : Prop :=
  length m = size /\ Forall (fun row => length row = size) m.

Lemma flip_cell_square size x y m : square size m -> square size (flip_cell x y m).
Proof.
  intros [Hlen Hrows]. unfold flip_cell. split.
  - rewrite update_nth_length. exact Hlen.
  - clear Hlen. revert y. induction Hrows as [|row m Hrow Hrows IH]; intros [|y];
      cbn [update_nth]; constructor; auto.
    rewrite update_nth_length. exact Hrow.
Qed.

Lemma square_module size m x y :
  square size m -> x < size -> y < size ->
  exists row module, nth_error m y = Some row /\ nth_error row x = Some module.
Proof.
  intros [Hlen Hrows] Hx Hy.
  destruct (nth_error m y) as [row|] eqn:Hrow;
    [|apply nth_error_None in Hrow; lia].
  rewrite Forall_forall in Hrows.
  pose proof (Hrows row (nth_error_In _ _ Hrow)) as Hr.
  destruct (nth_error row x) as [module|] eqn:Hm;
    [|apply nth_error_None in Hm; lia].
  exists row, module. auto.
Qed.

(** One pass of the loop of [applyFlips], on the modules alone. *)
Definition flip_entry (cells : list (nat * nat)) (m : list (list QRModule))
    (entry : nat * bool) : list (list QRModule) :=
  if snd entry then
    match nth_error cells (fst entry) with
    | Some (x, y) => flip_cell x y m
    | None => m
    end
  else m.

Definition count_true (bits : list bool) : nat :=
  length (filter (fun b : bool => b) bits).

(** Over positions that are inside the matrix and outside the function
    patterns, [applyFlips] flips one module for each entry that is set. *)
Lemma apply_flips_loop qr cells encoding0 entries :
  (forall x y, In (x, y) cells ->
     x < size qr /\ y < size qr /\ isFunctionPattern x y qr = false) ->
  (forall e, In e entries -> fst e < length cells) ->
  forall st, square (size qr) (fs_modules st) ->
  exists st',
    for_each entries
      (apply_flip qr {| positions := number_cells 0 cells; encoding := encoding0 |})
      st = Ok st'
    /\ fs_modules st' = fold_left (flip_entry cells) entries (fs_modules st)
    /\ fs_flippedCount st' = fs_flippedCount st + count_true (map snd entries)
    /\ fs_skippedFunctionPatterns st' = fs_skippedFunctionPatterns st.
Proof.
  intros Hcells. induction entries as [|[k b] entries IH]; intros Hent st Hsq.
  - exists st. cbn. rewrite Nat.add_0_r. auto.
  - cbn [for_each fold_left map snd].
    assert (Hent' : forall e, In e entries -> fst e < length cells)
      by (intros e He; apply Hent; right; exact He).
    unfold apply_flip at 1. unfold flip_entry at 2. cbn [fst snd positions].
    destruct b; cbn [negb].
    + pose proof (Hent (k, true) (or_introl eq_refl)) as Hk. cbn [fst] in Hk.
      rewrite number_cells_nth_error.
      destruct (nth_error cells k) as [[x y]|] eqn:Hc;
        [|apply nth_error_None in Hc; lia].
      cbn [px py].
      destruct (Hcells x y (nth_error_In _ _ Hc)) as (Hx & Hy & Hf).
      destruct (square_module _ _ x y Hsq Hx Hy) as (row & module & Hrow & Hm).
      rewrite Hrow, Hf, Hm. cbn [bind].
      match goal with
      | |- context [for_each entries _ ?s] =>
          destruct (IH Hent' s) as (st' & Hrun & Hmod & Hcount & Hskip)
      end.
      { cbn [fs_modules]. apply flip_cell_square. exact Hsq. }
      exists st'. cbn [fs_modules fs_flippedCount fs_skippedFunctionPatterns] in *.
      split; [exact Hrun|]. split; [exact Hmod|]. split; [|exact Hskip].
      rewrite Hcount. unfold count_true. cbn [filter length]. lia.
    + cbn [bind]. destruct (IH Hent' st Hsq) as (st' & Hrun & Hmod & Hcount & Hskip).
      exists st'. split; [exact Hrun|]. split; [exact Hmod|]. split; [|exact Hskip].
      rewrite Hcount. unfold count_true. cbn [filter]. reflexivity.
Qed.

(** Whether index [i] is set by one of the entries. *)
Definition flips_of (entries : list (nat * bool)) (i : nat) : bool :=
  existsb (fun e => snd e && (fst e =? i)) entries.

Lemma flips_of_In entries i : flips_of entries i = true -> In i (map fst entries).
Proof.
  unfold flips_of. rewrite existsb_exists. intros ([k b] & Hin & H).
  apply andb_prop in H as [_ H]. apply Nat.eqb_eq in H. cbn [fst] in H. subst k.
  apply in_map_iff. exists (i, b). auto.
Qed.

(** With distinct indices over distinct cells, the module of cell [i] has
    changed exactly when an entry sets [i]. *)
Lemma cell_value_flips cells entries : NoDup cells ->
  NoDup (map fst entries) ->
  forall m i x y, nth_error cells i = Some (x, y) ->
  cell_value (fold_left (flip_entry cells) entries m) x y
  = if flips_of entries i then option_map negb (cell_value m x y)
    else cell_value m x y.
Proof.
  intros Hcells. induction entries as [|[k b] entries IH]; intros Hnd m i x y Hi;
    [reflexivity|].
  cbn [map fst] in Hnd. inversion Hnd as [|? ? Hk Hnd']; subst.
  cbn [fold_left]. rewrite (IH Hnd' _ i x y Hi).
  unfold flips_of at 2. cbn [existsb fst snd]. fold (flips_of entries i).
  unfold flip_entry. cbn [fst snd]. destruct b; cbn [andb orb]; [|reflexivity].
  destruct (nth_error cells k) as [[x' y']|] eqn:Hc.
  - rewrite cell_value_flip_cell.
    destruct (Nat.eqb_spec k i) as [->|Hne].
    + rewrite Hi in Hc. injection Hc as <- <-. rewrite !Nat.eqb_refl. cbn [andb orb].
      destruct (flips_of entries i) eqn:Hfl; [|reflexivity].
      exfalso. apply Hk, flips_of_In, Hfl.
    + replace ((x =? x') && (y =? y')) with false; [reflexivity|].
      symmetry. apply andb_false_iff.
      destruct (Nat.eqb_spec x x') as [->|]; [|left; reflexivity].
      destruct (Nat.eqb_spec y y') as [->|]; [|right; reflexivity].
      exfalso. apply Hne.
      apply (proj1 (NoDup_nth_error cells) Hcells k i);
        [apply nth_error_Some; congruence | congruence].
  - destruct (Nat.eqb_spec k i) as [->|Hne]; [congruence|reflexivity].
Qed.

(** Reading the entries back along their own indices gives the bits. *)
Lemma flips_of_combine indices : forall bits,
  NoDup indices -> length bits = length indices ->
  map (flips_of (combine indices bits)) indices = bits.
Proof.
  induction indices as [|k indices IH]; intros [|b bits] Hnd Hlen;
    try discriminate; [reflexivity|].
  inversion Hnd as [|? ? Hk Hnd']; subst. cbn [combine map].
  unfold flips_of at 1. cbn [existsb fst snd]. rewrite Nat.eqb_refl, andb_true_r.
  fold (flips_of (combine indices bits) k).
  replace (flips_of (combine indices bits) k) with false.
  - rewrite orb_false_r. f_equal.
    rewrite <- (IH bits Hnd') at 2 by (cbn in Hlen; lia).
    apply map_ext_in. intros i Hi. unfold flips_of. cbn [existsb fst snd].
    destruct (Nat.eqb_spec k i) as [->|]; [contradiction|].
    rewrite andb_false_r. reflexivity.
  - symmetry. destruct (flips_of (combine indices bits) k) eqn:Hfl; [|reflexivity].
    exfalso. apply Hk. apply flips_of_In in Hfl.
    apply in_map_iff in Hfl as ([k' b'] & <- & Hin). cbn [fst].
    apply (in_combine_l _ _ _ _ Hin).
Qed.

End Flips.

(** ** Errors of the later stages *)

Section Raises.

(** Errors of walking the matrix, as opposed to errors about the message. *)
Definition structural (e : error) : bool :=
  match e with
  | CapacityExceeded _ _ | SizeMismatch | TypeError => true
  | _ => false
  end.

Definition raises_only {A : Type} (P : error -> bool) (r : result A) : bool :=
  match r with
  | Ok _ => true
  | Err e => P e
  end.

Lemma bind_raises {A B : Type} P (r : result A) (k : A -> result B) :
  raises_only P r = true -> (forall a, raises_only P (k a) = true) ->
  raises_only P (bind r k) = true.
Proof. destruct r as [a|e]; cbn; auto. Qed.

Lemma for_each_raises {A S : Type} P (range : list A) (body : A -> S -> result S) :
  (forall a s, raises_only P (body a s) = true) ->
  forall s, raises_only P (for_each range body s) = true.
Proof.
  intros Hbody. induction range as [|a range IH]; intros s; cbn [for_each];
    [reflexivity|]. apply bind_raises; [apply Hbody | exact IH].
Qed.

Lemma createFlipMap_raises secondaryBits flippableModules :
  raises_only structural (createFlipMap secondaryBits flippableModules) = true.
Proof.
  unfold createFlipMap, generateDistributionPattern.
  destruct (length flippableModules <? length secondaryBits); reflexivity.
Qed.

Lemma applyFlips_raises qr flipMap :
  raises_only structural (applyFlips qr flipMap) = true.
Proof.
  unfold applyFlips. apply bind_raises; [|reflexivity].
  apply for_each_raises. intros [k b] st. unfold apply_flip.
  destruct (negb b); [reflexivity|].
  destruct (nth_error (positions flipMap) k) as [position|]; [|reflexivity].
  destruct (nth_error (fs_modules st) (py position)) as [row|]; [|reflexivity].
  destruct (isFunctionPattern (px position) (py position) qr); [reflexivity|].
  destruct (nth_error row (px position)); reflexivity.
Qed.

Lemma compareMatrices_raises scanned reference flippableModules :
  raises_only structural (compareMatrices scanned reference flippableModules) = true.
Proof.
  unfold compareMatrices.
  destruct (negb (length scanned =? length reference)); [reflexivity|].
  apply for_each_raises. intros i s.
  destruct (nth_error flippableModules i) as [pos|]; [|reflexivity].
  unfold cell_at.
  destruct (nth_error scanned (py pos)); [|reflexivity].
  destruct (nth_error reference (py pos)); [|reflexivity].
  cbn [bind]. destruct (negb _); reflexivity.
Qed.

End Raises.

(** ** Comparing matrices and reading the bits back *)

Section Compare.

(** Whether the two matrices differ at position [i] of the list. *)
Definition differs (scanned reference : list (list bool))
    (flippableModules : list ModulePosition) (i : nat) : bool :=
  match nth_error flippableModules i with
  | Some pos =>
      negb (option_bool_eqb (nth_error (nth (py pos) scanned []) (px pos))
                            (nth_error (nth (py pos) reference []) (px pos)))
  | None => false
  end.

Lemma cell_at_row (matrix : list (list bool)) x y :
  y < length matrix -> cell_at matrix x y = Ok (nth_error (nth y matrix []) x).
Proof.
  intros Hy. unfold cell_at.
  rewrite (nth_error_nth' matrix [] Hy). reflexivity.
Qed.

Lemma Set_has_below (s : NumberSet) a :
  (forall k, In k s -> k < a) -> Set_has s a = false.
Proof.
  intros Hs. unfold Set_has. destruct (existsb (Nat.eqb a) s) eqn:H; [|reflexivity].
  apply existsb_exists in H as (k & Hin & Hk). apply Nat.eqb_eq in Hk. subst k.
  specialize (Hs a Hin). lia.
Qed.

Lemma compare_loop scanned reference flippableModules :
  (forall pos, In pos flippableModules ->
     py pos < length scanned /\ py pos < length reference) ->
  forall n a acc,
    (forall k, In k acc -> k < a) -> a + n <= length flippableModules ->
    for_each (seq a n)
      (fun i flippedIndices =>
         match nth_error flippableModules i with
         | None => Err TypeError
         | Some pos =>
             scannedValue <- cell_at scanned (px pos) (py pos) ;;
             referenceValue <- cell_at reference (px pos) (py pos) ;;
             if negb (option_bool_eqb scannedValue referenceValue)
             then Ok (Set_add flippedIndices i)
             else Ok flippedIndices
         end)
      acc
    = Ok (acc ++ filter (differs scanned reference flippableModules) (seq a n)).
Proof.
  intros Hrows. induction n as [|n IH]; intros a acc Hacc Hlen.
  - cbn. rewrite app_nil_r. reflexivity.
  - cbn [seq for_each filter]. unfold differs at 1.
    destruct (nth_error flippableModules a) as [pos|] eqn:Hpos;
      [|apply nth_error_None in Hpos; lia].
    destruct (Hrows pos (nth_error_In _ _ Hpos)) as [Hs Hr].
    rewrite (cell_at_row scanned _ _ Hs), (cell_at_row reference _ _ Hr).
    cbn [bind].
    destruct (negb (option_bool_eqb _ _)); cbn [bind].
    + unfold Set_add. rewrite (Set_has_below acc a Hacc).
      rewrite IH.
      * rewrite <- app_assoc. reflexivity.
      * intros k Hk. apply in_app_or in Hk as [Hk|[<-|[]]];
          [specialize (Hacc k Hk)|]; lia.
      * lia.
    + apply IH; [|lia]. intros k Hk. specialize (Hacc k Hk). lia.
Qed.

Lemma compareMatrices_differs scanned reference flippableModules :
  length scanned = length reference ->
  (forall pos, In pos flippableModules -> py pos < length scanned) ->
  compareMatrices scanned reference flippableModules
  = Ok (filter (differs scanned reference flippableModules)
               (seq 0 (length flippableModules))).
Proof.
  intros Hlen Hrows. unfold compareMatrices.
  rewrite Hlen, Nat.eqb_refl. cbn [negb].
  rewrite (compare_loop scanned reference flippableModules); [reflexivity | | |].
  - intros pos Hpos. specialize (Hrows pos Hpos). lia.
  - intros k [].
  - lia.
Qed.

Lemma Set_has_filter (f : nat -> bool) n k :
  Set_has (filter f (seq 0 n)) k = f k && (k <? n).
Proof.
  unfold Set_has.
  destruct (f k && (k <? n)) eqn:H.
  - apply andb_prop in H as [Hf Hk]. apply Nat.ltb_lt in Hk.
    apply existsb_exists. exists k. split; [|apply Nat.eqb_refl].
    apply filter_In. split; [apply in_seq; lia | exact Hf].
  - destruct (existsb (Nat.eqb k) (filter f (seq 0 n))) eqn:He; [|reflexivity].
    apply existsb_exists in He as (k' & Hin & Hk'). apply Nat.eqb_eq in Hk'. subst k'.
    apply filter_In in Hin as [Hin Hf]. apply in_seq in Hin.
    rewrite Hf in H. cbn in H. apply Nat.ltb_ge in H. lia.
Qed.

(** The decoder walks the same indices as [generateDistributionPattern]. *)
Lemma extract_loop_map n step total flipPositions : forall current,
  extract_loop n step total current flipPositions
  = map (Set_has flipPositions) (distribution_loop n step total current).
Proof.
  induction n as [|n IH]; intros current; cbn [extract_loop distribution_loop map];
    [reflexivity|]. rewrite IH. reflexivity.
Qed.

Lemma extract_loop_length n step total flipPositions current :
  length (extract_loop n step total current flipPositions) = n.
Proof. rewrite extract_loop_map, length_map. apply distribution_loop_length. Qed.

Lemma distribution_loop_firstn k n step total : forall current,
  k <= n ->
  firstn k (distribution_loop n step total current)
  = distribution_loop k step total current.
Proof.
  revert n. induction k as [|k IH]; intros n current Hk; [reflexivity|].
  destruct n as [|n]; [lia|]. cbn [distribution_loop firstn].
  rewrite IH by lia. reflexivity.
Qed.

Lemma distribution_loop_bound n step total : forall current,
  total <> 0 -> Forall (fun i => i < total) (distribution_loop n step total current).
Proof.
  induction n as [|n IH]; intros current Ht; cbn [distribution_loop]; constructor.
  - apply Nat.mod_upper_bound. exact Ht.
  - apply IH. exact Ht.
Qed.

(** The length field of the bits that [extractBitsFromFlips] returns is the
    one it has read: they are [32 + 8 L] bits. *)
Lemma extractBitsFromFlips_length flipPositions flippableModules :
  let bits := extractBitsFromFlips flipPositions flippableModules in
  Z.of_nat (length bits) = (32 + 8 * read_bits 16 0 bits)%Z.
Proof.
  unfold extractBitsFromFlips. cbv zeta.
  set (total := length flippableModules). set (step := findLargePrime total).
  set (L := read_bits 16 0 (extract_loop 16 step total 0 flipPositions)).
  assert (HL : (0 <= L)%Z) by (apply read_bits_range; lia).
  rewrite extract_loop_length.
  set (N := 16 + Z.to_nat L * 8 + 16).
  assert (HN : 16 <= N) by (unfold N; lia).
  replace (read_bits 16 0 (extract_loop N step total 0 flipPositions)) with L;
    [unfold N; lia|].
  unfold L. apply read_bits_ext; [lia|]. intros i Hi. cbn [Nat.add].
  rewrite !extract_loop_map.
  rewrite <- (distribution_loop_firstn 16 N) by exact HN.
  rewrite <- firstn_map. rewrite nth_firstn.
  destruct (Nat.ltb_spec i 16); [reflexivity|lia].
Qed.

End Compare.

(** ** Encoder and matrix decoder *)

Section Matrices.

Lemma convertToQRMatrix_regular qr : regular (convertToQRMatrix qr).
Proof.
  intros x y Hx Hy. cbn [size convertToQRMatrix] in Hx, Hy.
  eexists. split; [|split; [|split]].
  - unfold module_at. cbn [modules convertToQRMatrix].
    rewrite (nth_error_map_seq _ _ _ Hy), (nth_error_map_seq _ _ _ Hx). reflexivity.
  - reflexivity.
  - reflexivity.
  - intros Hf. cbn [type]. unfold determineModuleType.
    change (isFunctionPattern x y (shape_of qr))
      with (isFunctionPattern x y (convertToQRMatrix qr)).
    rewrite Hf, andb_false_r. reflexivity.
Qed.

Lemma convertToFullQRMatrix_regular qr : regular (convertToFullQRMatrix qr).
Proof.
  intros x y Hx Hy. cbn [size convertToFullQRMatrix] in Hx, Hy.
  eexists. split; [|split; [|split]].
  - unfold module_at. cbn [modules convertToFullQRMatrix].
    rewrite (nth_error_map_seq _ _ _ Hy), (nth_error_map_seq _ _ _ Hx). reflexivity.
  - reflexivity.
  - reflexivity.
  - intros Hf. cbn [type].
    change (isFunctionPattern x y (shape_of qr))
      with (isFunctionPattern x y (convertToFullQRMatrix qr)).
    rewrite Hf. reflexivity.
Qed.

(** Encoder and decoder enumerate the same positions. *)
Lemma identify_base qr :
  identifyFlippableModules (convertToQRMatrix qr)
  = Ok (flippable_positions (QrCode.size qr) (QrCode.version qr)).
Proof. apply (identifyFlippableModules_regular _ (convertToQRMatrix_regular qr)). Qed.

Lemma identify_reference qr :
  identifyFlippableModules (convertToFullQRMatrix qr)
  = Ok (flippable_positions (QrCode.size qr) (QrCode.version qr)).
Proof.
  apply (identifyFlippableModules_regular _ (convertToFullQRMatrix_regular qr)).
Qed.

Lemma number_cells_In cells : forall start pos,
  In pos (number_cells start cells) -> In (px pos, py pos) cells.
Proof.
  induction cells as [|[x y] cells IH]; intros start pos Hin; [destruct Hin|].
  cbn [number_cells] in Hin. destruct Hin as [<-|Hin]; [left; reflexivity|].
  right. apply (IH _ _ Hin).
Qed.

Lemma flippable_positions_In size version pos :
  In pos (flippable_positions size version) ->
  px pos < size /\ py pos < size
  /\ isFunctionPattern (px pos) (py pos) (shape size version) = false.
Proof.
  intros Hin. apply number_cells_In in Hin. apply in_flippable_cells. exact Hin.
Qed.

Lemma flippable_positions_length size version :
  length (flippable_positions size version) = length (flippable_cells size version).
Proof. apply number_cells_length. Qed.

Lemma getModules_base qr : getModules (convertToQRMatrix qr) = qrToModuleMatrix qr.
Proof.
  unfold getModules, qrToModuleMatrix. cbn [modules convertToQRMatrix].
  rewrite map_map. apply map_ext. intros y. rewrite map_map. reflexivity.
Qed.

Lemma qrToModuleMatrix_length qr : length (qrToModuleMatrix qr) = QrCode.size qr.
Proof. unfold qrToModuleMatrix. rewrite length_map, length_seq. reflexivity. Qed.

Lemma qrToModuleMatrix_cell qr x y :
  x < QrCode.size qr -> y < QrCode.size qr ->
  nth_error (nth y (qrToModuleMatrix qr) []) x = Some (QrCode.getModule qr x y).
Proof.
  intros Hx Hy. unfold qrToModuleMatrix.
  rewrite (nth_error_nth _ _ _ (nth_error_map_seq _ _ _ Hy)).
  exact (nth_error_map_seq (fun x => QrCode.getModule qr x y) _ _ Hx).
Qed.

Lemma convertToQRMatrix_square qr :
  square (QrCode.size qr) (modules (convertToQRMatrix qr)).
Proof.
  cbn [modules convertToQRMatrix]. split.
  - rewrite length_map, length_seq. reflexivity.
  - apply Forall_forall. intros row Hrow. apply in_map_iff in Hrow as (y & <- & _).
    rewrite length_map, length_seq. reflexivity.
Qed.

Lemma convertToQRMatrix_cell qr x y :
  x < QrCode.size qr -> y < QrCode.size qr ->
  cell_value (modules (convertToQRMatrix qr)) x y = Some (QrCode.getModule qr x y).
Proof.
  intros Hx Hy. unfold cell_value. cbn [modules convertToQRMatrix].
  rewrite (nth_error_map_seq _ _ _ Hy), (nth_error_map_seq _ _ _ Hx). reflexivity.
Qed.

Lemma getModules_cell matrix x y :
  nth_error (nth y (getModules matrix) []) x = cell_value (modules matrix) x y.
Proof.
  unfold getModules, cell_value.
  destruct (nth_error (modules matrix) y) as [row|] eqn:Hrow.
  - rewrite (nth_error_nth _ _ _ (map_nth_error _ _ _ Hrow)).
    apply nth_error_map.
  - rewrite nth_overflow
      by (rewrite length_map; apply nth_error_None; exact Hrow).
    destruct x; reflexivity.
Qed.

Lemma option_bool_eqb_refl a : option_bool_eqb a a = true.
Proof. destruct a as [[]|]; reflexivity. Qed.

Lemma filter_none {A : Type} (f : A -> bool) l :
  (forall a, In a l -> f a = false) -> filter f l = [].
Proof.
  induction l as [|a l IH]; intros H; [reflexivity|]. cbn [filter].
  rewrite (H a (or_introl eq_refl)). apply IH. intros; apply H; right; assumption.
Qed.

End Matrices.

Section Engine.

(** The engine: see [QrCode_encodeText]. *)
Variable encodeText : jsstring -> QrCode.Ecc -> option QrCode.t.

(** The defaults of the destructuring [{ ecLevel = 3, safetyMargin = 0.07 }]. *)
Definition options_ecLevel (options : EncodeOptions) : ECLevel :=
  match ecLevel options with Some e => e | None => EC.H end.
Definition options_safetyMargin (options : EncodeOptions) : float :=
  match safetyMargin options with Some m => m | None => DEFAULT_SAFETY_MARGIN end.

(** [encode] once the engine has answered. *)
Lemma encode_run primary secondary options base :
  encodeText primary (mapECLevel (options_ecLevel options)) = Some base ->
  encode encodeText primary secondary options
  = let flippableModules :=
      flippable_positions (QrCode.size base) (QrCode.version base) in
    if length flippableModules =? 0 then Err MatrixTooSmall
    else
      let maxBits :=
        calculateMaxCapacity flippableModules (options_ecLevel options)
                             (options_safetyMargin options) in
      if PrimFloat.leb maxBits PrimFloat.zero then Err InsufficientCapacity
      else
        secondaryBits <-
          (if 0 <? length secondary then encodeSecondaryMessage secondary maxBits
           else Ok []) ;;
        flipMap <- createFlipMap secondaryBits flippableModules ;;
        applyFlips (convertToQRMatrix base) flipMap.
Proof.
  intros Hbase. unfold encode, QrCode_encodeText.
  fold (options_ecLevel options). fold (options_safetyMargin options).
  cbv zeta. rewrite Hbase. cbn [bind]. rewrite identify_base. reflexivity.
Qed.

(** Without bits nothing is flipped. *)
Lemma flips_nil base flippableModules :
  (flipMap <- createFlipMap [] flippableModules ;;
   applyFlips (convertToQRMatrix base) flipMap)
  = Ok {| size := QrCode.size base;
          modules := modules (convertToQRMatrix base);
          version := QrCode.version base;
          errorCorrectionLevel := unmapECLevel (QrCode.errorCorrectionLevel base);
          maskPattern := QrCode.mask base;
          flippedModuleCount := Some 0 |}.
Proof.
  unfold createFlipMap, generateDistributionPattern. cbn [length].
  replace (length flippableModules <? 0) with false
    by (symmetry; apply Nat.ltb_ge; lia).
  reflexivity.
Qed.

(** [decodeFromMatrix] once the engine has answered. *)
Lemma decode_run scanned primary reference :
  encodeText primary QrCode.HIGH = Some reference ->
  decodeFromMatrix encodeText scanned primary
  = let flippableModules :=
      flippable_positions (QrCode.size reference) (QrCode.version reference) in
    flipPositions <-
      compareMatrices scanned (qrToModuleMatrix reference) flippableModules ;;
    if length flipPositions =? 0 then
      Ok {| primaryMessage := primary;
            secondaryMessage := [];
            metadata :=
              {| meta_version := string_1_0; meta_flippedModuleCount := 0;
                 meta_ecLevelUsed := EC.H; meta_capacityUsed := PrimFloat.zero |} |}
    else
      let secondaryBits := extractBitsFromFlips flipPositions flippableModules in
      secondaryMessage <- decodeSecondaryMessage secondaryBits ;;
      Ok {| primaryMessage := primary;
            secondaryMessage := secondaryMessage;
            metadata :=
              {| meta_version := string_1_0;
                 meta_flippedModuleCount := length flipPositions;
                 meta_ecLevelUsed := EC.H;
                 meta_capacityUsed :=
                   PrimFloat.mul
                     (PrimFloat.div (Num.of_nat (length flipPositions))
                                    (Num.of_nat (length flippableModules)))
                     (Num.of_Z 100) |} |}.
Proof.
  intros Href. unfold decodeFromMatrix, QrCode_encodeText.
  rewrite Href. cbn [bind]. rewrite identify_reference. reflexivity.
Qed.

(** The matrix of the reference symbol decodes to the empty message. *)
Lemma decode_unflipped primary reference :
  encodeText primary QrCode.HIGH = Some reference ->
  decodeFromMatrix encodeText (qrToModuleMatrix reference) primary
  = Ok {| primaryMessage := primary;
          secondaryMessage := [];
          metadata :=
            {| meta_version := string_1_0; meta_flippedModuleCount := 0;
               meta_ecLevelUsed := EC.H; meta_capacityUsed := PrimFloat.zero |} |}.
Proof.
  intros Href. rewrite (decode_run _ _ _ Href). cbv zeta.
  rewrite compareMatrices_differs.
  - rewrite filter_none; [reflexivity|].
    intros i _. unfold differs.
    destruct (nth_error _ i); [|reflexivity].
    rewrite option_bool_eqb_refl. reflexivity.
  - reflexivity.
  - intros pos Hpos. rewrite qrToModuleMatrix_length.
    apply flippable_positions_In in Hpos. tauto.
Qed.

End Engine.

(** ** Sample symbols

    The codec reads the size, the version and the module values of the symbol
    that the engine returns, whatever the text.  The examples run it on the
    symbol of a given version with a checkerboard of modules. *)

Definition sample_symbol (version : nat) (ecc : QrCode.Ecc) : QrCode.t :=
  {| QrCode.size := 17 + 4 * version;
     QrCode.version := version;
     QrCode.mask := 0;
     QrCode.errorCorrectionLevel := ecc;
     QrCode.getModule := fun x y => Nat.even (x + y);
     QrCode.isFunction :=
       fun x y => isFunctionPattern x y (shape (17 + 4 * version) version) |}.

Definition sample_engine (version : nat)
  : jsstring -> QrCode.Ecc -> option QrCode.t :=
  fun _ ecc => Some (sample_symbol version ecc).

Lemma sample_engine_well_formed version :
  1 <= version <= 40 ->
  forall text ecc qr,
    sample_engine version text ecc = Some qr -> QrCode.well_formed qr.
Proof.
  intros Hv text ecc qr [= <-]. split; [exact Hv|reflexivity].
Qed.

Definition PRIMARY : jsstring := [104; 116; 116; 112]%Z.   (* 'http' *)

Definition margin (m : float) : EncodeOptions :=
  {| ecLevel := None; safetyMargin := Some m; includeMetadata := None |}.

Definition scan_of (r : result QRMatrix) : list (list bool) :=
  match r with Ok matrix => getModules matrix | Err _ => [] end.

Definition secondary_of (r : result StegoPayload) : option jsstring :=
  match r with Ok payload => Some (secondaryMessage payload) | Err _ => None end.


(** ** Claims about the encoder's checks *)

Section EncoderChecks.

Variable encodeText : jsstring -> QrCode.Ecc -> option QrCode.t.

Lemma structural_other {A : Type} (r : result A) :
  raises_only structural r = true ->
  is_InsufficientCapacity r = false /\ is_PayloadTooLarge r = false
  /\ is_BadLength r = false /\ is_ShortFrame r = false.
Proof. destruct r as [a|[]]; cbn; intros H; repeat split; congruence. Qed.

Lemma flips_raise_structural base secondaryBits flippableModules :
  raises_only structural
    (flipMap <- createFlipMap secondaryBits flippableModules ;;
     applyFlips (convertToQRMatrix base) flipMap) = true.
Proof.
  apply bind_raises; [apply createFlipMap_raises|].
  intros flipMap. apply applyFlips_raises.
Qed.

Lemma getCapacity_run primary safetyMargin base :
  encodeText primary QrCode.HIGH = Some base ->
  getCapacity encodeText primary safetyMargin
  = Ok (byte_capacity
          (calculateMaxCapacity
             (flippable_positions (QrCode.size base) (QrCode.version base)) EC.H
             (match safetyMargin with
              | Some m => m
              | None => DEFAULT_SAFETY_MARGIN
              end))).
Proof.
  intros Hbase. unfold getCapacity, QrCode_encodeText. cbv zeta.
  rewrite Hbase. cbn [bind]. rewrite identify_base. reflexivity.
Qed.

(** The capacity of a symbol of the standard at the default margin. *)
Lemma default_capacity_symbol qr ecLevel :
  QrCode.well_formed qr ->
  let flippableModules :=
    flippable_positions (QrCode.size qr) (QrCode.version qr) in
  let maxBits :=
    calculateMaxCapacity flippableModules ecLevel DEFAULT_SAFETY_MARGIN in
  exists m,
    Num.int_value maxBits = Some m
    /\ Num.int_value (byte_capacity maxBits) = Some (Z.max 0 ((m - 32) / 8))
    /\ (1 <= m <= Z.of_nat (length flippableModules))%Z
    /\ PrimFloat.leb maxBits PrimFloat.zero = false
    /\ 16 <= length flippableModules.
Proof.
  intros [Hv Hs]. cbv zeta. rewrite Hs, calculateMaxCapacity_count.
  rewrite flippable_positions_length.
  destruct (default_capacity (QrCode.version qr) Hv)
    as (m & Hm & Hcap & Hrange & Hleb & Hc).
  exists m. repeat split; try assumption; lia.
Qed.

(** C10.  When encoding the empty secondary message succeeds, the modules of
    the result are those of the base matrix of the primary message, the
    flipped count is 0, and decoding the module values of the result with the
    same primary message gives the empty secondary message. *)
Theorem empty_secondary_unchanged primary matrix :
  encode encodeText primary [] no_options = Ok matrix ->
  exists base,
    encodeText primary QrCode.HIGH = Some base
    /\ modules matrix = modules (convertToQRMatrix base)
    /\ flippedModuleCount matrix = Some 0
    /\ exists payload,
         decodeFromMatrix encodeText (getModules matrix) primary = Ok payload
         /\ secondaryMessage payload = []
         /\ meta_flippedModuleCount (metadata payload) = 0.
Proof.
  intros Henc. destruct (encodeText primary QrCode.HIGH) as [base|] eqn:Hbase.
  - rewrite (encode_run encodeText primary [] no_options base Hbase) in Henc.
    cbv zeta in Henc.
    destruct (length _ =? 0); [discriminate|].
    destruct (PrimFloat.leb _ _); [discriminate|].
    cbn [length Nat.ltb Nat.leb bind] in Henc. rewrite flips_nil in Henc.
    injection Henc as <-. exists base. cbn [modules flippedModuleCount].
    repeat split.
    change (getModules _) with (getModules (convertToQRMatrix base)).
    rewrite getModules_base, (decode_unflipped encodeText primary base Hbase).
    eexists. repeat split.
  - unfold encode, QrCode_encodeText in Henc.
    cbn [ecLevel no_options mapECLevel] in Henc. rewrite Hbase in Henc. discriminate.
Qed.

(** C4 fails as stated: at a safety margin of 0.05 a version-1 symbol has a
    bit capacity of 23, which is at most 32, and the empty secondary message
    is encoded all the same. *)
Lemma insufficient_capacity_counterexample :
  let flippableModules := flippable_positions 21 1 in
  let safetyMargin := 0x1.999999999999ap-5%float in
  identifyFlippableModules (convertToQRMatrix (sample_symbol 1 QrCode.HIGH))
  = Ok flippableModules
  /\ Num.int_value (calculateMaxCapacity flippableModules EC.H safetyMargin)
     = Some 23%Z
  /\ is_InsufficientCapacity
       (encode (sample_engine 1) PRIMARY [] (margin safetyMargin)) = false
  /\ is_Ok (encode (sample_engine 1) PRIMARY [] (margin safetyMargin)) = true.
Proof. vm_compute. repeat split; reflexivity. Qed.

(** C4, amended.  Once the symbol is there and has flippable modules, the
    encoder fails with InsufficientCapacity exactly when the bit capacity is
    at most 0. *)
Theorem insufficient_capacity_threshold primary secondary options base
    flippableModules :
  encodeText primary (mapECLevel (options_ecLevel options)) = Some base ->
  identifyFlippableModules (convertToQRMatrix base) = Ok flippableModules ->
  length flippableModules <> 0 ->
  is_InsufficientCapacity (encode encodeText primary secondary options)
  = PrimFloat.leb
      (calculateMaxCapacity flippableModules (options_ecLevel options)
                            (options_safetyMargin options))
      PrimFloat.zero.
Proof.
  intros Hbase Hid Hlen. rewrite identify_base in Hid. injection Hid as <-.
  rewrite (encode_run encodeText primary secondary options base Hbase). cbv zeta.
  apply Nat.eqb_neq in Hlen. rewrite Hlen.
  destruct (PrimFloat.leb _ _); [reflexivity|].
  destruct (0 <? length secondary).
  - unfold encodeSecondaryMessage. cbv zeta.
    destruct (Num.gtb _ _); [reflexivity|]. cbn [bind].
    apply structural_other, flips_raise_structural.
  - cbn [bind]. apply structural_other, flips_raise_structural.
Qed.

Section WellFormed.

Hypothesis engine_well_formed :
  forall text ecc qr, encodeText text ecc = Some qr -> QrCode.well_formed qr.

(** C5.  When [validateCapacity] answers, [encode] with the default options
    raises PayloadTooLarge exactly when the answer is [false]. *)
Theorem capacity_admission primary secondary (fits : bool) :
  validateCapacity encodeText primary secondary None = Ok fits ->
  is_PayloadTooLarge (encode encodeText primary secondary no_options)
  = negb fits.
Proof.
  intros Hval. unfold validateCapacity in Hval.
  destruct (encodeText primary QrCode.HIGH) as [base|] eqn:Hbase.
  - rewrite (getCapacity_run primary None base Hbase) in Hval.
    cbn [bind] in Hval. injection Hval as <-.
    destruct (default_capacity_symbol base EC.H
                (engine_well_formed _ _ _ Hbase))
      as (m & Hm & Hcap & Hrange & Hleb & H16).
    rewrite (Num_leb_int _ _ _ Hcap).
    rewrite (encode_run encodeText primary secondary no_options base Hbase).
    cbv zeta.
    change (options_ecLevel no_options) with EC.H.
    change (options_safetyMargin no_options) with DEFAULT_SAFETY_MARGIN.
    replace (length _ =? 0) with false by (symmetry; apply Nat.eqb_neq; lia).
    rewrite Hleb.
    destruct secondary as [|c rest].
    + cbn [length Nat.ltb Nat.leb bind]. rewrite flips_nil.
      change (Utf8.encode []) with (@nil Z). cbn [length is_PayloadTooLarge].
      symmetry. apply negb_false_iff, Z.leb_le. lia.
    + assert (Hn : (1 <= Z.of_nat (length (Utf8.encode (c :: rest))))%Z).
      { destruct (Utf8.encode (c :: rest)) eqn:He; [|cbn [length]; lia].
        apply encode_nil in He. discriminate. }
      set (n := Z.of_nat (length (Utf8.encode (c :: rest)))) in *.
      replace (0 <? length (c :: rest)) with true by reflexivity.
      unfold encodeSecondaryMessage. cbv zeta. fold n.
      rewrite (Num_gtb_int _ _ _ Hm).
      destruct (32 + n * 8 >? m)%Z eqn:Hgt.
      * cbn [bind is_PayloadTooLarge]. symmetry. apply negb_true_iff, Z.leb_gt.
        assert (Hlt : (m - 32 < n * 8)%Z) by lia.
        assert ((m - 32) / 8 < n)%Z by (apply Z.div_lt_upper_bound; lia).
        lia.
      * cbn [bind].
        destruct (structural_other _ (flips_raise_structural base
                    (push_bits 16 n
                     ++ flat_map (push_bits 8) (Utf8.encode (c :: rest))
                     ++ push_bits 16 (calculateChecksum (Utf8.encode (c :: rest))))
                    (flippable_positions (QrCode.size base) (QrCode.version base))))
          as (_ & -> & _).
        symmetry. apply negb_false_iff, Z.leb_le.
        assert (Hle : (n * 8 <= m - 32)%Z) by lia.
        assert (n <= (m - 32) / 8)%Z by (apply Z.div_le_lower_bound; lia).
        lia.
  - unfold getCapacity, QrCode_encodeText in Hval. rewrite Hbase in Hval.
    discriminate.
Qed.

End WellFormed.

(** A wrong length field is not reported as such: with exactly [32 + 8 L]
    bits, [decodeSecondaryMessage] passes both of its length checks. *)
Lemma decodeSecondaryMessage_exact bits :
  Z.of_nat (length bits) = (32 + 8 * read_bits 16 0 bits)%Z ->
  is_BadLength (decodeSecondaryMessage bits) = false
  /\ is_ShortFrame (decodeSecondaryMessage bits) = false.
Proof.
  intros Hlen. pose proof (read_bits_range 16 0 bits ltac:(lia)) as HL.
  unfold decodeSecondaryMessage.
  replace (length bits <? 32) with false by (symmetry; apply Nat.ltb_ge; lia).
  replace (8 * read_bits 16 0 bits >? Z.of_nat (length bits) - 32)%Z with false
    by (symmetry; rewrite Z.gtb_ltb; apply Z.ltb_ge; lia).
  destruct (read_bits 16 0 bits =? 0)%Z; [split; reflexivity|].
  destruct (_ =? _)%Z; split; reflexivity.
Qed.

(** Matrix-mode decoding passes both length tests of the frame decoder: the
    bits it hands over are as many as their own length field asks for. *)
Lemma matrix_decoding_length scanned primary :
  is_BadLength (decodeFromMatrix encodeText scanned primary) = false
  /\ is_ShortFrame (decodeFromMatrix encodeText scanned primary) = false.
Proof.
  destruct (encodeText primary QrCode.HIGH) as [reference|] eqn:Href.
  - rewrite (decode_run encodeText scanned primary reference Href). cbv zeta.
    pose proof (compareMatrices_raises scanned (qrToModuleMatrix reference)
                  (flippable_positions (QrCode.size reference)
                                       (QrCode.version reference))) as Hcmp.
    destruct (compareMatrices _ _ _) as [flipPositions|e]; cbn [bind].
    + destruct (length flipPositions =? 0); [split; reflexivity|].
      destruct (decodeSecondaryMessage_exact _
                  (extractBitsFromFlips_length flipPositions
                     (flippable_positions (QrCode.size reference)
                                          (QrCode.version reference))))
        as [Hbad Hshort].
      destruct (decodeSecondaryMessage _) as [message|e]; [split; reflexivity|].
      cbn [bind]. split; [exact Hbad | exact Hshort].
    + apply structural_other in Hcmp as (_ & _ & Hbad & Hshort).
      split; [exact Hbad | exact Hshort].
  - unfold decodeFromMatrix, QrCode_encodeText. rewrite Href. split; reflexivity.
Qed.

End EncoderChecks.

Lemma empty_secondary_unchanged_witness :
  exists matrix,
    encode (sample_engine 1) PRIMARY [] no_options = Ok matrix
    /\ modules matrix
       = modules (convertToQRMatrix (sample_symbol 1 QrCode.HIGH))
    /\ flippedModuleCount matrix = Some 0.
Proof.
  eexists. split; [vm_compute; reflexivity|].
  destruct (empty_secondary_unchanged (sample_engine 1) PRIMARY _
              ltac:(vm_compute; reflexivity))
    as (base & Hbase & Hmod & Hcount & _).
  injection Hbase as <-. split; [exact Hmod | exact Hcount].
Defined.

(** C4 on the raising side: at a safety margin of 2^-10 no flip is allowed in
    a version-1 symbol, the bit capacity is 0, and the encoder stops. *)
Lemma insufficient_capacity_threshold_witness :
  PrimFloat.leb
    (calculateMaxCapacity (flippable_positions 21 1) EC.H 0x1p-10%float)
    PrimFloat.zero = true
  /\ is_InsufficientCapacity
       (encode (sample_engine 1) PRIMARY SECRET (margin 0x1p-10)) = true.
Proof.
  split; [vm_compute; reflexivity|].
  rewrite (insufficient_capacity_threshold (sample_engine 1) PRIMARY SECRET
             (margin 0x1p-10) (sample_symbol 1 QrCode.HIGH)
             (flippable_positions 21 1)).
  - vm_compute. reflexivity.
  - reflexivity.
  - vm_compute. reflexivity.
  - vm_compute. discriminate.
Defined.

(** C5 at a version-2 symbol, whose capacity is 3 bytes. *)
Lemma capacity_admission_witness :
  validateCapacity (sample_engine 2) PRIMARY SECRET None = Ok false
  /\ is_PayloadTooLarge (encode (sample_engine 2) PRIMARY SECRET no_options)
     = true.
Proof.
  split; [vm_compute; reflexivity|].
  apply (capacity_admission (sample_engine 2)
           (sample_engine_well_formed 2 ltac:(lia)) PRIMARY SECRET false).
  vm_compute. reflexivity.
Defined.


(** ** The round trip through the matrix *)

Section RoundTrip.

Variable encodeText : jsstring -> QrCode.Ecc -> option QrCode.t.

Lemma map_fst_combine {A B : Type} (l : list A) : forall l' : list B,
  length l = length l' -> map fst (combine l l') = l.
Proof.
  induction l as [|a l IH]; intros [|b l'] Hlen; try discriminate; [reflexivity|].
  cbn [combine map fst]. rewrite IH by (cbn in Hlen; lia). reflexivity.
Qed.

Lemma map_snd_combine {A B : Type} (l : list A) : forall l' : list B,
  length l = length l' -> map snd (combine l l') = l'.
Proof.
  induction l as [|a l IH]; intros [|b l'] Hlen; try discriminate; [reflexivity|].
  cbn [combine map snd]. rewrite IH by (cbn in Hlen; lia). reflexivity.
Qed.

Lemma flip_entries_length cells entries : forall m,
  length (fold_left (flip_entry cells) entries m) = length m.
Proof.
  induction entries as [|[k b] entries IH]; intros m; [reflexivity|].
  cbn [fold_left]. rewrite IH. unfold flip_entry. cbn [fst snd].
  destruct b; [|reflexivity].
  destruct (nth_error cells k) as [[x y]|]; [|reflexivity].
  apply update_nth_length.
Qed.

(** The indices at which the bits are written, and the entries of the flip
    map. *)
Definition indices_of (bits : list bool) (total : nat) : list nat :=
  distribution_loop (length bits) (findLargePrime total) total 0.

Definition entries_of (bits : list bool) (total : nat) : list (nat * bool) :=
  combine (indices_of bits total) bits.

Lemma indices_of_length bits total : length (indices_of bits total) = length bits.
Proof. apply distribution_loop_length. Qed.

(** What [createFlipMap] and [applyFlips] do to the base matrix when the
    bits fit. *)
Lemma flips_run base bits :
  let cells := flippable_cells (QrCode.size base) (QrCode.version base) in
  length bits <= length cells -> 3 <= length cells ->
  exists matrix,
    (flipMap <- createFlipMap bits
                  (flippable_positions (QrCode.size base) (QrCode.version base)) ;;
     applyFlips (convertToQRMatrix base) flipMap) = Ok matrix
    /\ modules matrix
       = fold_left (flip_entry cells) (entries_of bits (length cells))
                   (modules (convertToQRMatrix base))
    /\ flippedModuleCount matrix = Some (count_true bits)
    /\ size matrix = QrCode.size base.
Proof.
  intros cells Hfit H3.
  assert (Hnd : NoDup (indices_of bits (length cells)))
    by (apply distribution_NoDup; assumption).
  unfold createFlipMap, generateDistributionPattern.
  rewrite flippable_positions_length. fold cells.
  replace (length cells <? length bits) with false
    by (symmetry; apply Nat.ltb_ge; exact Hfit).
  cbn [bind]. fold (indices_of bits (length cells)).
  rewrite (Map_set_entries (combine (indices_of bits (length cells)) bits) [])
    by (cbn [map app]; rewrite map_fst_combine by apply indices_of_length;
        exact Hnd).
  cbn [app]. fold (entries_of bits (length cells)).
  unfold applyFlips. cbn [encoding positions].
  destruct (apply_flips_loop (convertToQRMatrix base) cells
              (entries_of bits (length cells)) (entries_of bits (length cells)))
    with (st := {| fs_modules := modules (convertToQRMatrix base);
                   fs_flippedCount := 0; fs_skippedFunctionPatterns := 0;
                   fs_flipPositions := [] |})
    as (st' & Hrun & Hmod & Hcount & _).
  - intros x y Hin. apply in_flippable_cells in Hin. exact Hin.
  - intros [k b] Hin. cbn [fst]. apply in_combine_l in Hin.
    pose proof (distribution_loop_bound (length bits)
                  (findLargePrime (length cells)) (length cells) 0
                  ltac:(lia)) as Hb.
    rewrite Forall_forall in Hb. apply Hb. exact Hin.
  - apply convertToQRMatrix_square.
  - unfold flippable_positions. fold cells. rewrite Hrun. cbn [bind].
    eexists. split; [reflexivity|]. cbn [modules flippedModuleCount size].
    split; [exact Hmod|]. split; [|reflexivity].
    rewrite Hcount. unfold entries_of.
    rewrite map_snd_combine by apply indices_of_length. reflexivity.
Qed.

(** Comparing the flipped matrix with the reference finds the indices that
    an entry has set. *)
Lemma compare_flipped base entries matrix :
  let cells := flippable_cells (QrCode.size base) (QrCode.version base) in
  NoDup (map fst entries) ->
  modules matrix
  = fold_left (flip_entry cells) entries (modules (convertToQRMatrix base)) ->
  compareMatrices (getModules matrix) (qrToModuleMatrix base)
    (flippable_positions (QrCode.size base) (QrCode.version base))
  = Ok (filter (flips_of entries) (seq 0 (length cells))).
Proof.
  intros cells Hnd Hmod.
  assert (Hlen : length (getModules matrix) = QrCode.size base).
  { unfold getModules. rewrite length_map, Hmod, flip_entries_length.
    apply convertToQRMatrix_square. }
  rewrite compareMatrices_differs.
  - rewrite flippable_positions_length. fold cells. f_equal.
    apply filter_ext_in. intros i Hi. apply in_seq in Hi.
    unfold differs, flippable_positions. fold cells.
    rewrite number_cells_nth_error.
    destruct (nth_error cells i) as [[x y]|] eqn:Hc;
      [|apply nth_error_None in Hc; lia].
    cbn [px py].
    destruct (proj1 (in_flippable_cells _ _ x y) (nth_error_In _ _ Hc))
      as (Hx & Hy & _).
    rewrite getModules_cell, Hmod.
    rewrite (cell_value_flips cells entries (flippable_cells_NoDup _ _) Hnd
               _ i x y Hc).
    rewrite (convertToQRMatrix_cell base x y Hx Hy).
    rewrite (qrToModuleMatrix_cell base x y Hx Hy).
    destruct (flips_of entries i), (QrCode.getModule base x y); reflexivity.
  - rewrite Hlen, qrToModuleMatrix_length. reflexivity.
  - intros pos Hpos. rewrite Hlen. apply flippable_positions_In in Hpos. tauto.
Qed.

(** Stepping through the flipped indices finds the bits again. *)
Lemma extract_written bits total k :
  3 <= total -> length bits <= total -> k <= length bits ->
  extract_loop k (findLargePrime total) total 0
    (filter (flips_of (entries_of bits total)) (seq 0 total))
  = firstn k bits.
Proof.
  intros H3 Hfit Hk. rewrite extract_loop_map.
  rewrite <- (distribution_loop_firstn k (length bits)) by exact Hk.
  fold (indices_of bits total). rewrite <- firstn_map. f_equal.
  transitivity (map (flips_of (entries_of bits total)) (indices_of bits total));
    [|apply flips_of_combine;
      [apply distribution_NoDup; assumption
      |symmetry; apply indices_of_length]].
  apply map_ext_in. intros i Hi. rewrite Set_has_filter.
  pose proof (distribution_loop_bound (length bits) (findLargePrime total) total 0
                ltac:(lia)) as Hb.
  rewrite Forall_forall in Hb. specialize (Hb i Hi).
  apply Nat.ltb_lt in Hb. rewrite Hb, andb_true_r. reflexivity.
Qed.

Lemma read_bits_firstn bits : read_bits 16 0 (firstn 16 bits) = read_bits 16 0 bits.
Proof.
  apply read_bits_ext; [lia|]. intros i Hi. cbn [Nat.add]. rewrite nth_firstn.
  destruct (Nat.ltb_spec i 16); [reflexivity|lia].
Qed.

Lemma extract_frame bits flippableModules :
  let total := length flippableModules in
  3 <= total -> length bits <= total ->
  Z.of_nat (length bits) = (32 + 8 * read_bits 16 0 bits)%Z ->
  extractBitsFromFlips
    (filter (flips_of (entries_of bits total)) (seq 0 total)) flippableModules
  = bits.
Proof.
  intros total H3 Hfit Hlen.
  pose proof (read_bits_range 16 0 bits ltac:(lia)) as HL.
  unfold extractBitsFromFlips. cbv zeta. fold total.
  rewrite (extract_written bits total 16 H3 Hfit) by lia.
  rewrite read_bits_firstn.
  replace (16 + Z.to_nat (read_bits 16 0 bits) * 8 + 16) with (length bits) by lia.
  rewrite (extract_written bits total (length bits) H3 Hfit) by lia.
  apply firstn_all.
Qed.

(** A length field that is not zero sets a module. *)
Lemma flips_nonempty bits total :
  3 <= total -> length bits <= total -> 16 <= length bits ->
  read_bits 16 0 bits <> 0%Z ->
  length (filter (flips_of (entries_of bits total)) (seq 0 total)) <> 0.
Proof.
  intros H3 Hfit H16 HL Hempty.
  pose proof (extract_written bits total 16 H3 Hfit H16) as Hx.
  destruct (filter _ _) as [|i rest]; [|discriminate].
  apply HL. rewrite <- read_bits_firstn, <- Hx.
  rewrite extract_loop_map.
  transitivity (read_bits 16 0 []); [|reflexivity].
  apply read_bits_ext; [lia|]. intros i Hi. cbn [Nat.add].
  replace (nth i [] false) with false by (destruct i; reflexivity).
  destruct (nth_in_or_default i
              (map (Set_has [])
                   (distribution_loop 16 (findLargePrime total) total 0)) false)
    as [Hin|Hd]; [|exact Hd].
  apply in_map_iff in Hin as (k & Hk & _). rewrite <- Hk. reflexivity.
Qed.

(** The flipped indices are as many as the bits that are set. *)
Lemma filter_one_more (g : nat -> bool) k : forall n a,
  a <= k < a + n -> g k = false ->
  length (filter (fun i => (k =? i) || g i) (seq a n))
  = S (length (filter g (seq a n))).
Proof.
  induction n as [|n IH]; intros a Hk Hg; [lia|].
  cbn [seq filter]. destruct (Nat.eqb_spec k a) as [->|Hne].
  - cbn [orb]. rewrite Hg. cbn [length]. f_equal. f_equal.
    apply filter_ext_in. intros i Hi. apply in_seq in Hi.
    replace (a =? i) with false by (symmetry; apply Nat.eqb_neq; lia).
    reflexivity.
  - cbn [orb]. destruct (g a); cbn [length]; rewrite IH by (try assumption; lia);
      reflexivity.
Qed.

Lemma flips_count entries total :
  NoDup (map fst entries) -> (forall e, In e entries -> fst e < total) ->
  length (filter (flips_of entries) (seq 0 total)) = count_true (map snd entries).
Proof.
  induction entries as [|[k b] entries IH]; intros Hnd Hb.
  - rewrite filter_none; [reflexivity|]. intros; reflexivity.
  - cbn [map fst snd] in *. inversion Hnd as [|? ? Hk Hnd']; subst.
    assert (Hb' : forall e, In e entries -> fst e < total)
      by (intros e He; apply Hb; right; exact He).
    specialize (IH Hnd' Hb').
    unfold count_true in *. destruct b; cbn [filter length].
    + rewrite <- IH.
      rewrite <- (filter_one_more (flips_of entries) k total 0).
      * apply f_equal, filter_ext. intros i. reflexivity.
      * specialize (Hb (k, true) (or_introl eq_refl)). cbn [fst] in Hb. lia.
      * destruct (flips_of entries k) eqn:Hfl; [|reflexivity].
        exfalso. apply Hk, flips_of_In, Hfl.
    + rewrite <- IH. apply f_equal, filter_ext. intros i. reflexivity.
Qed.

End RoundTrip.

(** ** Claims about the round trip *)

Section RoundTripClaim.

Variable encodeText : jsstring -> QrCode.Ecc -> option QrCode.t.

(** The round trip of a message that is not empty, at any safety margin:
    its frame has to fit the bit capacity and the flippable modules.  Encoder
    and decoder count the same flipped modules, one for each bit that is
    set. *)
Lemma round_trip_full primary secondary options base m :
  encodeText primary QrCode.HIGH = Some base ->
  options_ecLevel options = EC.H ->
  let cells := flippable_cells (QrCode.size base) (QrCode.version base) in
  let maxBits :=
    calculateMaxCapacity
      (flippable_positions (QrCode.size base) (QrCode.version base)) EC.H
      (options_safetyMargin options) in
  let bytes := Utf8.encode secondary in
  let n := Z.of_nat (length bytes) in
  Num.int_value maxBits = Some m ->
  PrimFloat.leb maxBits PrimFloat.zero = false ->
  (32 + 8 * n <= m)%Z -> (32 + 8 * n <= Z.of_nat (length cells))%Z ->
  (1 <= n <= 65535)%Z ->
  is_string secondary = true ->
  exists matrix payload,
    encode encodeText primary secondary options = Ok matrix
    /\ decodeFromMatrix encodeText (getModules matrix) primary = Ok payload
    /\ secondaryMessage payload = Utf8.decode bytes
    /\ flippedModuleCount matrix
       = Some (count_true (frame n bytes (calculateChecksum bytes)))
    /\ meta_flippedModuleCount (metadata payload)
       = count_true (frame n bytes (calculateChecksum bytes)).
Proof.
  intros Hbase Hec cells maxBits bytes n Hm Hleb Hle Hcells Hn Hstr.
  assert (Hbase' : encodeText primary (mapECLevel (options_ecLevel options))
                   = Some base) by (rewrite Hec; exact Hbase).
  rewrite (encode_run encodeText primary secondary options base Hbase').
  cbv zeta. rewrite Hec. fold maxBits.
  rewrite flippable_positions_length. fold cells.
  replace (length cells =? 0) with false by (symmetry; apply Nat.eqb_neq; lia).
  rewrite Hleb.
  replace (0 <? length secondary) with true.
  2:{ destruct secondary; [|reflexivity]. cbn in n. lia. }
  rewrite encodeSecondaryMessage_frame
    by (fold bytes; fold n; rewrite (Num_gtb_int _ _ _ Hm), Z.gtb_ltb;
        apply Z.ltb_ge; lia).
  cbn [bind]. fold bytes. fold n.
  set (bits := frame n bytes (calculateChecksum bytes)).
  assert (Hlen : length bits = 32 + 8 * length bytes) by apply frame_length.
  assert (Hfit : length bits <= length cells) by lia.
  assert (H3 : 3 <= length cells) by lia.
  assert (HL : read_bits 16 0 bits = n).
  { apply (read_push_bits 16 n []); [lia|].
    change (2 ^ Z.of_nat 16)%Z with 65536%Z. lia. }
  destruct (flips_run base bits) as (matrix & Hrun & Hmod & Hcount & _);
    [exact Hfit | exact H3 |].
  fold cells in Hmod. rewrite Hrun.
  assert (Hnd : NoDup (map fst (entries_of bits (length cells)))).
  { unfold entries_of. rewrite map_fst_combine by apply indices_of_length.
    apply distribution_NoDup; [exact Hfit | exact H3]. }
  exists matrix. eexists. split; [reflexivity|].
  rewrite (decode_run encodeText _ primary base Hbase). cbv zeta.
  rewrite (compare_flipped base _ matrix Hnd Hmod). fold cells. cbn [bind].
  pose proof (flips_nonempty bits (length cells) H3 Hfit ltac:(lia)
                ltac:(lia)) as Hne.
  apply Nat.eqb_neq in Hne. rewrite Hne.
  pose proof (extract_frame bits
                (flippable_positions (QrCode.size base) (QrCode.version base)))
    as Hx.
  cbv zeta in Hx. rewrite flippable_positions_length in Hx. fold cells in Hx.
  rewrite Hx; [| exact H3 | exact Hfit | lia].
  unfold bits, n. rewrite decode_frame;
    [| apply encode_bytes; exact Hstr | lia | apply calculateChecksum_range].
  replace (length bytes =? 0) with false by (symmetry; apply Nat.eqb_neq; lia).
  rewrite Z.eqb_refl. cbn [bind]. split; [reflexivity|].
  cbn [secondaryMessage metadata meta_flippedModuleCount].
  split; [reflexivity|]. split; [exact Hcount|].
  fold n. fold bits.
  rewrite flips_count.
  - unfold entries_of. rewrite map_snd_combine by apply indices_of_length.
    reflexivity.
  - exact Hnd.
  - intros [k b] Hin. cbn [fst]. apply in_combine_l in Hin.
    pose proof (distribution_loop_bound (length bits)
                  (findLargePrime (length cells)) (length cells) 0
                  ltac:(lia)) as Hb.
    rewrite Forall_forall in Hb. apply Hb. exact Hin.
Qed.

Lemma round_trip_run primary secondary options base m :
  encodeText primary QrCode.HIGH = Some base ->
  options_ecLevel options = EC.H ->
  let cells := flippable_cells (QrCode.size base) (QrCode.version base) in
  let maxBits :=
    calculateMaxCapacity
      (flippable_positions (QrCode.size base) (QrCode.version base)) EC.H
      (options_safetyMargin options) in
  let n := Z.of_nat (length (Utf8.encode secondary)) in
  Num.int_value maxBits = Some m ->
  PrimFloat.leb maxBits PrimFloat.zero = false ->
  (32 + 8 * n <= m)%Z -> (32 + 8 * n <= Z.of_nat (length cells))%Z ->
  (1 <= n <= 65535)%Z ->
  is_string secondary = true ->
  Utf8.decode (Utf8.encode secondary) = secondary ->
  exists matrix payload,
    encode encodeText primary secondary options = Ok matrix
    /\ decodeFromMatrix encodeText (getModules matrix) primary = Ok payload
    /\ secondaryMessage payload = secondary.
Proof.
  intros Hbase Hec cells maxBits n Hm Hleb Hle Hcells Hn Hstr Hcodec.
  destruct (round_trip_full primary secondary options base m Hbase Hec
              Hm Hleb Hle Hcells Hn Hstr)
    as (matrix & payload & Henc & Hdec & Hsec & _).
  exists matrix, payload. split; [exact Henc|]. split; [exact Hdec|].
  rewrite Hsec. exact Hcodec.
Qed.

Hypothesis engine_well_formed :
  forall text ecc qr, encodeText text ecc = Some qr -> QrCode.well_formed qr.

(** C1, amended.  For every primary message that the engine accepts and
    every secondary string that the platform's UTF-8 codec gives back
    unchanged and whose bytes fit the capacity of the primary message,
    encoding succeeds, and decoding the module values of the result with the
    same primary message returns the secondary string. *)
Theorem matrix_round_trip primary secondary capacity :
  getCapacity encodeText primary None = Ok capacity ->
  Num.leb (Z.of_nat (length (Utf8.encode secondary))) capacity = true ->
  is_string secondary = true ->
  Utf8.decode (Utf8.encode secondary) = secondary ->
  exists matrix payload,
    encode encodeText primary secondary no_options = Ok matrix
    /\ decodeFromMatrix encodeText (getModules matrix) primary = Ok payload
    /\ secondaryMessage payload = secondary.
Proof.
  intros Hcap Hfits Hstr Hcodec.
  destruct (encodeText primary QrCode.HIGH) as [base|] eqn:Hbase;
    [|unfold getCapacity, QrCode_encodeText in Hcap; rewrite Hbase in Hcap;
      discriminate].
  rewrite (getCapacity_run encodeText primary None base Hbase) in Hcap.
  injection Hcap as <-.
  destruct (default_capacity_symbol base EC.H (engine_well_formed _ _ _ Hbase))
    as (m & Hm & Hbytes & Hrange & Hleb & H16).
  rewrite (Num_leb_int _ _ _ Hbytes) in Hfits. apply Z.leb_le in Hfits.
  destruct secondary as [|c rest].
  - rewrite (encode_run encodeText primary [] no_options base Hbase).
    cbv zeta.
    change (options_ecLevel no_options) with EC.H.
    change (options_safetyMargin no_options) with DEFAULT_SAFETY_MARGIN.
    replace (length _ =? 0) with false by (symmetry; apply Nat.eqb_neq; lia).
    rewrite Hleb.
    cbn [length Nat.ltb Nat.leb bind]. rewrite flips_nil.
    eexists. eexists. split; [reflexivity|].
    change (getModules _) with (getModules (convertToQRMatrix base)).
    rewrite getModules_base, (decode_unflipped encodeText primary base Hbase).
    split; reflexivity.
  - set (secondary := c :: rest) in *.
    assert (Hn : (1 <= Z.of_nat (length (Utf8.encode secondary)))%Z).
    { destruct (Utf8.encode secondary) eqn:He; [|cbn [length]; lia].
      apply encode_nil in He. discriminate. }
    assert (Hle : (8 * Z.of_nat (length (Utf8.encode secondary)) <= m - 32)%Z).
    { assert (Z.of_nat (length (Utf8.encode secondary)) <= (m - 32) / 8)%Z by lia.
      pose proof (Z.mul_div_le (m - 32) 8 ltac:(lia)). lia. }
    rewrite flippable_positions_length in Hrange, H16.
    pose proof (flippable_count_bounds (QrCode.version base)
                  (proj1 (engine_well_formed _ _ _ Hbase))) as Hb.
    rewrite <- (proj2 (engine_well_formed _ _ _ Hbase)) in Hb.
    apply (round_trip_run primary secondary no_options base m Hbase eq_refl);
      try assumption; lia.
Qed.

End RoundTripClaim.

(** C1 fails as stated: the string that holds U+FEFF alone has 3 bytes, the
    capacity of a version-2 symbol, and comes back as the empty string. *)
Lemma matrix_round_trip_counterexample :
  let engine := sample_engine 2 in
  let secondary := [0xFEFF]%Z in
  let scanned := scan_of (encode engine PRIMARY secondary no_options) in
  validateCapacity engine PRIMARY secondary None = Ok true
  /\ is_Ok (encode engine PRIMARY secondary no_options) = true
  /\ secondary_of (decodeFromMatrix engine scanned PRIMARY) = Some [].
Proof. vm_compute. repeat split; reflexivity. Qed.

Lemma matrix_round_trip_witness :
  exists matrix payload,
    encode (sample_engine 3) PRIMARY SECRET no_options = Ok matrix
    /\ decodeFromMatrix (sample_engine 3) (getModules matrix) PRIMARY = Ok payload
    /\ secondaryMessage payload = SECRET.
Proof.
  apply (matrix_round_trip (sample_engine 3)
           (sample_engine_well_formed 3 ltac:(lia)) PRIMARY SECRET (Num.of_Z 7)).
  - vm_compute. reflexivity.
  - reflexivity.
  - reflexivity.
  - reflexivity.
Defined.

(** 'wrapped past the end hz': 23 bytes whose checksum is 0x8B00. *)
Definition WRAPPED : jsstring :=
  [119; 114; 97; 112; 112; 101; 100; 32; 112; 97; 115; 116; 32; 116; 104; 101;
   32; 101; 110; 100; 32; 104; 122]%Z.

(** A version-1 matrix that carries the first 208 bits of the 216-bit frame
    of [WRAPPED], one on each of its 208 flippable modules. *)
Definition wrapped_scan : list (list bool) :=
  let bytes := Utf8.encode WRAPPED in
  let bits := frame 23 bytes (calculateChecksum bytes) in
  scan_of
    (flipMap <- createFlipMap (firstn 208 bits) (flippable_positions 21 1) ;;
     applyFlips (convertToQRMatrix (sample_symbol 1 QrCode.HIGH)) flipMap).

(** C3 against the code.  The matrix decoder has no bound on the length
    field.  (1) A 101-byte message written at a safety margin of 0.5 into a
    version-5 symbol is returned in full, above the default [maxMessageSize]
    of 100.  (2) In a version-1 symbol, which has 208 flippable modules, a
    matrix whose length field reads 23 makes the decoder read
    [32 + 8 * 23 = 216] bits, the last 8 from the modules of the first 8, and
    return a 23-byte string.  (3) One flipped module that makes the length
    field read 32 ends in a checksum mismatch, not in a bad length. *)
Theorem matrix_decoding_unchecked_length :
  (let engine := sample_engine 5 in
   let secondary := repeat 97%Z 101 in
   length (Utf8.encode secondary) = 101
   /\ exists matrix payload,
        encode engine PRIMARY secondary (margin 0x1p-1) = Ok matrix
        /\ decodeFromMatrix engine (getModules matrix) PRIMARY = Ok payload
        /\ secondaryMessage payload = secondary)
  /\ (length (flippable_positions 21 1) = 208
      /\ length (Utf8.encode WRAPPED) = 23
      /\ secondary_of (decodeFromMatrix (sample_engine 1) wrapped_scan PRIMARY)
         = Some WRAPPED)
  /\ (let engine := sample_engine 1 in
      let reference := qrToModuleMatrix (sample_symbol 1 QrCode.HIGH) in
      let flippableModules := flippable_positions 21 1 in
      exists pos flipPositions,
        nth_error flippableModules 118 = Some pos
        /\ let scanned :=
             update_nth (py pos) (update_nth (px pos) negb) reference in
           compareMatrices scanned reference flippableModules = Ok flipPositions
           /\ read_bits 16 0 (extractBitsFromFlips flipPositions flippableModules)
              = 32%Z
           /\ is_BadLength (decodeFromMatrix engine scanned PRIMARY) = false
           /\ is_ChecksumMismatch (decodeFromMatrix engine scanned PRIMARY)
              = true).
Proof.
  split; [|split].
  - cbv zeta. split; [vm_compute; reflexivity|].
    apply (round_trip_run (sample_engine 5) PRIMARY (repeat 97%Z 101)
             (margin 0x1p-1) (sample_symbol 5 QrCode.HIGH) 1273 eq_refl eq_refl).
    + vm_compute. reflexivity.
    + vm_compute. reflexivity.
    + apply Z.leb_le. vm_compute. reflexivity.
    + apply Z.leb_le. vm_compute. reflexivity.
    + split; apply Z.leb_le; vm_compute; reflexivity.
    + vm_compute. reflexivity.
    + vm_compute. reflexivity.
  - vm_compute. repeat split; reflexivity.
  - eexists. eexists. split; [vm_compute; reflexivity|].
    cbv zeta. split; [vm_compute; reflexivity|].
    vm_compute. repeat split; reflexivity.
Qed.

(** * Further properties of the helpers *)

(** ** utils/bit-utils.ts *)

Section BitUtilsProperties.
Local Open Scope Z_scope.

(** X1.  [calculateChecksum] returns a 16-bit value for every input, although
    its loop shifts a 32-bit integer without masking it. *)
Theorem checksum_is_16_bit (data : list Z) :
  0 <= calculateChecksum data < 2 ^ 16.
Proof. apply calculateChecksum_range. Qed.

(** X2.  Two byte sequences that differ in one byte only have different
    checksums. *)
Theorem checksum_detects_byte_change (before after : list Z) (b b' : Z) :
  0 <= b < 256 -> 0 <= b' < 256 -> b <> b' ->
  calculateChecksum (before ++ b :: after)
  <> calculateChecksum (before ++ b' :: after).
Proof. apply calculateChecksum_one_byte. Qed.

Lemma checksum_detects_byte_change_witness :
  calculateChecksum ([1; 2] ++ 3 :: [4]) <> calculateChecksum ([1; 2] ++ 7 :: [4]).
Proof.
  apply (checksum_detects_byte_change [1; 2] [4] 3 7); lia.
Defined.

(** X3.  A frame whose length field is zero decodes to the empty string
    whatever follows: the checksum is not looked at. *)
Theorem zero_length_skips_checksum (rest : list bool) :
  (16 <= length rest)%nat ->
  decodeSecondaryMessage (repeat false 16 ++ rest) = Ok [].
Proof.
  intros Hrest. apply decode_zero_length.
  - rewrite length_app, repeat_length. lia.
  - rewrite firstn_app, repeat_length, Nat.sub_diag, firstn_O, app_nil_r.
    apply firstn_all2. rewrite repeat_length. lia.
Qed.

Lemma zero_length_skips_checksum_witness :
  decodeSecondaryMessage (repeat false 16 ++ repeat false 16) = Ok [].
Proof.
  apply (zero_length_skips_checksum (repeat false 16)). cbn. lia.
Defined.

(** X4.  The bits of [textToBits] are eight per byte, and [bitsToText] reads
    them back as what the platform's codec makes of the text. *)
Theorem text_bits_round_trip (text : jsstring) :
  is_string text = true ->
  length (textToBits text) = (8 * length (Utf8.encode text))%nat
  /\ bitsToText (textToBits text) = Some (Utf8.decode (Utf8.encode text)).
Proof.
  intros Hstr. unfold textToBits, bitsToText.
  rewrite flat_map_push8_length. split; [reflexivity|].
  rewrite Nat.mul_comm, Nat.Div0.mod_mul, Nat.div_mul by lia.
  cbn [Nat.eqb negb]. do 2 f_equal.
  pose proof (read_payload (Utf8.encode text) [] [] (encode_bytes text Hstr)) as H.
  cbn [length app Nat.add] in H. rewrite app_nil_r in H. exact H.
Qed.

Lemma text_bits_round_trip_witness :
  bitsToText (textToBits SECRET) = Some SECRET.
Proof.
  destruct (text_bits_round_trip SECRET eq_refl) as [_ H]. exact H.
Defined.

Lemma nth_update_nth {A : Type} (f : A -> A) (l : list A) (d : A) (n i : nat) :
  nth i (update_nth n f l) d
  = if (i =? n)%nat && (i <? length l)%nat then f (nth i l d) else nth i l d.
Proof.
  revert n i. induction l as [|a l IH]; intros n i.
  - replace (update_nth n f []) with (@nil A) by (destruct n; reflexivity).
    cbn [length]. replace (i <? 0)%nat with false by (destruct i; reflexivity).
    rewrite andb_false_r. reflexivity.
  - destruct n as [|n], i as [|i]; cbn; try reflexivity. apply IH.
Qed.

(** Flipping bit [k] of a 16-bit field flips binary digit [15 - k] of its
    value. *)
Lemma flip_field_bit v k :
  0 <= v < 2 ^ 16 -> (k < 16)%nat ->
  update_nth k negb (push_bits 16 v)
  = push_bits 16 (Z.lxor v (2 ^ Z.of_nat (15 - k)))
  /\ 0 <= Z.lxor v (2 ^ Z.of_nat (15 - k)) < 2 ^ 16
  /\ Z.testbit (Z.lxor v (2 ^ Z.of_nat (15 - k))) (Z.of_nat (15 - k))
     = negb (Z.testbit v (Z.of_nat (15 - k))).
Proof.
  intros Hv Hk.
  assert (Hbit : Z.testbit (Z.lxor v (2 ^ Z.of_nat (15 - k))) (Z.of_nat (15 - k))
                 = negb (Z.testbit v (Z.of_nat (15 - k)))).
  { rewrite Z.lxor_spec, Z.pow2_bits_true by lia.
    destruct (Z.testbit v _); reflexivity. }
  assert (Hrange : 0 <= Z.lxor v (2 ^ Z.of_nat (15 - k)) < 2 ^ 16).
  { assert (H0 : 0 <= Z.lxor v (2 ^ Z.of_nat (15 - k)))
      by (apply Z.lxor_nonneg; split; intros; [apply Z.pow_nonneg|]; lia).
    split; [exact H0|]. apply bits_below; [lia | exact H0 |].
    intros j Hj. rewrite Z.lxor_spec, Z.pow2_bits_false by lia.
    rewrite (Z.bits_above_log2 v j); [reflexivity | lia |].
    destruct (Z.eq_dec v 0) as [->|Hne]; [cbn; lia|].
    apply Z.lt_le_trans with 16; [|lia]. apply Z.log2_lt_pow2; lia. }
  split; [|split; assumption].
  apply (nth_ext _ _ false false).
  - rewrite update_nth_length, !push_bits_length. reflexivity.
  - intros j Hj. rewrite update_nth_length, push_bits_length in Hj.
    rewrite nth_update_nth, push_bits_length.
    rewrite !push_bits_nth by lia.
    replace (j <? 16)%nat with true by (symmetry; apply Nat.ltb_lt; exact Hj).
    rewrite andb_true_r, Z.lxor_spec.
    destruct (Nat.eqb_spec j k) as [->|Hne].
    + rewrite Z.pow2_bits_true by lia. destruct (Z.testbit v _); reflexivity.
    + rewrite Z.pow2_bits_false by lia. rewrite xorb_false_r. reflexivity.
Qed.

(** X5.  Flipping one bit of the checksum field of an encoded frame makes
    [decodeSecondaryMessage] raise ChecksumMismatch. *)
Theorem checksum_field_tamper (m : jsstring) (maxBits : float) (k : nat) :
  is_string m = true ->
  1 <= Z.of_nat (length (Utf8.encode m)) <= 65535 ->
  Num.leb (32 + 8 * Z.of_nat (length (Utf8.encode m))) maxBits = true ->
  (k < 16)%nat ->
  exists bits,
    encodeSecondaryMessage m maxBits = Ok bits
    /\ is_ChecksumMismatch
         (decodeSecondaryMessage
            (flip_bit (16 + 8 * length (Utf8.encode m) + k) bits)) = true.
Proof.
  intros Hstr Hlen Hmax Hk. eexists. split.
  { apply encodeSecondaryMessage_frame, Num_leb_gtb.
    rewrite Z.mul_comm. exact Hmax. }
  set (bytes := Utf8.encode m) in *.
  destruct (flip_field_bit (calculateChecksum bytes) k
              (calculateChecksum_range bytes) Hk) as (Hflip & Hrange & Hbit).
  unfold flip_bit, frame. rewrite app_assoc.
  replace (16 + 8 * length bytes + k)%nat
    with (length (push_bits 16 (Z.of_nat (length bytes))
                  ++ flat_map (push_bits 8) bytes) + k)%nat
    by (rewrite length_app, push_bits_length, flat_map_push8_length; lia).
  rewrite update_nth_app_r, Hflip, <- app_assoc.
  fold (frame (Z.of_nat (length bytes)) bytes
              (Z.lxor (calculateChecksum bytes) (2 ^ Z.of_nat (15 - k)))).
  rewrite decode_frame;
    [| apply encode_bytes; exact Hstr | lia | exact Hrange].
  replace (length bytes =? 0)%nat with false by (symmetry; apply Nat.eqb_neq; lia).
  destruct (Z.eqb_spec (Z.lxor (calculateChecksum bytes) (2 ^ Z.of_nat (15 - k)))
                       (calculateChecksum bytes)) as [Heq|Hne]; [|reflexivity].
  rewrite Heq in Hbit. destruct (Z.testbit _ _); discriminate.
Qed.

Lemma checksum_field_tamper_witness :
  exists bits,
    encodeSecondaryMessage SECRET (Num.of_Z 1000) = Ok bits
    /\ is_ChecksumMismatch (decodeSecondaryMessage (flip_bit (16 + 8 * 6 + 3) bits))
       = true.
Proof.
  apply (checksum_field_tamper SECRET (Num.of_Z 1000) 3).
  - reflexivity.
  - vm_compute. split; discriminate.
  - reflexivity.
  - lia.
Defined.

(** X6.  Setting a bit of the length field that was clear makes an encoded
    frame fail with BadLength: the field then announces more bytes than the
    frame holds. *)
Theorem length_field_tamper (m : jsstring) (maxBits : float) (k : nat) :
  Z.of_nat (length (Utf8.encode m)) <= 65535 ->
  Num.leb (32 + 8 * Z.of_nat (length (Utf8.encode m))) maxBits = true ->
  (k < 16)%nat ->
  Z.testbit (Z.of_nat (length (Utf8.encode m))) (Z.of_nat (15 - k)) = false ->
  exists bits,
    encodeSecondaryMessage m maxBits = Ok bits
    /\ is_BadLength (decodeSecondaryMessage (flip_bit k bits)) = true.
Proof.
  intros Hlen Hmax Hk Hclear. eexists. split.
  { apply encodeSecondaryMessage_frame, Num_leb_gtb.
    rewrite Z.mul_comm. exact Hmax. }
  set (bytes := Utf8.encode m) in *. set (n := Z.of_nat (length bytes)) in *.
  destruct (flip_field_bit n k ltac:(unfold n; lia) Hk) as (Hflip & Hrange & Hbit).
  set (n' := Z.lxor n (2 ^ Z.of_nat (15 - k))) in *.
  assert (Hmore : n' = n + 2 ^ Z.of_nat (15 - k)).
  { unfold n'. symmetry. apply Z.add_nocarry_lxor.
    apply Z.bits_inj'. intros j Hj. rewrite Z.land_spec, Z.bits_0.
    destruct (Z.eq_dec j (Z.of_nat (15 - k))) as [->|Hne].
    - rewrite Hclear. reflexivity.
    - rewrite Z.pow2_bits_false by lia. apply andb_false_r. }
  assert (Hpos : 0 < 2 ^ Z.of_nat (15 - k)) by (apply Z.pow_pos_nonneg; lia).
  unfold flip_bit, frame. fold n.
  rewrite update_nth_app_l by (rewrite push_bits_length; exact Hk).
  rewrite Hflip. fold n'.
  unfold decodeSecondaryMessage.
  rewrite !length_app, !push_bits_length, flat_map_push8_length.
  replace (16 + (8 * length bytes + 16) <? 32)%nat with false
    by (symmetry; apply Nat.ltb_ge; lia).
  pose proof (read_push_bits 16 n' []
                (flat_map (push_bits 8) bytes
                 ++ push_bits 16 (calculateChecksum bytes)) ltac:(lia)) as Hr.
  cbn [app length] in Hr. rewrite Hr by exact Hrange.
  replace (8 * n' >? Z.of_nat (16 + (8 * length bytes + 16)) - 32) with true;
    [reflexivity|].
  symmetry. rewrite Z.gtb_ltb. apply Z.ltb_lt. unfold n in *. lia.
Qed.

Lemma length_field_tamper_witness :
  exists bits,
    encodeSecondaryMessage SECRET (Num.of_Z 1000) = Ok bits
    /\ is_BadLength (decodeSecondaryMessage (flip_bit 12 bits)) = true.
Proof.
  apply (length_field_tamper SECRET (Num.of_Z 1000) 12).
  - vm_compute. discriminate.
  - reflexivity.
  - lia.
  - reflexivity.
Defined.

(** X7.  Bits after the frame are not read: when the length field fits the
    bits, appending more bits changes nothing. *)
Theorem trailing_bits_ignored (bits junk : list bool) :
  (32 <= length bits)%nat ->
  8 * read_bits 16 0 bits <= Z.of_nat (length bits) - 32 ->
  decodeSecondaryMessage (bits ++ junk) = decodeSecondaryMessage bits.
Proof.
  intros Hlen Hfit.
  pose proof (read_bits_range 16 0 bits ltac:(lia)) as HL.
  assert (Hread : forall w start,
             (w <= 31)%nat -> (start + w <= length bits)%nat ->
             read_bits w start (bits ++ junk) = read_bits w start bits).
  { intros w start Hw Hin. apply read_bits_ext; [exact Hw|].
    intros i Hi. apply app_nth1. lia. }
  unfold decodeSecondaryMessage.
  rewrite length_app, (Hread 16%nat 0%nat) by lia.
  replace (length bits + length junk <? 32)%nat with false
    by (symmetry; apply Nat.ltb_ge; lia).
  replace (length bits <? 32)%nat with false
    by (symmetry; apply Nat.ltb_ge; lia).
  replace (8 * read_bits 16 0 bits
           >? Z.of_nat (length bits + length junk) - 32) with false
    by (symmetry; rewrite Z.gtb_ltb; apply Z.ltb_ge; lia).
  replace (8 * read_bits 16 0 bits >? Z.of_nat (length bits) - 32) with false
    by (symmetry; rewrite Z.gtb_ltb; apply Z.ltb_ge; lia).
  destruct (read_bits 16 0 bits =? 0); [reflexivity|].
  rewrite (Hread 16%nat (16 + Z.to_nat (read_bits 16 0 bits) * 8)%nat) by lia.
  replace (map (fun byteIdx => read_bits 8 (16 + byteIdx * 8) (bits ++ junk))
               (seq 0 (Z.to_nat (read_bits 16 0 bits))))
    with (map (fun byteIdx => read_bits 8 (16 + byteIdx * 8) bits)
              (seq 0 (Z.to_nat (read_bits 16 0 bits))));
    [reflexivity|].
  apply map_ext_in. intros j Hj. apply in_seq in Hj.
  symmetry. apply Hread; lia.
Qed.

Lemma trailing_bits_ignored_witness :
  decodeSecondaryMessage (repeat false 32 ++ [true; true])
  = decodeSecondaryMessage (repeat false 32).
Proof.
  apply (trailing_bits_ignored (repeat false 32) [true; true]).
  - cbn. lia.
  - vm_compute. discriminate.
Defined.


End BitUtilsProperties.

(** ** utils/prime-utils.ts *)

Section PrimeUtilsProperties.

(** X8.  [isPrime] decides primality: trial division by 2 and by the odd
    numbers up to the square root misses no divisor. *)
Theorem isPrime_correct (n : nat) : isPrime n = true <-> prime_nat n.
Proof. apply isPrime_spec. Qed.

(** X9.  From 3 on, [findLargePrime] returns the largest prime below its
    argument. *)
Theorem findLargePrime_is_largest (max : nat) :
  3 <= max ->
  findLargePrime max < max
  /\ isPrime (findLargePrime max) = true
  /\ forall q, findLargePrime max < q < max -> isPrime q = false.
Proof.
  intros Hmax. destruct (findLargePrime_largest max Hmax) as (Hlt & Hp & Hq).
  split; [exact Hlt|]. split; [apply isPrime_spec; exact Hp|].
  intros q Hrange. destruct (isPrime q) eqn:E; [|reflexivity].
  exfalso. apply (Hq q Hrange), isPrime_spec, E.
Qed.

Lemma findLargePrime_is_largest_witness :
  findLargePrime 100 < 100
  /\ isPrime (findLargePrime 100) = true
  /\ forall q, findLargePrime 100 < q < 100 -> isPrime q = false.
Proof. apply (findLargePrime_is_largest 100). lia. Defined.

(** X10.  From 3 modules on, the step of the distribution has no common
    divisor with the number of modules. *)
Theorem distribution_step_coprime (totalModules : nat) :
  3 <= totalModules ->
  Nat.gcd totalModules (findLargePrime totalModules) = 1.
Proof. apply findLargePrime_coprime. Qed.

Lemma distribution_step_coprime_witness :
  Nat.gcd 208 (findLargePrime 208) = 1.
Proof. apply (distribution_step_coprime 208). lia. Defined.

Lemma nodup_length (l : list nat) : length (nodup Nat.eq_dec l) <= length l.
Proof.
  induction l as [|a l IH]; [apply Nat.le_refl|]. cbn [nodup].
  destruct (in_dec Nat.eq_dec a l); cbn [length]; lia.
Qed.

(** X11.  [validateDistribution] accepts exactly the patterns without a
    repeated entry. *)
Theorem validateDistribution_correct (pattern : list nat) :
  validateDistribution pattern = true <-> NoDup pattern.
Proof.
  unfold validateDistribution. rewrite Nat.eqb_eq. split.
  - induction pattern as [|a l IH]; intros H; [constructor|].
    cbn [nodup] in H. destruct (in_dec Nat.eq_dec a l) as [Hin|Hnin].
    + pose proof (nodup_length l). cbn [length] in H. lia.
    + constructor; [exact Hnin|]. apply IH. cbn [length] in H. lia.
  - intros H. rewrite (nodup_fixed_point Nat.eq_dec H). reflexivity.
Qed.

(** X12.  Asked for as many bits as there are modules, at least 3, the
    pattern visits every module exactly once. *)
Theorem full_pattern_is_permutation (totalModules : nat) :
  3 <= totalModules ->
  exists idx,
    generateDistributionPattern totalModules totalModules = Ok idx
    /\ NoDup idx
    /\ forall i, In i idx <-> i < totalModules.
Proof.
  intros H3. unfold generateDistributionPattern.
  rewrite Nat.ltb_irrefl. eexists. split; [reflexivity|].
  set (idx := distribution_loop totalModules (findLargePrime totalModules)
                totalModules 0).
  assert (Hnd : NoDup idx) by (apply distribution_NoDup; lia).
  assert (Hb : forall i, In i idx -> i < totalModules).
  { apply Forall_forall, distribution_loop_bound. lia. }
  split; [exact Hnd|]. intros i. split; [apply Hb|]. intros Hi.
  apply (NoDup_length_incl Hnd (l' := seq 0 totalModules)).
  - unfold idx. rewrite length_seq, distribution_loop_length. apply Nat.le_refl.
  - intros k Hk. apply in_seq. specialize (Hb k Hk). lia.
  - apply in_seq. lia.
Qed.

Lemma full_pattern_is_permutation_witness :
  exists idx,
    generateDistributionPattern 5 5 = Ok idx
    /\ NoDup idx
    /\ forall i, In i idx <-> i < 5.
Proof. apply (full_pattern_is_permutation 5). lia. Defined.

End PrimeUtilsProperties.

(** ** utils/qr-analyzer.ts *)

Section AnalyzerProperties.

(** X13.  Every cell that [isInFormatInfo] marks lies in one of the three
    9 by 9 corners that [isInFinderPattern] marks already, whatever the size:
    the format test adds no cell to the function patterns. *)
Theorem format_info_inside_finder (x y size : nat) :
  isInFormatInfo x y size && negb (isInFinderPattern x y size) = false.
Proof.
  unfold isInFormatInfo, isInFinderPattern. function_pattern_cases.
Qed.

(** X14.  The table of alignment patterns stops at version 7: from version 8
    on no cell is marked as part of an alignment pattern. *)
Theorem alignment_table_stops (x y version : nat) :
  8 <= version -> isInAlignmentPattern x y version = false.
Proof.
  intros Hv. unfold isInAlignmentPattern.
  rewrite (ALIGNMENT_PATTERN_POSITIONS_none version Hv).
  destruct (_ <? _)%Z; reflexivity.
Qed.

Lemma alignment_table_stops_witness : isInAlignmentPattern 30 30 10 = false.
Proof. apply (alignment_table_stops 30 30 10). lia. Defined.

(** X15.  For a symbol of version 8 or more, of size [s], the list of
    flippable modules has [s * s - 2 * s - 227] entries. *)
Theorem flippable_count_closed_form (qr : QrCode.t) :
  QrCode.well_formed qr -> 8 <= QrCode.version qr ->
  exists flippableModules,
    identifyFlippableModules (convertToQRMatrix qr) = Ok flippableModules
    /\ length flippableModules + 2 * QrCode.size qr + 227
       = QrCode.size qr * QrCode.size qr.
Proof.
  intros [Hv Hs] H8. rewrite identify_base. eexists. split; [reflexivity|].
  rewrite flippable_positions_length, Hs.
  rewrite (flippable_count_large (QrCode.version qr) H8).
  unfold large_count.
  remember (4 * QrCode.version qr - 3) as t eqn:Et.
  replace (17 + 4 * QrCode.version qr) with (t + 20) by lia.
  replace (t + 20 - 20) with t by lia.
  replace (t + 20 - 17) with (t + 3) by lia.
  replace (t + 20 - 1) with (t + 19) by lia.
  replace (t + 20 - 7) with (t + 13) by lia.
  replace (t + 20 - 9) with (t + 11) by lia.
  ring.
Qed.

Lemma flippable_count_closed_form_witness :
  exists flippableModules,
    identifyFlippableModules (convertToQRMatrix (sample_symbol 8 QrCode.HIGH))
    = Ok flippableModules
    /\ length flippableModules + 2 * 49 + 227 = 49 * 49.
Proof.
  apply (flippable_count_closed_form (sample_symbol 8 QrCode.HIGH)).
  - split; [cbn; lia | reflexivity].
  - cbn. lia.
Defined.

(** X16.  Encoder and decoder list the same flippable modules for a symbol,
    whatever the engine flags as function modules. *)
Theorem flippable_modules_agree (qr : QrCode.t) :
  identifyFlippableModules (convertToQRMatrix qr)
  = identifyFlippableModules (convertToFullQRMatrix qr).
Proof. rewrite identify_base, identify_reference. reflexivity. Qed.

(** X17.  The flippable modules of a symbol are its cells outside the
    function patterns, each listed once, with [index] its place in the
    list. *)
Theorem flippable_modules_listed (qr : QrCode.t) :
  exists flippableModules,
    identifyFlippableModules (convertToQRMatrix qr) = Ok flippableModules
    /\ (forall x y,
          (exists pos, In pos flippableModules /\ px pos = x /\ py pos = y)
          <-> (x < QrCode.size qr /\ y < QrCode.size qr
               /\ isFunctionPattern x y (convertToQRMatrix qr) = false))
    /\ (forall i pos, nth_error flippableModules i = Some pos -> index pos = i)
    /\ NoDup (map (fun pos => (px pos, py pos)) flippableModules).
Proof.
  rewrite identify_base. eexists. split; [reflexivity|].
  set (cells := flippable_cells (QrCode.size qr) (QrCode.version qr)).
  assert (Hmap : map (fun pos => (px pos, py pos))
                     (flippable_positions (QrCode.size qr) (QrCode.version qr))
                 = cells).
  { unfold flippable_positions. fold cells. generalize 0.
    induction cells as [|[x y] l IH]; intros start; [reflexivity|].
    cbn [number_cells map px py]. rewrite IH. reflexivity. }
  split; [|split].
  - intros x y. split.
    + intros (pos & Hin & <- & <-).
      apply flippable_positions_In in Hin. exact Hin.
    + intros H. apply (in_flippable_cells (QrCode.size qr) (QrCode.version qr))
        in H. fold cells in H. rewrite <- Hmap in H.
      apply in_map_iff in H as (pos & Heq & Hin). injection Heq as Hx Hy.
      exists pos. auto.
  - intros i pos Hi. unfold flippable_positions in Hi.
    rewrite number_cells_nth_error in Hi.
    destruct (nth_error _ i) as [[x y]|]; [|discriminate].
    injection Hi as <-. reflexivity.
  - rewrite Hmap. apply flippable_cells_NoDup.
Qed.

End AnalyzerProperties.

(** ** core/QRStegoEncoder.ts *)

Section EncoderProperties.

Variable encodeText : jsstring -> QrCode.Ecc -> option QrCode.t.

(** The loop of [applyFlips] leaves the function patterns alone and keeps the
    number of rows. *)
Lemma apply_flips_safe qr flipMap entries : forall st st',
  for_each entries (apply_flip qr flipMap) st = Ok st' ->
  length (fs_modules st') = length (fs_modules st)
  /\ forall x y, isFunctionPattern x y qr = true ->
       cell_value (fs_modules st') x y = cell_value (fs_modules st) x y.
Proof.
  induction entries as [|[k b] entries IH]; intros st st' Hrun.
  - injection Hrun as <-. split; [reflexivity|]. intros; reflexivity.
  - cbn [for_each] in Hrun. unfold apply_flip at 1 in Hrun.
    destruct b; cbn [negb] in Hrun; [|apply (IH _ _ Hrun)].
    destruct (nth_error (positions flipMap) k) as [position|]; [|discriminate].
    destruct (nth_error (fs_modules st) (py position)) as [row|]; [|discriminate].
    destruct (isFunctionPattern (px position) (py position) qr) eqn:Hf.
    + cbn [bind] in Hrun. apply (IH _ _ Hrun).
    + destruct (nth_error row (px position)); [|discriminate].
      cbn [bind] in Hrun. destruct (IH _ _ Hrun) as [Hlen Hcells].
      cbn [fs_modules] in Hlen, Hcells. split.
      * rewrite Hlen. apply update_nth_length.
      * intros x y Hxy. rewrite (Hcells x y Hxy).
        fold (flip_cell (px position) (py position) (fs_modules st)).
        rewrite cell_value_flip_cell.
        destruct (Nat.eqb_spec x (px position)) as [->|]; [|reflexivity].
        destruct (Nat.eqb_spec y (py position)) as [->|]; [|reflexivity].
        congruence.
Qed.

(** X18.  Whatever is encoded, the result has the size of the symbol of the
    primary message and the same value as that symbol at every module of a
    function pattern. *)
Theorem encode_keeps_function_patterns primary secondary options matrix :
  encode encodeText primary secondary options = Ok matrix ->
  exists base,
    encodeText primary (mapECLevel (options_ecLevel options)) = Some base
    /\ size matrix = QrCode.size base
    /\ length (modules matrix) = QrCode.size base
    /\ forall x y,
         x < QrCode.size base -> y < QrCode.size base ->
         isFunctionPattern x y matrix = true ->
         cell_value (modules matrix) x y = Some (QrCode.getModule base x y).
Proof.
  intros Henc.
  destruct (encodeText primary (mapECLevel (options_ecLevel options)))
    as [base|] eqn:Hbase.
  - rewrite (encode_run encodeText primary secondary options base Hbase) in Henc.
    cbv zeta in Henc.
    destruct (length _ =? 0); [discriminate|].
    destruct (PrimFloat.leb _ _); [discriminate|].
    destruct (if 0 <? length secondary then _ else _) as [bits|]; [|discriminate].
    cbn [bind] in Henc.
    destruct (createFlipMap bits _) as [flipMap|]; [|discriminate].
    cbn [bind] in Henc. unfold applyFlips in Henc.
    destruct (for_each _ _ _) as [st|] eqn:Hrun; [|discriminate].
    cbn [bind] in Henc. injection Henc as <-.
    destruct (apply_flips_safe _ _ _ _ _ Hrun) as [Hlen Hcells].
    cbn [fs_modules] in Hlen, Hcells.
    exists base. split; [reflexivity|]. cbn [size modules].
    split; [reflexivity|]. split.
    + rewrite Hlen. apply convertToQRMatrix_square.
    + intros x y Hx Hy Hf. rewrite (Hcells x y Hf).
      apply convertToQRMatrix_cell; assumption.
  - unfold encode, QrCode_encodeText in Henc.
    fold (options_ecLevel options) in Henc. cbv zeta in Henc.
    rewrite Hbase in Henc. discriminate.
Qed.

Lemma Map_set_keys m k v :
  NoDup (map fst m) ->
  NoDup (map fst (Map_set m k v))
  /\ (forall k', In k' (map fst (Map_set m k v)) <-> k' = k \/ In k' (map fst m))
  /\ length (Map_set m k v) <= S (length m).
Proof.
  induction m as [|[k0 v0] m IH]; intros Hnd.
  - cbn. split; [repeat constructor; intros []|]. split; [|lia].
    intros k'. intuition congruence.
  - cbn [Map_set]. cbn [map fst] in Hnd. inversion Hnd as [|? ? Hk0 Hnd']; subst.
    destruct (Nat.eqb_spec k0 k) as [->|Hne].
    + cbn [map fst length]. split; [exact Hnd|]. split; [|lia].
      intros k'. cbn [In]. intuition congruence.
    + destruct (IH Hnd') as (Hn & Hin & Hlen).
      cbn [map fst length]. split; [|split; [|lia]].
      * constructor; [|exact Hn]. rewrite Hin. intros [H|H]; [congruence|].
        exact (Hk0 H).
      * intros k'. cbn [In]. rewrite Hin. tauto.
Qed.

(** X19.  In the flip map each module index appears at most once, whatever
    the distribution: a later bit for the same index replaces the earlier
    one. *)
Theorem createFlipMap_keys secondaryBits flippableModules flipMap :
  createFlipMap secondaryBits flippableModules = Ok flipMap ->
  positions flipMap = flippableModules
  /\ NoDup (map fst (encoding flipMap))
  /\ length (encoding flipMap) <= length secondaryBits
  /\ forall k, In k (map fst (encoding flipMap)) -> k < length flippableModules.
Proof.
  unfold createFlipMap, generateDistributionPattern.
  destruct (Nat.ltb_spec (length flippableModules) (length secondaryBits))
    as [Hlt|Hge]; [discriminate|].
  intros [= <-]. cbn [positions encoding]. split; [reflexivity|].
  set (indices := distribution_loop _ _ _ _).
  assert (Hidx : forall e, In e (combine indices secondaryBits) ->
                   fst e < length flippableModules).
  { intros [k b] Hin. apply in_combine_l in Hin. cbn [fst].
    destruct secondaryBits as [|b0 rest]; [destruct Hin|].
    pose proof (distribution_loop_bound (length (b0 :: rest))
                  (findLargePrime (length flippableModules))
                  (length flippableModules) 0) as Hb.
    rewrite Forall_forall in Hb. apply Hb; [cbn [length] in Hge; lia|exact Hin]. }
  assert (Hlen : length (combine indices secondaryBits) <= length secondaryBits)
    by (rewrite length_combine; lia).
  revert Hidx Hlen. generalize (combine indices secondaryBits) as entries.
  intros entries Hidx Hlen.
  assert (Hgen : forall m,
            NoDup (map fst m) ->
            let m' := fold_left (fun encoding entry =>
                                   Map_set encoding (fst entry) (snd entry))
                                entries m in
            NoDup (map fst m')
            /\ length m' <= length m + length entries
            /\ forall k, In k (map fst m') ->
                 In k (map fst m) \/ In k (map fst entries)).
  { clear Hidx Hlen. induction entries as [|[k b] entries IH]; intros m Hnd.
    - cbn. split; [exact Hnd|]. split; [lia|]. auto.
    - cbn [fold_left fst snd]. destruct (Map_set_keys m k b Hnd) as (Hn & Hin & Hl).
      destruct (IH _ Hn) as (Hn' & Hl' & Hin'). cbv zeta in *.
      split; [exact Hn'|]. split; [cbn [length]; lia|].
      intros k' Hk'. destruct (Hin' k' Hk') as [H|H].
      + apply Hin in H as [->|H]; [right; left; reflexivity | left; exact H].
      + right. right. exact H. }
  destruct (Hgen [] ltac:(constructor)) as (Hn & Hl & Hin). cbv zeta in *.
  split; [exact Hn|]. split; [cbn [length] in Hl; lia|].
  intros k Hk. destruct (Hin k Hk) as [[]|H].
  apply in_map_iff in H as (e & <- & He). apply Hidx, He.
Qed.

Lemma createFlipMap_keys_witness :
  let two := [ {| px := 9; py := 9; index := 0 |};
               {| px := 10; py := 9; index := 1 |} ] in
  exists flipMap,
    createFlipMap [true; false] two = Ok flipMap
    /\ encoding flipMap = [(0, false)]
    /\ NoDup (map fst (encoding flipMap)).
Proof.
  cbv zeta. eexists. split; [vm_compute; reflexivity|]. split; [reflexivity|].
  apply (createFlipMap_keys [true; false]
           [ {| px := 9; py := 9; index := 0 |};
             {| px := 10; py := 9; index := 1 |} ]
           {| positions := [ {| px := 9; py := 9; index := 0 |};
                             {| px := 10; py := 9; index := 1 |} ];
              encoding := [(0, false)] |}).
  vm_compute. reflexivity.
Defined.

(** X20.  With a bit capacity between 1 and 32 the encoder does not stop for
    want of capacity: it encodes the empty secondary message, and refuses
    every other one as too large. *)
Theorem small_capacity_refuses_payload primary secondary options base m :
  encodeText primary (mapECLevel (options_ecLevel options)) = Some base ->
  let flippableModules :=
    flippable_positions (QrCode.size base) (QrCode.version base) in
  let maxBits :=
    calculateMaxCapacity flippableModules (options_ecLevel options)
                         (options_safetyMargin options) in
  length flippableModules <> 0 ->
  PrimFloat.leb maxBits PrimFloat.zero = false ->
  Num.int_value maxBits = Some m -> (m <= 32)%Z ->
  is_Ok (encode encodeText primary secondary options)
  = (length secondary =? 0)
  /\ is_PayloadTooLarge (encode encodeText primary secondary options)
     = negb (length secondary =? 0).
Proof.
  intros Hbase flippableModules maxBits Hlen Hleb Hm Hsmall.
  rewrite (encode_run encodeText primary secondary options base Hbase).
  cbv zeta. fold flippableModules. fold maxBits.
  apply Nat.eqb_neq in Hlen. rewrite Hlen, Hleb.
  destruct secondary as [|c rest].
  - cbn [length Nat.ltb Nat.leb bind]. rewrite flips_nil. split; reflexivity.
  - replace (0 <? length (c :: rest)) with true by reflexivity.
    unfold encodeSecondaryMessage. cbv zeta.
    rewrite (Num_gtb_int _ _ _ Hm).
    assert (Hn : (1 <= Z.of_nat (length (Utf8.encode (c :: rest))))%Z).
    { destruct (Utf8.encode (c :: rest)) eqn:He; [|cbn [length]; lia].
      apply encode_nil in He. discriminate. }
    replace (32 + Z.of_nat (length (Utf8.encode (c :: rest))) * 8 >? m)%Z
      with true by (symmetry; rewrite Z.gtb_ltb; apply Z.ltb_lt; lia).
    split; reflexivity.
Qed.

Section Standard.

Hypothesis engine_well_formed :
  forall text ecc qr, encodeText text ecc = Some qr -> QrCode.well_formed qr.

(** X21.  With the default options and symbols of the standard, the encoder
    never stops for want of flippable modules or of bit capacity. *)
Theorem default_capacity_suffices primary secondary :
  is_InsufficientCapacity (encode encodeText primary secondary no_options) = false
  /\ encode encodeText primary secondary no_options <> Err MatrixTooSmall.
Proof.
  destruct (encodeText primary QrCode.HIGH) as [base|] eqn:Hbase.
  - rewrite (encode_run encodeText primary secondary no_options base Hbase).
    cbv zeta.
    destruct (default_capacity_symbol base EC.H (engine_well_formed _ _ _ Hbase))
      as (m & _ & _ & _ & Hleb & H16).
    change (options_ecLevel no_options) with EC.H.
    change (options_safetyMargin no_options) with DEFAULT_SAFETY_MARGIN.
    replace (length _ =? 0) with false by (symmetry; apply Nat.eqb_neq; lia).
    rewrite Hleb.
    destruct (if 0 <? length secondary then _ else _) as [bits|e] eqn:Hbits.
    + cbn [bind].
      pose proof (flips_raise_structural base bits
                    (flippable_positions (QrCode.size base) (QrCode.version base)))
        as Hs.
      destruct (bind _ _) as [matrix|[]]; cbn in Hs; split;
        try reflexivity; try discriminate.
    + cbn [bind]. destruct (0 <? length secondary); [|discriminate].
      unfold encodeSecondaryMessage in Hbits. cbv zeta in Hbits.
      destruct (Num.gtb _ _); [|discriminate]. injection Hbits as <-.
      split; [reflexivity|discriminate].
  - unfold encode, QrCode_encodeText. cbn [ecLevel no_options mapECLevel].
    rewrite Hbase. split; [reflexivity|discriminate].
Qed.

(** X22.  A version-1 symbol holds no hidden byte at the default margin: its
    bit capacity is 33, one more than the overhead, so every secondary
    message but the empty one is refused as too large. *)
Theorem version_1_holds_nothing primary secondary base :
  encodeText primary QrCode.HIGH = Some base ->
  QrCode.version base = 1 ->
  secondary <> [] ->
  getCapacity encodeText primary None = Ok PrimFloat.zero
  /\ is_PayloadTooLarge (encode encodeText primary secondary no_options) = true.
Proof.
  intros Hbase Hv Hsec.
  destruct (engine_well_formed _ _ _ Hbase) as [_ Hs]. rewrite Hv in Hs.
  assert (Hcount : length (flippable_positions (QrCode.size base)
                                               (QrCode.version base)) = 208).
  { rewrite flippable_positions_length, Hs, Hv.
    apply (flippable_count_spec 1). lia. }
  assert (Hbits : calculateMaxCapacity
                    (flippable_positions (QrCode.size base) (QrCode.version base))
                    EC.H DEFAULT_SAFETY_MARGIN = Num.of_Z 33).
  { rewrite calculateMaxCapacity_count, Hcount. vm_compute. reflexivity. }
  split.
  - rewrite (getCapacity_run encodeText primary None base Hbase), Hbits.
    vm_compute. reflexivity.
  - rewrite (encode_run encodeText primary secondary no_options base Hbase).
    cbv zeta.
    change (options_ecLevel no_options) with EC.H.
    change (options_safetyMargin no_options) with DEFAULT_SAFETY_MARGIN.
    rewrite Hbits, Hcount.
    replace (208 =? 0) with false by reflexivity.
    replace (PrimFloat.leb (Num.of_Z 33) PrimFloat.zero) with false
      by (vm_compute; reflexivity).
    destruct secondary as [|c rest]; [congruence|].
    replace (0 <? length (c :: rest)) with true by reflexivity.
    unfold encodeSecondaryMessage. cbv zeta.
    rewrite (Num_gtb_int _ (Num.of_Z 33) 33 ltac:(vm_compute; reflexivity)).
    assert (Hn : (1 <= Z.of_nat (length (Utf8.encode (c :: rest))))%Z).
    { destruct (Utf8.encode (c :: rest)) eqn:He; [|cbn [length]; lia].
      apply encode_nil in He. discriminate. }
    replace (32 + Z.of_nat (length (Utf8.encode (c :: rest))) * 8 >? 33)%Z
      with true by (symmetry; rewrite Z.gtb_ltb; apply Z.ltb_lt; lia).
    reflexivity.
Qed.

End Standard.

End EncoderProperties.

Lemma encode_keeps_function_patterns_witness :
  exists matrix,
    encode (sample_engine 3) PRIMARY SECRET no_options = Ok matrix
    /\ size matrix = 29
    /\ cell_value (modules matrix) 0 0 = Some true.
Proof.
  destruct (encode (sample_engine 3) PRIMARY SECRET no_options) as [matrix|]
    eqn:Henc; [|vm_compute in Henc; discriminate].
  exists matrix. split; [reflexivity|].
  destruct (encode_keeps_function_patterns (sample_engine 3) PRIMARY SECRET
              no_options matrix Henc)
    as (base & Hbase & Hsize & _ & Hcells).
  injection Hbase as <-. split; [exact Hsize|].
  apply (Hcells 0 0); [cbn; lia | cbn; lia | reflexivity].
Defined.

Lemma default_capacity_suffices_witness :
  is_InsufficientCapacity (encode (sample_engine 1) PRIMARY SECRET no_options)
  = false
  /\ encode (sample_engine 1) PRIMARY SECRET no_options <> Err MatrixTooSmall.
Proof.
  apply (default_capacity_suffices (sample_engine 1)
           (sample_engine_well_formed 1 ltac:(lia)) PRIMARY SECRET).
Defined.

Lemma version_1_holds_nothing_witness :
  getCapacity (sample_engine 1) PRIMARY None = Ok PrimFloat.zero
  /\ is_PayloadTooLarge (encode (sample_engine 1) PRIMARY SECRET no_options)
     = true.
Proof.
  apply (version_1_holds_nothing (sample_engine 1)
           (sample_engine_well_formed 1 ltac:(lia)) PRIMARY SECRET
           (sample_symbol 1 QrCode.HIGH)).
  - reflexivity.
  - reflexivity.
  - discriminate.
Defined.

Lemma small_capacity_refuses_payload_witness :
  is_Ok (encode (sample_engine 1) PRIMARY SECRET (margin 0x1.999999999999ap-5))
  = false
  /\ is_PayloadTooLarge
       (encode (sample_engine 1) PRIMARY SECRET (margin 0x1.999999999999ap-5))
     = true.
Proof.
  apply (small_capacity_refuses_payload (sample_engine 1) PRIMARY SECRET
           (margin 0x1.999999999999ap-5) (sample_symbol 1 QrCode.HIGH) 23
           eq_refl).
  - vm_compute. discriminate.
  - vm_compute. reflexivity.
  - vm_compute. reflexivity.
  - lia.
Defined.

(** ** The decoder of core/QRStego.ts *)

Section DecoderProperties.

Variable encodeText : jsstring -> QrCode.Ecc -> option QrCode.t.

(** X23.  Over matrices with the same number of rows, [compareMatrices]
    returns the indices of the flippable modules at which the two differ, in
    increasing order; a cell that is missing in one matrix differs from any
    value in the other. *)
Theorem compareMatrices_finds_differences scanned reference flippableModules :
  length scanned = length reference ->
  (forall pos, In pos flippableModules -> py pos < length scanned) ->
  exists flipped,
    compareMatrices scanned reference flippableModules = Ok flipped
    /\ flipped = filter (differs scanned reference flippableModules)
                        (seq 0 (length flippableModules))
    /\ NoDup flipped
    /\ forall i, In i flipped
         <-> i < length flippableModules
             /\ differs scanned reference flippableModules i = true.
Proof.
  intros Hlen Hrows. eexists. split; [apply compareMatrices_differs; assumption|].
  split; [reflexivity|]. split.
  - apply NoDup_filter, seq_NoDup.
  - intros i. rewrite filter_In, in_seq. intuition lia.
Qed.

Lemma compareMatrices_finds_differences_witness :
  exists flipped,
    compareMatrices [[true; false]] [[true; true]]
      [ {| px := 0; py := 0; index := 0 |};
        {| px := 1; py := 0; index := 1 |};
        {| px := 2; py := 0; index := 2 |} ] = Ok flipped
    /\ flipped = [1].
Proof.
  destruct (compareMatrices_finds_differences [[true; false]] [[true; true]]
              [ {| px := 0; py := 0; index := 0 |};
                {| px := 1; py := 0; index := 1 |};
                {| px := 2; py := 0; index := 2 |} ] eq_refl)
    as (flipped & Hcmp & Heq & _).
  - intros pos [<-|[<-|[<-|[]]]]; cbn; lia.
  - exists flipped. split; [exact Hcmp|]. rewrite Heq. reflexivity.
Defined.

(** X24.  [compareMatrices] reports a size mismatch exactly when the numbers
    of rows differ; the widths of the rows are not compared. *)
Theorem compareMatrices_size_mismatch scanned reference flippableModules :
  compareMatrices scanned reference flippableModules = Err SizeMismatch
  <-> length scanned <> length reference.
Proof.
  unfold compareMatrices.
  destruct (Nat.eqb_spec (length scanned) (length reference)) as [Heq|Hne];
    cbn [negb]; [|split; [intros _; exact Hne | reflexivity]].
  split; [|contradiction]. intros Herr. exfalso.
  assert (Hraise : raises_only
            (fun e => match e with TypeError => true | _ => false end)
            (for_each (seq 0 (length flippableModules))
               (fun i flippedIndices =>
                  match nth_error flippableModules i with
                  | None => Err TypeError
                  | Some pos =>
                      scannedValue <- cell_at scanned (px pos) (py pos) ;;
                      referenceValue <- cell_at reference (px pos) (py pos) ;;
                      if negb (option_bool_eqb scannedValue referenceValue)
                      then Ok (Set_add flippedIndices i)
                      else Ok flippedIndices
                  end) []) = true).
  { apply for_each_raises. intros i s.
    destruct (nth_error flippableModules i) as [pos|]; [|reflexivity].
    unfold cell_at.
    destruct (nth_error scanned (py pos)); [|reflexivity].
    destruct (nth_error reference (py pos)); [|reflexivity].
    cbn [bind]. destruct (negb _); reflexivity. }
  rewrite Herr in Hraise. discriminate.
Qed.

(** X25.  Bit [i] of what [extractBitsFromFlips] returns tells whether module
    [(i * p) mod total] is flipped, [p] being the step: past [total] bits the
    walk comes back to modules it has read before. *)
Theorem extracted_bit flipPositions flippableModules i :
  let total := length flippableModules in
  let bits := extractBitsFromFlips flipPositions flippableModules in
  total <> 0 -> i < length bits ->
  nth i bits false
  = Set_has flipPositions ((i * findLargePrime total) mod total).
Proof.
  intros total bits Htotal Hi. unfold bits, extractBitsFromFlips in *.
  cbv zeta in *. fold total in Hi |- *.
  rewrite extract_loop_length in Hi. rewrite extract_loop_map.
  rewrite (nth_indep _ false (Set_has flipPositions 0))
    by (rewrite length_map, distribution_loop_length; exact Hi).
  rewrite map_nth, distribution_loop_nth by assumption. reflexivity.
Qed.

Lemma extracted_bit_witness :
  let three := [ {| px := 9; py := 9; index := 0 |};
                 {| px := 10; py := 9; index := 1 |};
                 {| px := 11; py := 9; index := 2 |} ] in
  nth 2 (extractBitsFromFlips [1] three) false
  = Set_has [1] ((2 * findLargePrime 3) mod 3).
Proof.
  cbv zeta.
  apply (extracted_bit [1]
           [ {| px := 9; py := 9; index := 0 |};
             {| px := 10; py := 9; index := 1 |};
             {| px := 11; py := 9; index := 2 |} ] 2).
  - cbn [length]. discriminate.
  - unfold extractBitsFromFlips. cbv zeta. rewrite extract_loop_length. lia.
Defined.

Lemma for_each_ext_in {A S : Type} (range : list A)
    (body body' : A -> S -> result S) :
  (forall a s, In a range -> body a s = body' a s) ->
  forall s, for_each range body s = for_each range body' s.
Proof.
  induction range as [|a range IH]; intros Hext s; [reflexivity|].
  cbn [for_each]. rewrite (Hext a s (or_introl eq_refl)).
  destruct (body' a s); cbn [bind]; [|reflexivity].
  apply IH. intros; apply Hext; right; assumption.
Qed.

Lemma cell_at_update (matrix : list (list bool)) f x y x' y' :
  (x', y') <> (x, y) ->
  cell_at (update_nth y (update_nth x f) matrix) x' y' = cell_at matrix x' y'.
Proof.
  intros Hne. unfold cell_at. rewrite nth_error_update_nth.
  destruct (Nat.eqb_spec y' y) as [->|]; [|reflexivity].
  destruct (nth_error matrix y) as [row|]; [|reflexivity].
  cbn [option_map]. rewrite nth_error_update_nth.
  destruct (Nat.eqb_spec x' x) as [->|]; [congruence|reflexivity].
Qed.

(** X26.  The decoder does not look at the function patterns: changing the
    scanned value of a module that [isFunctionPattern] marks changes nothing
    in the result. *)
Theorem decode_ignores_function_patterns scanned primary reference f x y :
  encodeText primary QrCode.HIGH = Some reference ->
  isFunctionPattern x y (convertToFullQRMatrix reference) = true ->
  decodeFromMatrix encodeText (update_nth y (update_nth x f) scanned) primary
  = decodeFromMatrix encodeText scanned primary.
Proof.
  intros Href Hf. rewrite !(decode_run encodeText _ primary reference Href).
  cbv zeta.
  replace (compareMatrices (update_nth y (update_nth x f) scanned)
             (qrToModuleMatrix reference)
             (flippable_positions (QrCode.size reference)
                                  (QrCode.version reference)))
    with (compareMatrices scanned (qrToModuleMatrix reference)
            (flippable_positions (QrCode.size reference)
                                 (QrCode.version reference)));
    [reflexivity|].
  unfold compareMatrices. rewrite update_nth_length.
  destruct (negb _); [reflexivity|].
  apply for_each_ext_in. intros i s _.
  destruct (nth_error _ i) as [pos|] eqn:Hpos; [|reflexivity].
  rewrite cell_at_update; [reflexivity|].
  intros Heq. injection Heq as Hx Hy.
  apply nth_error_In, flippable_positions_In in Hpos.
  destruct Hpos as (_ & _ & Hpos). rewrite Hx, Hy in Hpos.
  change (isFunctionPattern x y (convertToFullQRMatrix reference))
    with (isFunctionPattern x y
            (shape (QrCode.size reference) (QrCode.version reference))) in Hf.
  congruence.
Qed.

(** X27.  On a round trip at any safety margin the encoder and the decoder
    report the same number of flipped modules: one for each bit of the frame
    that is set. *)
Theorem flipped_counts_agree primary secondary options base m :
  encodeText primary QrCode.HIGH = Some base ->
  options_ecLevel options = EC.H ->
  let cells := flippable_cells (QrCode.size base) (QrCode.version base) in
  let maxBits :=
    calculateMaxCapacity
      (flippable_positions (QrCode.size base) (QrCode.version base)) EC.H
      (options_safetyMargin options) in
  let bytes := Utf8.encode secondary in
  let n := Z.of_nat (length bytes) in
  Num.int_value maxBits = Some m ->
  PrimFloat.leb maxBits PrimFloat.zero = false ->
  (32 + 8 * n <= m)%Z -> (32 + 8 * n <= Z.of_nat (length cells))%Z ->
  (1 <= n <= 65535)%Z ->
  is_string secondary = true ->
  exists matrix payload,
    encode encodeText primary secondary options = Ok matrix
    /\ decodeFromMatrix encodeText (getModules matrix) primary = Ok payload
    /\ flippedModuleCount matrix
       = Some (meta_flippedModuleCount (metadata payload))
    /\ meta_flippedModuleCount (metadata payload)
       = count_true (frame n bytes (calculateChecksum bytes)).
Proof.
  intros Hbase Hec cells maxBits bytes n Hm Hleb Hle Hcells Hn Hstr.
  destruct (round_trip_full encodeText primary secondary options base m Hbase Hec
              Hm Hleb Hle Hcells Hn Hstr)
    as (matrix & payload & Henc & Hdec & _ & Hflipped & Hmeta).
  exists matrix, payload. fold bytes n in Hflipped, Hmeta.
  rewrite Hmeta. auto.
Qed.

End DecoderProperties.

Lemma decode_ignores_function_patterns_witness :
  let reference := qrToModuleMatrix (sample_symbol 1 QrCode.HIGH) in
  decodeFromMatrix (sample_engine 1)
    (update_nth 0 (update_nth 0 negb) reference) PRIMARY
  = decodeFromMatrix (sample_engine 1) reference PRIMARY.
Proof.
  apply (decode_ignores_function_patterns (sample_engine 1) _ PRIMARY
           (sample_symbol 1 QrCode.HIGH) negb 0 0); reflexivity.
Defined.

Lemma flipped_counts_agree_witness :
  exists matrix payload,
    encode (sample_engine 3) PRIMARY SECRET no_options = Ok matrix
    /\ decodeFromMatrix (sample_engine 3) (getModules matrix) PRIMARY = Ok payload
    /\ flippedModuleCount matrix
       = Some (meta_flippedModuleCount (metadata payload))
    /\ meta_flippedModuleCount (metadata payload)
       = count_true (frame 6 (Utf8.encode SECRET)
                           (calculateChecksum (Utf8.encode SECRET))).
Proof.
  apply (flipped_counts_agree (sample_engine 3) PRIMARY SECRET no_options
           (sample_symbol 3 QrCode.HIGH) 92 eq_refl eq_refl).
  - vm_compute. reflexivity.
  - vm_compute. reflexivity.
  - apply Z.leb_le. vm_compute. reflexivity.
  - apply Z.leb_le. vm_compute. reflexivity.
  - split; apply Z.leb_le; vm_compute; reflexivity.
  - reflexivity.
Defined.
